(** * Histo: the streaming facet-aggregation engine of [main.go]

    A shallow embedding of the model, the ingestion path, the pin filter,
    the ranking, the navigation and the histogram bucketing of [main.go],
    followed by the properties the specification states about them.

    Conventions of the embedding.
    - Go's [int] is a 64-bit integer: values are in [Z], and every addition,
      subtraction and multiplication the source performs is wrapped by
      [wrap64].  Go's [/] and [%] truncate: [Z.quot] and [Z.rem].
    - Go's [float64] is IEEE 754 binary64: Rocq's primitive [float], with the
      same NaN, infinities and rounding.
    - Go's [string] is a byte sequence: [string] (a list of 8-bit [ascii]).
    - Go's maps are [gmap]s.  A [range] over a map visits the keys in an
      order Go leaves unspecified: a loop whose result depends on the order
      takes the order as an argument, and the theorems quantify over every
      order that enumerates the keys.
    - A run-time panic (index out of range) is the result [None]. *)

From Stdlib Require Import ZArith Floats Uint63 Ascii String.
From stdpp Require Import gmap strings list fin_maps sorting.

Local Open Scope Z_scope.

(** ** Machine integers *)

Definition wrap64 (z : Z) : Z := (z + 2 ^ 63) mod 2 ^ 64 - 2 ^ 63.

Definition int_add (a b : Z) : Z := wrap64 (a + b).
Definition int_sub (a b : Z) : Z := wrap64 (a - b).
Definition int_mul (a b : Z) : Z := wrap64 (a * b).

(** [len(x)] of a slice or map, as an [int]. *)
Definition len {A} (l : list A) : Z := Z.of_nat (length l).

(** [max(a, b)] of main.go. *)
Definition max (a b : Z) : Z := if b <? a then a else b.

(** ** Floating point *)

(** [float64(n)] for an [int] [n]. *)
Definition float64_of_int (n : Z) : float :=
  if n <? 0 then PrimFloat.opp (PrimFloat.of_uint63 (Uint63.of_Z (- n)))
  else PrimFloat.of_uint63 (Uint63.of_Z n).

(** The integer a finite binary64 value truncates to (toward zero). *)
Definition SFtrunc (f : spec_float) : option Z :=
  match f with
  | S754_zero _ => Some 0
  | S754_finite s m e =>
      let a := if 0 <=? e then Z.pos m * 2 ^ e else Z.pos m / 2 ^ (- e) in
      Some (if s then - a else a)
  | _ => None
  end.

(** [int(x)] for a [float64] [x]: the fraction is discarded.  When [x] is a
    NaN, an infinity or beyond the range of [int], Go leaves the result to the
    implementation: [indefinite] is that result (on amd64 the conversion
    instruction returns [-2^63], the "integer indefinite" value). *)
Definition float64_to_int (indefinite : Z) (x : float) : Z :=
  match SFtrunc (Prim2SF x) with
  | Some z => if (- 2 ^ 63 <=? z) && (z <? 2 ^ 63) then z else indefinite
  | None => indefinite
  end.

Definition amd64_indefinite : Z := - 2 ^ 63.

(** ** Library functions of Go used by main.go *)

Definition tab : ascii := "009"%char.

(** [strings.Split(s, sep)] for a one-byte separator: the fields between the
    occurrences of [sep]; never the empty slice. *)
Fixpoint Split (s : string) (sep : ascii) : list string :=
  match s with
  | EmptyString => [EmptyString]
  | String c s' =>
      if Ascii.eqb c sep then EmptyString :: Split s' sep
      else match Split s' sep with
           | field :: fields => String c field :: fields
           | [] => [String c EmptyString]
           end
  end.

(** [sort.Slice(x, less)].  On a slice of at most 12 elements Go's sort
    package runs insertion sort: for [i = 1 .. n-1], element [i] is swapped
    leftwards while it is [less] than its left neighbour.  [insertLeft x rp]
    is that inner loop, on the already sorted prefix held in reverse ([rp]'s
    head is the neighbour of [x]). *)
Fixpoint insertLeft {A} (less : A → A → bool) (x : A) (rp : list A) : list A :=
  match rp with
  | [] => [x]
  | y :: rp' => if less x y then y :: insertLeft less x rp' else x :: rp
  end.

Definition sort_Slice {A} (less : A → A → bool) (x : list A) : list A :=
  reverse (fold_left (λ rp a, insertLeft less a rp) x []).

(** ** The model *)

(** A facet map: facet value → samples in arrival order. *)
Abbreviation facetMap := (gmap string (list float)).
(** A facet table: facet column (1-indexed) → facet map. *)
Abbreviation facetTable := (gmap Z (gmap string (list float))).

(** The fields of [model] that the engine reads or writes ([startTime],
    [stats], [lines], [countStrings], [gridRows] and [activeFacetKeys] are
    only display or start-up state). *)
Record model := Model {
  facetsData : facetTable;
  storedLines : list string;
  totalLogCount : Z;
  facet : Z;
  winWidth : Z;
  winHeight : Z;
  scrollOffset : Z;
  stringValues : gmap string Z;
  activeFacet : string;
  activeFacetPos : Z * Z;
  facetPositions : gmap string (Z * Z);
  gridColumns : Z;
  pinnedFacets : gmap string bool;
  pinnedFacetsColumn : gmap string Z;
  filteredData : facetTable;
  isFiltered : bool
}.

Definition set_facetsData (v : facetTable) (m : model) : model :=
  Model v (storedLines m) (totalLogCount m) (facet m) (winWidth m) (winHeight m)
    (scrollOffset m) (stringValues m) (activeFacet m) (activeFacetPos m)
    (facetPositions m) (gridColumns m) (pinnedFacets m) (pinnedFacetsColumn m)
    (filteredData m) (isFiltered m).
Definition set_storedLines (v : list string) (m : model) : model :=
  Model (facetsData m) v (totalLogCount m) (facet m) (winWidth m) (winHeight m)
    (scrollOffset m) (stringValues m) (activeFacet m) (activeFacetPos m)
    (facetPositions m) (gridColumns m) (pinnedFacets m) (pinnedFacetsColumn m)
    (filteredData m) (isFiltered m).
Definition set_totalLogCount (v : Z) (m : model) : model :=
  Model (facetsData m) (storedLines m) v (facet m) (winWidth m) (winHeight m)
    (scrollOffset m) (stringValues m) (activeFacet m) (activeFacetPos m)
    (facetPositions m) (gridColumns m) (pinnedFacets m) (pinnedFacetsColumn m)
    (filteredData m) (isFiltered m).
Definition set_facet (v : Z) (m : model) : model :=
  Model (facetsData m) (storedLines m) (totalLogCount m) v (winWidth m) (winHeight m)
    (scrollOffset m) (stringValues m) (activeFacet m) (activeFacetPos m)
    (facetPositions m) (gridColumns m) (pinnedFacets m) (pinnedFacetsColumn m)
    (filteredData m) (isFiltered m).
Definition set_winSize (w h : Z) (m : model) : model :=
  Model (facetsData m) (storedLines m) (totalLogCount m) (facet m) w h
    (scrollOffset m) (stringValues m) (activeFacet m) (activeFacetPos m)
    (facetPositions m) (gridColumns m) (pinnedFacets m) (pinnedFacetsColumn m)
    (filteredData m) (isFiltered m).
Definition set_scrollOffset (v : Z) (m : model) : model :=
  Model (facetsData m) (storedLines m) (totalLogCount m) (facet m) (winWidth m)
    (winHeight m) v (stringValues m) (activeFacet m) (activeFacetPos m)
    (facetPositions m) (gridColumns m) (pinnedFacets m) (pinnedFacetsColumn m)
    (filteredData m) (isFiltered m).
Definition set_stringValues (v : gmap string Z) (m : model) : model :=
  Model (facetsData m) (storedLines m) (totalLogCount m) (facet m) (winWidth m)
    (winHeight m) (scrollOffset m) v (activeFacet m) (activeFacetPos m)
    (facetPositions m) (gridColumns m) (pinnedFacets m) (pinnedFacetsColumn m)
    (filteredData m) (isFiltered m).
Definition set_activeFacet (v : string) (m : model) : model :=
  Model (facetsData m) (storedLines m) (totalLogCount m) (facet m) (winWidth m)
    (winHeight m) (scrollOffset m) (stringValues m) v (activeFacetPos m)
    (facetPositions m) (gridColumns m) (pinnedFacets m) (pinnedFacetsColumn m)
    (filteredData m) (isFiltered m).
Definition set_activeFacetPos (v : Z * Z) (m : model) : model :=
  Model (facetsData m) (storedLines m) (totalLogCount m) (facet m) (winWidth m)
    (winHeight m) (scrollOffset m) (stringValues m) (activeFacet m) v
    (facetPositions m) (gridColumns m) (pinnedFacets m) (pinnedFacetsColumn m)
    (filteredData m) (isFiltered m).
Definition set_pins (p : gmap string bool) (c : gmap string Z) (m : model) : model :=
  Model (facetsData m) (storedLines m) (totalLogCount m) (facet m) (winWidth m)
    (winHeight m) (scrollOffset m) (stringValues m) (activeFacet m)
    (activeFacetPos m) (facetPositions m) (gridColumns m) p c
    (filteredData m) (isFiltered m).
Definition set_filteredData (v : facetTable) (m : model) : model :=
  Model (facetsData m) (storedLines m) (totalLogCount m) (facet m) (winWidth m)
    (winHeight m) (scrollOffset m) (stringValues m) (activeFacet m)
    (activeFacetPos m) (facetPositions m) (gridColumns m) (pinnedFacets m)
    (pinnedFacetsColumn m) v (isFiltered m).
Definition set_isFiltered (v : bool) (m : model) : model :=
  Model (facetsData m) (storedLines m) (totalLogCount m) (facet m) (winWidth m)
    (winHeight m) (scrollOffset m) (stringValues m) (activeFacet m)
    (activeFacetPos m) (facetPositions m) (gridColumns m) (pinnedFacets m)
    (pinnedFacetsColumn m) (filteredData m) v.

(** The model [main] builds, for the flag [-facet f]. *)
Definition initialModel (f : Z) : model :=
  Model ∅ [] 0 f 80 24 0 ∅ EmptyString (0, 0) ∅ 0 ∅ ∅ ∅ false.

(** [dataSource := m.facetsData; if m.isFiltered { dataSource = m.filteredData }] *)
Definition dataSource (m : model) : facetTable :=
  if isFiltered m then filteredData m else facetsData m.

(** The keys of a map in the order [map_to_list] lists them: one of the
    orders a [range] may take. *)
Definition keysOf {K} `{Countable K} {V} (m : gmap K V) : list K :=
  (map_to_list m).*1.

(** [order] is an order in which a [range] over [m] may visit its keys. *)
Definition rangeOf {K} `{Countable K} {V} (order : list K) (m : gmap K V) : Prop :=
  order ≡ₚ keysOf m.

(** ** Ranking *)

(** [computeMean] *)
Definition computeMean (values : list float) : float :=
  match values with
  | [] => 0%float
  | _ => (fold_left PrimFloat.add values 0 / float64_of_int (len values))%float
  end.

(** [facetData[k]]: the samples of a key, the nil slice when absent. *)
Definition samplesOf (facetData : facetMap) (k : string) : list float :=
  default [] (facetData !! k).

(** The [less] closure of [getSortedFacetKeys], on the keys themselves. *)
Definition facetLess (facetData : facetMap) (ki kj : string) : bool :=
  let meanI := computeMean (samplesOf facetData ki) in
  let meanJ := computeMean (samplesOf facetData kj) in
  if negb (meanI =? meanJ)%float then (meanJ <? meanI)%float
  else String.ltb ki kj.

(** [getSortedFacetKeys]: [order] is the order in which
    [for k := range facetData] appended the keys. *)
Definition getSortedFacetKeys (order : list string) (facetData : facetMap)
  : list string :=
  sort_Slice (facetLess facetData) order.

(** ** Ingestion and the pin filter *)

(** The body of the loop over the pins in [processLineWithFilter], for one
    pin: [Some true] when the line is vetoed ([return]), [Some false] when the
    loop goes on, [None] when [parts[pinnedCol]] panics. *)
Definition pinVetoes (parts : list string) (cols : gmap string Z)
    (pinnedValue : string) (isActive : bool) : option bool :=
  if negb isActive then Some false
  else
    let pinnedCol := default 0 (cols !! pinnedValue) in
    if pinnedCol <? len parts then
      if pinnedCol <? 0 then None
      else
        let facetValue := default EmptyString (parts !! Z.to_nat pinnedCol) in
        Some (negb (String.eqb facetValue pinnedValue))
    else Some false.

(** [for pinnedValue, isActive := range m.pinnedFacets { ... }], the pins
    taken in the order [pins]: [Some true] when the loop runs to its end (the
    record passes the filter), [Some false] when it returns early. *)
Fixpoint pinsPass (parts : list string) (cols : gmap string Z)
    (pins : list (string * bool)) : option bool :=
  match pins with
  | [] => Some true
  | (pinnedValue, isActive) :: rest =>
      match pinVetoes parts cols pinnedValue isActive with
      | None => None
      | Some true => Some false
      | Some false => pinsPass parts cols rest
      end
  end.

(** The loop over [parts[1:]] that appends [value] under every facet:
    [index] is the column of the first of [facets] ([index := i + 1] for the
    loop counter [i], which stays below the length of the slice: the sum does
    not overflow). *)
Fixpoint addFacets (value : float) (facets : list string) (index : Z)
    (targetData : facetTable) : facetTable :=
  match facets with
  | [] => targetData
  | facet :: rest =>
      let column := default ∅ (targetData !! index) in
      let samples := samplesOf column facet ++ [value] in
      addFacets value rest (index + 1)
        (<[index := <[facet := samples]> column]> targetData)
  end.

Section Ingestion.

(** [strings.TrimSpace] and [strconv.ParseFloat(_, 64)] ([None]: the error
    is not nil) are Go library functions: the engine is verified for every
    behaviour of them. *)
Variable TrimSpace : string → string.
Variable ParseFloat : string → option float.

(** [processLineWithFilter] *)
Definition processLineWithFilter (line : string) (applyFilter : bool)
    (m : model) : option model :=
  let line := TrimSpace line in
  if String.eqb line EmptyString then Some m
  else
    let parts := Split line tab in
    if len parts <? 1 then Some m
    else
      let first := default EmptyString (parts !! 0%nat) in
      let parsed := ParseFloat first in
      passes ← (if applyFilter && (0 <? Z.of_nat (size (pinnedFacets m)))
                then pinsPass parts (pinnedFacetsColumn m)
                       (map_to_list (pinnedFacets m))
                else Some true);
      if negb passes then Some m
      else
        match parsed with
        | None =>
            if negb applyFilter then
              let count := default 0 (stringValues m !! first) in
              Some (set_totalLogCount (int_add (totalLogCount m) 1)
                      (set_stringValues
                         (<[first := int_add count 1]> (stringValues m)) m))
            else Some m
        | Some value =>
            let m := if negb applyFilter
                     then set_totalLogCount (int_add (totalLogCount m) 1) m
                     else m in
            if applyFilter
            then Some (set_filteredData
                         (addFacets value (drop 1 parts) 1 (filteredData m)) m)
            else Some (set_facetsData
                         (addFacets value (drop 1 parts) 1 (facetsData m)) m)
        end.

(** [processLine] *)
Definition processLine (line : string) (m : model) : option model :=
  let m := set_storedLines (storedLines m ++ [line]) m in
  m ← processLineWithFilter line false m;
  if isFiltered m then processLineWithFilter line true m else Some m.

(** The replay loop of [regenerateFilteredData]. *)
Fixpoint replay (lines : list string) (m : model) : option model :=
  match lines with
  | [] => Some m
  | line :: rest => m ← processLineWithFilter line true m; replay rest m
  end.

(** [regenerateFilteredData]: an empty facet map for every column of the
    full table, then every stored line replayed through the filter. *)
Definition regenerateFilteredData (m : model) : option model :=
  let empty := foldr (λ facetCol fd, <[facetCol := ∅]> fd) ∅
                 (keysOf (facetsData m)) in
  replay (storedLines m) (set_filteredData empty m).

End Ingestion.

(** ** Navigation *)

(** The orders taken by the [range] loops over maps that one call of
    [navigateGrid], [resetActiveFacet] or [Update] runs. *)
Record iteration := Iteration {
  (** the loop over the columns that stops at the first hit ([break]) *)
  rangeCols : list Z;
  (** the loop over a column's facet map inside [getSortedFacetKeys], in a
      call made from the loop above or for the single column shown *)
  rangeKeys : Z → list string;
  (** the loop over the columns that runs to its end *)
  rangeAll : list Z;
  (** the loop inside [getSortedFacetKeys], in a call made from [rangeAll] *)
  rangeKeysAll : Z → list string
}.

(** Every order of [it] enumerates the keys of the map it ranges over. *)
Definition iterates (it : iteration) (ds : facetTable) : Prop :=
  rangeOf (rangeCols it) ds ∧ rangeOf (rangeAll it) ds ∧
  ∀ facetCol facetData, ds !! facetCol = Some facetData →
    rangeOf (rangeKeys it facetCol) facetData ∧
    rangeOf (rangeKeysAll it facetCol) facetData.

(** [dataSource[facetCol]]: the nil map when the column is absent. *)
Definition columnOf (ds : facetTable) (facetCol : Z) : facetMap :=
  default ∅ (ds !! facetCol).

(** [for facetCol := range dataSource { keys := getSortedFacetKeys(...);
    if len(keys) > 0 { ... keys[0]; break } }] *)
Fixpoint firstSortedKey (ds : facetTable) (keys : Z → list string)
    (cols : list Z) : option string :=
  match cols with
  | [] => None
  | facetCol :: rest =>
      match getSortedFacetKeys (keys facetCol) (columnOf ds facetCol) with
      | key :: _ => Some key
      | [] => firstSortedKey ds keys rest
      end
  end.

(** [allKeys]: the sorted keys of every column, appended in the order of the
    loop over the columns. *)
Definition allKeys (ds : facetTable) (keys : Z → list string) (cols : list Z)
  : list string :=
  flat_map (λ facetCol, getSortedFacetKeys (keys facetCol) (columnOf ds facetCol))
    cols.

(** [currentIndex := -1; for i, key := range keys { if key == active
    { currentIndex = i; break } }], from index [i] on. *)
Fixpoint findIndex (keys : list string) (active : string) (i : Z) : Z :=
  match keys with
  | [] => -1
  | key :: rest =>
      if String.eqb key active then i else findIndex rest active (i + 1)
  end.

(** [keys[i]] for an index known to be in range. *)
Definition keyAt (keys : list string) (i : Z) : string :=
  default EmptyString (keys !! Z.to_nat i).

(** [updatePositionFromActiveFacet] *)
Definition updatePositionFromActiveFacet (m : model) : model :=
  match facetPositions m !! activeFacet m with
  | Some pos => set_activeFacetPos pos m
  | None => m
  end.

(** [ensureActiveFacetVisible] *)
Definition ensureActiveFacetVisible (m : model) : model :=
  if String.eqb (activeFacet m) EmptyString then m
  else
    match facetPositions m !! activeFacet m with
    | None => m
    | Some _ =>
        let row := (activeFacetPos m).1 in
        let rowHeight := 15 in
        let staticHeight := 10 in
        let availableHeight := int_sub (winHeight m) staticHeight in
        let startRow := Z.quot (scrollOffset m) rowHeight in
        let endRow := Z.quot (int_add (scrollOffset m) availableHeight) rowHeight in
        if row <? startRow then set_scrollOffset (int_mul row rowHeight) m
        else if endRow <=? row then
          set_scrollOffset
            (int_add (int_mul (int_add (int_sub row endRow) 1) rowHeight) 1) m
        else m
    end.

(** The all-facets branch of [navigateGrid], after the active facet has been
    initialised. *)
Definition navigateAll (keys : list string) (dx dy : Z) (m : model) : model :=
  if len keys =? 0 then m
  else
    let currentIndex := findIndex keys (activeFacet m) 0 in
    if currentIndex =? -1 then
      updatePositionFromActiveFacet (set_activeFacet (keyAt keys 0) m)
    else
      let commit newIndex :=
        ensureActiveFacetVisible
          (updatePositionFromActiveFacet
             (set_activeFacet (keyAt keys newIndex) m)) in
      if 0 <? dy then
        let newIndex := int_add currentIndex 1 in
        commit (if len keys <=? newIndex then int_sub (len keys) 1 else newIndex)
      else if dy <? 0 then
        let newIndex := int_sub currentIndex 1 in
        commit (if newIndex <? 0 then 0 else newIndex)
      else m.

(** [columns := m.gridColumns; if columns < 1 { columns = max(1, m.winWidth/60) }] *)
Definition gridWidth (m : model) : Z :=
  if gridColumns m <? 1 then max 1 (Z.quot (winWidth m) 60) else gridColumns m.

(** The single-facet branch of [navigateGrid], on the sorted keys of the
    column shown. *)
Definition navigateSingle (keys : list string) (dx dy : Z) (m : model) : model :=
  if len keys =? 0 then m
  else
    let currentIndex := findIndex keys (activeFacet m) 0 in
    if currentIndex =? -1 then
      set_activeFacetPos (0, 0) (set_activeFacet (keyAt keys 0) m)
    else
      let columns := gridWidth m in
      let currentRow := Z.quot currentIndex columns in
      let currentCol := Z.rem currentIndex columns in
      let targetRow := int_add currentRow dy in
      let targetCol := int_add currentCol dx in
      if (targetRow <? 0) || (targetCol <? 0) then m
      else
        let targetIndex := int_add (int_mul targetRow columns) targetCol in
        if (0 <=? targetIndex) && (targetIndex <? len keys) then
          ensureActiveFacetVisible
            (set_activeFacetPos (targetRow, targetCol)
               (set_activeFacet (keyAt keys targetIndex) m))
        else m.

(** [navigateGrid] *)
Definition navigateGrid (it : iteration) (dx dy : Z) (m : model) : model :=
  let ds := dataSource m in
  if facet m =? 0 then
    let m :=
      if String.eqb (activeFacet m) EmptyString then
        match firstSortedKey ds (rangeKeys it) (rangeCols it) with
        | Some key => set_activeFacet key m
        | None => m
        end
      else m in
    if String.eqb (activeFacet m) EmptyString then m
    else navigateAll (allKeys ds (rangeKeysAll it) (rangeAll it)) dx dy m
  else if 0 <? facet m then
    match ds !! facet m with
    | None => m
    | Some facetData =>
        navigateSingle (getSortedFacetKeys (rangeKeys it (facet m)) facetData)
          dx dy m
    end
  else m.

(** [resetActiveFacet] *)
Definition resetActiveFacet (it : iteration) (m : model) : model :=
  let ds := dataSource m in
  if facet m =? 0 then
    let m := set_activeFacetPos (0, 0) (set_activeFacet EmptyString m) in
    match firstSortedKey ds (rangeKeys it) (rangeCols it) with
    | Some key => set_activeFacet key m
    | None => m
    end
  else
    let m := set_activeFacetPos (0, 0) m in
    match ds !! facet m with
    | Some facetData =>
        match getSortedFacetKeys (rangeKeys it (facet m)) facetData with
        | key :: _ => set_activeFacet key m
        | [] => m
        end
    | None => m
    end.

(** ** Update *)

(** The messages [Update] handles: the lines a tick finds in the channel, a
    window size, and the keys by their [msg.String()]. *)
Inductive key :=
  | KeyQuit | KeyA | KeyD | KeyLeft | KeyRight | KeyZero | KeyK | KeyJ
  | KeyUp | KeyDown | KeyEnter | KeyOther.

Inductive msg :=
  | tickMsg (available : list string)
  | WindowSizeMsg (width height : Z)
  | KeyMsg (k : key).

(** [for facetCol, facetMap := range m.facetsData { if _, exists :=
    facetMap[value]; exists { ... facetCol; break } }] *)
Fixpoint scanColumns (full : facetTable) (value : string) (cols : list Z)
  : option Z :=
  match cols with
  | [] => None
  | facetCol :: rest =>
      match columnOf full facetCol !! value with
      | Some _ => Some facetCol
      | None => scanColumns full value rest
      end
  end.

(** [maxFacet := 0; for k := range dataSource { if k > maxFacet { maxFacet = k } }] *)
Definition maxFacet (cols : list Z) : Z :=
  fold_left (λ maxFacet k, if maxFacet <? k then k else maxFacet) cols 0.

Section Update.

Variable TrimSpace : string → string.
Variable ParseFloat : string → option float.

(** The drain loop of the tick. *)
Fixpoint drain (available : list string) (m : model) : option model :=
  match available with
  | [] => Some m
  | line :: rest => m ← processLine TrimSpace ParseFloat line m; drain rest m
  end.

(** The "enter" case of [Update]: toggle the pin of the active facet. *)
Definition togglePin (it : iteration) (m : model) : option model :=
  let active := activeFacet m in
  if String.eqb active EmptyString then Some m
  else
    let m :=
      if default false (pinnedFacets m !! active) then
        set_pins (delete active (pinnedFacets m))
          (delete active (pinnedFacetsColumn m)) m
      else
        let pinned := <[active := true]> (pinnedFacets m) in
        if 0 <? facet m then
          set_pins pinned (<[active := facet m]> (pinnedFacetsColumn m)) m
        else
          match scanColumns (facetsData m) active (rangeCols it) with
          | Some facetCol =>
              set_pins pinned (<[active := facetCol]> (pinnedFacetsColumn m)) m
          | None => set_pins pinned (pinnedFacetsColumn m) m
          end in
    let m := set_isFiltered (0 <? Z.of_nat (size (pinnedFacets m))) m in
    if isFiltered m then regenerateFilteredData TrimSpace ParseFloat m
    else Some m.

(** [Update] (the command it returns is left out). *)
Definition Update (it : iteration) (message : msg) (m : model) : option model :=
  match message with
  | tickMsg available => drain available m
  | WindowSizeMsg width height => Some (set_winSize width height m)
  | KeyMsg KeyQuit => Some m
  | KeyMsg KeyA =>
      if 0 <? facet m then
        Some (resetActiveFacet it
                (set_scrollOffset 0 (set_facet (int_sub (facet m) 1) m)))
      else Some m
  | KeyMsg KeyD =>
      let maxFacet := maxFacet (rangeAll it) in
      if (facet m =? 0) && (0 <? maxFacet) then
        Some (resetActiveFacet it (set_scrollOffset 0 (set_facet 1 m)))
      else if facet m <? maxFacet then
        Some (resetActiveFacet it
                (set_scrollOffset 0 (set_facet (int_add (facet m) 1) m)))
      else Some m
  | KeyMsg KeyLeft => Some (navigateGrid it (-1) 0 m)
  | KeyMsg KeyRight => Some (navigateGrid it 1 0 m)
  | KeyMsg KeyZero =>
      Some (resetActiveFacet it (set_scrollOffset 0 (set_facet 0 m)))
  | KeyMsg KeyK =>
      let offset := int_sub (scrollOffset m) 1 in
      Some (set_scrollOffset (if offset <? 0 then 0 else offset) m)
  | KeyMsg KeyJ => Some (set_scrollOffset (int_add (scrollOffset m) 1) m)
  | KeyMsg KeyUp => Some (navigateGrid it 0 (-1) m)
  | KeyMsg KeyDown => Some (navigateGrid it 0 1 m)
  | KeyMsg KeyEnter => togglePin it m
  | KeyMsg KeyOther => Some m
  end.

End Update.

(** ** Histogram buckets *)

(** The loop of [createVerticalHistogram] that fills [bins]: [None] when
    [bins[idx]] is out of range. *)
Fixpoint fillBins (indefinite : Z) (values : list float) (gmin binSize : float)
    (binCount : Z) (bins : list Z) : option (list Z) :=
  match values with
  | [] => Some bins
  | v :: rest =>
      let idx := float64_to_int indefinite ((v - gmin) / binSize)%float in
      let idx := if binCount <=? idx then int_sub binCount 1 else idx in
      if (idx <? 0) || (len bins <=? idx) then None
      else
        let count := default 0 (bins !! Z.to_nat idx) in
        fillBins indefinite rest gmin binSize binCount
          (<[Z.to_nat idx := int_add count 1]> bins)
  end.

(** What [createVerticalHistogram] draws: nothing, the bar of a degenerate
    range, or the bins. *)
Inductive histogram :=
  | NoData
  | SingleValue (gmin : float)
  | Bins (bins : list Z).

(** [createVerticalHistogram], up to the bins it draws ([None]: it panics). *)
Definition createVerticalHistogram (indefinite : Z) (values : list float)
    (gmin gmax : float) (binCount : Z) : option histogram :=
  if len values =? 0 then Some NoData
  else if (gmin =? gmax)%float then Some (SingleValue gmin)
  else
    let binSize := ((gmax - gmin) / float64_of_int binCount)%float in
    if binCount <? 0 then None
    else
      Bins <$> fillBins indefinite values gmin binSize binCount
                 (replicate (Z.to_nat binCount) 0).

(** The index of the bucket a sample is counted in. *)
Definition bucketIndex (indefinite : Z) (v gmin gmax : float) (binCount : Z) : Z :=
  let binSize := ((gmax - gmin) / float64_of_int binCount)%float in
  let idx := float64_to_int indefinite ((v - gmin) / binSize)%float in
  if binCount <=? idx then int_sub binCount 1 else idx.


(** ** Vocabulary of the properties *)

(** [a] comes before [b] in [l]. *)
Definition precedes {A} (a b : A) (l : list A) : Prop :=
  ∃ i j : nat, l !! i = Some a ∧ l !! j = Some b ∧ (i < j)%nat.

(** The prefix the insertion sort holds in reverse is sorted when every
    element is [less] than the ones before it in the list. *)
Definition descending {A} (less : A → A → bool) : list A → Prop :=
  StronglySorted (λ y x, less x y = true).

(** [x] is a number: not a NaN ([x == x] in Go). *)
Definition number (x : float) : Prop := PrimFloat.is_nan x = false.

Definition SFnumber (f : spec_float) : Prop := f ≠ S754_nan.

(** A triple of integers whose lexicographic order is the order of the
    floats that are numbers: the class (the infinities, the negative and the
    positive numbers, zero), then exponent and mantissa. *)
Definition SFkey (f : spec_float) : Z * Z * Z :=
  match f with
  | S754_zero _ => (0, 0, 0)
  | S754_infinity s => (if s then -2 else 2, 0, 0)
  | S754_nan => (0, 0, 0)
  | S754_finite s m e => if s then (-1, - e, Z.neg m) else (1, e, Z.pos m)
  end.

Definition float_key (x : float) : Z * Z * Z := SFkey (Prim2SF x).

Definition key_lt (k1 k2 : Z * Z * Z) : Prop :=
  k1.1.1 < k2.1.1 ∨
  (k1.1.1 = k2.1.1 ∧ (k1.1.2 < k2.1.2 ∨ (k1.1.2 = k2.1.2 ∧ k1.2 < k2.2))).

(** The mean [getSortedFacetKeys] computes for a key. *)
Definition meanOf (facetData : facetMap) (k : string) : float :=
  computeMean (samplesOf facetData k).

(** No key of the facet map has a NaN mean. *)
Definition numbers (facetData : facetMap) : Prop :=
  ∀ k samples, facetData !! k = Some samples → number (computeMean samples).

(** Every column a pin is bound to is a valid slice index base: not negative. *)
Definition pinColumnsValid (cols : gmap string Z) : Prop :=
  ∀ v c, cols !! v = Some c → 0 ≤ c.

(** The pin on [v] does not veto the record with fields [parts]: when the
    column it is bound to is within the record, the field there is [v]. *)
Definition pinMatches (parts : list string) (cols : gmap string Z) (v : string)
  : Prop :=
  let c := default 0 (cols !! v) in
  c < len parts → parts !! Z.to_nat c = Some v.

(** A run of [Update]: each message with the orders its [range] loops take. *)
Fixpoint runUpdates (TrimSpace : string → string)
    (ParseFloat : string → option float)
    (steps : list (iteration * msg)) (m : model) : option model :=
  match steps with
  | [] => Some m
  | (it, message) :: rest =>
      m ← Update TrimSpace ParseFloat it message m;
      runUpdates TrimSpace ParseFloat rest m
  end.

(** The side conditions of the properties are decidable: on concrete inputs
    they are settled by computation. *)
#[global] Instance rangeOf_dec {K} `{Countable K} {V} (order : list K)
  (m : gmap K V) : Decision (rangeOf order m) :=
  decide (order ≡ₚ keysOf m).

#[global] Instance number_dec (x : float) : Decision (number x) :=
  decide (PrimFloat.is_nan x = false).

#[global] Instance numbers_dec (facetData : facetMap) : Decision (numbers facetData) :=
  decide (map_Forall (λ _ samples, number (computeMean samples)) facetData).

#[global] Instance pinColumnsValid_dec (cols : gmap string Z)
  : Decision (pinColumnsValid cols) :=
  decide (map_Forall (λ _ c, 0 ≤ c) cols).

(** ** Concrete inputs

    The examples run the engine on concrete lines.  They need the two library
    functions on those lines only: [asciiTrimSpace] is [strings.TrimSpace] on
    ASCII text, [exampleParseFloat] is [strconv.ParseFloat] on the literals the
    examples use ([None] on every other string: the examples only pass it
    these and words that are no numbers). *)

Definition isSpace (c : ascii) : bool :=
  let n := N_of_ascii c in
  ((9 <=? n) && (n <=? 13) || (n =? 32))%N.

Fixpoint trimLeft (s : string) : string :=
  match s with
  | String c s' => if isSpace c then trimLeft s' else s
  | EmptyString => EmptyString
  end.

Fixpoint trimRight (s : string) : string :=
  match s with
  | EmptyString => EmptyString
  | String c s' =>
      match trimRight s' with
      | EmptyString => if isSpace c then EmptyString else String c EmptyString
      | t => String c t
      end
  end.

Definition asciiTrimSpace (s : string) : string := trimRight (trimLeft s).

#[local] Set Warnings "-inexact-float".

Definition exampleParseFloat (s : string) : option float :=
  if String.eqb s "1" then Some 1%float
  else if String.eqb s "2" then Some 2%float
  else if String.eqb s "3" then Some 3%float
  else if String.eqb s "10.5" then Some 10.5%float
  else if String.eqb s "15.2" then Some 15.2%float
  else if String.eqb s "8.7" then Some 8.7%float
  else if String.eqb s "12.1" then Some 12.1%float
  else if String.eqb s "NaN" then Some nan
  else if String.eqb s "Inf" then Some infinity
  else None.

(** The four records of the specification's end-to-end scenario. *)
Definition exampleLines : list string :=
  [ "10.5" +:+ String tab "red" +:+ String tab "seattle";
    "15.2" +:+ String tab "red" +:+ String tab "san jose";
    "8.7" +:+ String tab "blue" +:+ String tab "seattle";
    "12.1" +:+ String tab "blue" +:+ String tab "san jose" ].

(** The columns in ascending order, and the keys of each column of the
    scenario in the order they arrived. *)
Definition exampleIteration : iteration :=
  let keys facetCol :=
    if facetCol =? 1 then ["red"; "blue"] else ["seattle"; "san jose"] in
  Iteration [1; 2] keys [1; 2] keys.

(** The scenario after its four lines were read. *)
Definition exampleLoaded : option model :=
  drain asciiTrimSpace exampleParseFloat exampleLines (initialModel 0).

(** ... then column 1 shown ("d"), whose first ranked key "red" is active, *)
Definition exampleColumn1 : option model :=
  m ← exampleLoaded;
  Update asciiTrimSpace exampleParseFloat exampleIteration (KeyMsg KeyD) m.

(** ... then "red" pinned ("enter"). *)
Definition examplePinned : option model :=
  m ← exampleColumn1;
  Update asciiTrimSpace exampleParseFloat exampleIteration (KeyMsg KeyEnter) m.

Definition loadedModel : model := default (initialModel 0) exampleLoaded.
Definition column1Model : model := default (initialModel 0) exampleColumn1.
Definition pinnedModel : model := default (initialModel 0) examplePinned.

(** Three keys, one of them with a NaN mean; ["1 x"], ["NaN n"], ["2 y"] are
    lines that produce it. *)
Definition nanFacets : facetMap :=
  {[ "x" := [1%float]; "n" := [nan]; "y" := [2%float] ]}.

Definition nanLines : list string :=
  [ "1" +:+ String tab "x"; "NaN" +:+ String tab "n"; "2" +:+ String tab "y" ].

(** ... then "red" unpinned again ("enter"). *)
Definition exampleUnpinned : option model :=
  m ← examplePinned;
  Update asciiTrimSpace exampleParseFloat exampleIteration (KeyMsg KeyEnter) m.

Definition unpinnedModel : model := default (initialModel 0) exampleUnpinned.

(** Two records in which "y" is a value of column 1 and of column 2, read
    into the all-facets view, and "y" made the active facet ("down"). *)
Definition sharedLines : list string :=
  [ "1" +:+ String tab "x" +:+ String tab "y";
    "2" +:+ String tab "y" +:+ String tab "x" ].

(** The columns of [sharedLines] taken in ascending and in descending order. *)
Definition ascending : iteration :=
  Iteration [1; 2] (λ _, ["x"; "y"]) [1; 2] (λ _, ["x"; "y"]).
Definition descendingCols : iteration :=
  Iteration [2; 1] (λ _, ["x"; "y"]) [2; 1] (λ _, ["x"; "y"]).

Definition sharedModel : model :=
  default (initialModel 0)
    (runUpdates asciiTrimSpace exampleParseFloat
       [(ascending, tickMsg sharedLines); (ascending, KeyMsg KeyDown)]
       (initialModel 0)).

(** The sum of the counts of the bins. *)
Definition sumZ (bins : list Z) : Z := foldr Z.add 0 bins.

(** The index [createVerticalHistogram] computes for a sample before the
    clamp: the quotient converted to [int]. *)
Definition rawIndex (indefinite : Z) (v gmin gmax : float) (binCount : Z) : Z :=
  float64_to_int indefinite
    ((v - gmin) / ((gmax - gmin) / float64_of_int binCount))%float.

(** The bucketing loop of [renderMultiFacet], the other histogram of
    main.go: the same index, clamped at both ends. *)
Fixpoint fillBuckets (indefinite : Z) (values : list float)
    (gmin bucketSize : float) (bucketCount : Z) (buckets : list Z)
  : option (list Z) :=
  match values with
  | [] => Some buckets
  | v :: rest =>
      let idx := float64_to_int indefinite ((v - gmin) / bucketSize)%float in
      let idx := if bucketCount <=? idx then int_sub bucketCount 1
                 else if idx <? 0 then 0 else idx in
      if (idx <? 0) || (len buckets <=? idx) then None
      else
        let count := default 0 (buckets !! Z.to_nat idx) in
        fillBuckets indefinite rest gmin bucketSize bucketCount
          (<[Z.to_nat idx := int_add count 1]> buckets)
  end.

(** A run of moves: each with the orders its loops take. *)
Fixpoint navigateMoves (moves : list (iteration * (Z * Z))) (m : model) : model :=
  match moves with
  | [] => m
  | (it, (dx, dy)) :: rest => navigateMoves rest (navigateGrid it dx dy m)
  end.

(** [k] is a facet value of some column of the table. *)
Definition isKey (ds : facetTable) (k : string) : Prop :=
  ∃ facetCol facetData, ds !! facetCol = Some facetData ∧ is_Some (facetData !! k).

(** The ranked keys of the column shown in the single-facet view, and the
    address list of the all-facets view, as a call of [navigateGrid] with the
    orders [it] computes them. *)
Definition singleKeys (it : iteration) (m : model) : list string :=
  getSortedFacetKeys (rangeKeys it (facet m)) (columnOf (dataSource m) (facet m)).

Definition aggregateKeys (it : iteration) (m : model) : list string :=
  allKeys (dataSource m) (rangeKeysAll it) (rangeAll it).

(** The index of the active facet in a list of keys: -1 when it is not in
    the list. *)
Definition selected (keys : list string) (m : model) : Z :=
  findIndex keys (activeFacet m) 0.

(** What a move may change: the active facet, its position and the scroll
    offset. *)
Definition moved (m m' : model) : Prop :=
  m' = set_scrollOffset (scrollOffset m')
         (set_activeFacetPos (activeFacetPos m')
            (set_activeFacet (activeFacet m') m)).

(** The keys of every column are enumerated by the orders [keys] gives. *)
Definition keyRanges (ds : facetTable) (keys : Z → list string) : Prop :=
  ∀ facetCol facetData, ds !! facetCol = Some facetData →
    rangeOf (keys facetCol) facetData.

#[global] Instance iterates_dec (it : iteration) (ds : facetTable)
  : Decision (iterates it ds) :=
  decide (rangeOf (rangeCols it) ds ∧ rangeOf (rangeAll it) ds ∧
          map_Forall (λ facetCol facetData,
                        rangeOf (rangeKeys it facetCol) facetData ∧
                        rangeOf (rangeKeysAll it facetCol) facetData) ds).

(** The scenario with its columns taken in descending order. *)
Definition exampleIterationDescending : iteration :=
  Iteration [2; 1] (rangeKeys exampleIteration) [2; 1] (rangeKeys exampleIteration).

(** The loaded scenario with "blue" active (from "red", one move down). *)
Definition blueModel : model :=
  navigateMoves [(exampleIteration, (0, 1))] loadedModel.

(** Column 1 of the scenario shown, with "blue" active (from "red", one move
    right: the grid is one column wide, so the move wraps to the next row). *)
Definition blueColumn1Model : model :=
  navigateMoves [(exampleIteration, (1, 0))] column1Model.

(** The invariant of the reachable states: no pin is bound to a negative
    column, and the columns of the full table are numbered from 1. *)
Definition valid (m : model) : Prop :=
  pinColumnsValid (pinnedFacetsColumn m) ∧
  ∀ facetCol facetData, facetsData m !! facetCol = Some facetData → 1 ≤ facetCol.


(** ** Vocabulary of the data path *)

(** [targetData[index][facet]] after the loop of [processLineWithFilter] over
    the facets of one record: the field of column [facetCol] of the record,
    when it has one. *)
Definition fieldOf (facets : list string) (index facetCol : Z) : option string :=
  if (index <=? facetCol) then facets !! Z.to_nat (facetCol - index) else None.

(** Two tables hold the same facet maps: they differ at most in columns
    that are present in one and absent in the other, with no key. *)
Definition sameColumns (t1 t2 : facetTable) : Prop :=
  ∀ facetCol, columnOf t1 facetCol = columnOf t2 facetCol.

(** Every key of [t1] is a key of [t2] under the same column, with samples
    among which the samples of [t1] occur in the same order. *)
Definition within (t1 t2 : facetTable) : Prop :=
  ∀ facetCol k samples, columnOf t1 facetCol !! k = Some samples →
    ∃ samples', columnOf t2 facetCol !! k = Some samples' ∧
                sublist samples samples'.

(** The unfiltered pass of [processLineWithFilter] over a sequence of lines. *)
Fixpoint ingest (TrimSpace : string → string) (ParseFloat : string → option float)
    (lines : list string) (m : model) : option model :=
  match lines with
  | [] => Some m
  | line :: rest =>
      m ← processLineWithFilter TrimSpace ParseFloat line false m;
      ingest TrimSpace ParseFloat rest m
  end.

(** [m'] differs from [m] at most in what is shown: the column in view, the
    window, the scroll offset and the selection. *)
Definition display (m m' : model) : Prop :=
  m' = Model (facetsData m) (storedLines m) (totalLogCount m) (facet m')
         (winWidth m') (winHeight m') (scrollOffset m') (stringValues m)
         (activeFacet m') (activeFacetPos m') (facetPositions m) (gridColumns m)
         (pinnedFacets m) (pinnedFacetsColumn m) (filteredData m) (isFiltered m).

(** The same pins, bound to the same columns. *)
Definition samePins (m1 m2 : model) : Prop :=
  pinnedFacets m1 = pinnedFacets m2 ∧ pinnedFacetsColumn m1 = pinnedFacetsColumn m2.

(** [make(map[int]map[string][]float64)] with an empty facet map under every
    column of [cols]: the table [regenerateFilteredData] starts from. *)
Definition emptyColumns (cols : list Z) : facetTable :=
  foldr (λ facetCol fd, <[facetCol := ∅]> fd) ∅ cols.

(** What the tables of a state owe to the lines read so far: the full
    table, the string counts and the record counter are those of the unfiltered
    pass over the stored lines from the start; the filtered table lies within
    the full one; the filter flag is on exactly when a pin is set; and then
    the filtered table holds what [regenerateFilteredData] would build. *)
Definition consistent (TrimSpace : string → string)
    (ParseFloat : string → option float) (f : Z) (m : model) : Prop :=
  (∃ m0, ingest TrimSpace ParseFloat (storedLines m) (initialModel f) = Some m0 ∧
         facetsData m = facetsData m0 ∧ stringValues m = stringValues m0 ∧
         totalLogCount m = totalLogCount m0) ∧
  within (filteredData m) (facetsData m) ∧
  (isFiltered m = true ↔ pinnedFacets m ≠ ∅) ∧
  (isFiltered m = true →
   ∃ r, regenerateFilteredData TrimSpace ParseFloat m = Some r ∧
        sameColumns (filteredData m) (filteredData r)).


(** The stored lines that are not blank: the records [processLineWithFilter]
    counts. *)
Definition records (TrimSpace : string → string) (lines : list string)
  : list string :=
  filter (λ line, TrimSpace line ≠ EmptyString) lines.

(** [m'] holds what [m] holds and more: the stored lines and the samples of
    every key of the full table are extended at the end, and no string of the
    string counts is lost. *)
Definition extends (m m' : model) : Prop :=
  storedLines m `prefix_of` storedLines m' ∧
  (∀ facetCol k samples, columnOf (facetsData m) facetCol !! k = Some samples →
     ∃ samples', columnOf (facetsData m') facetCol !! k = Some samples' ∧
                 samples `prefix_of` samples') ∧
  (∀ s, is_Some (stringValues m !! s) → is_Some (stringValues m' !! s)).


(** ** The global range *)

(** [allValues] of [globalRange]: the samples of every key of every column,
    appended in the order the two [range] loops visit columns and keys. *)
Definition allValues (ds : facetTable) (keys : Z → list string) (cols : list Z)
  : list float :=
  flat_map (λ facetCol,
              flat_map (λ k, samplesOf (columnOf ds facetCol) k) (keys facetCol))
    cols.

(** [for _, v := range allValues { if v < gmin { gmin = v }; if v > gmax
    { gmax = v } }] *)
Definition scanRange (values : list float) (gmin gmax : float) : float * float :=
  fold_left (λ range v,
               (if (v <? range.1)%float then v else range.1,
                if (range.2 <? v)%float then v else range.2))
    values (gmin, gmax).

(** [globalRange]: [(gmin, gmax, ok)]; the loops over the data source take
    the orders [rangeAll] and [rangeKeysAll] of [it]. *)
Definition globalRange (it : iteration) (m : model) : float * float * bool :=
  match allValues (dataSource m) (rangeKeysAll it) (rangeAll it) with
  | [] => (0%float, 0%float, false)
  | first :: rest => (scanRange (first :: rest) first first, true)
  end.

(** [v] is a sample of some key of the table. *)
Definition isSample (ds : facetTable) (v : float) : Prop :=
  ∃ facetCol facetData k samples,
    ds !! facetCol = Some facetData ∧ facetData !! k = Some samples ∧ v ∈ samples.

(** No sample of the table is a NaN. *)
Definition allNumbers (ds : facetTable) : Prop :=
  map_Forall (λ _ facetData,
                map_Forall (λ _ samples, Forall number samples) facetData) ds.

#[global] Instance allNumbers_dec (ds : facetTable) : Decision (allNumbers ds).
Proof. unfold allNumbers. apply _. Defined.

(** The pinned scenario after "red" was unpinned and one more record of
    "red" was read. *)
Definition appendedModel : model :=
  default (initialModel 0)
    (runUpdates asciiTrimSpace exampleParseFloat
       [(exampleIteration, KeyMsg KeyEnter);
        (exampleIteration, tickMsg ["3" +:+ String tab "red"])] pinnedModel).


(** ** Text wrapping *)

Definition newline : ascii := "010"%char.
Definition space : ascii := " "%char.

(** [len(s)] of a string: its number of bytes. *)
Definition slen (s : string) : Z := Z.of_nat (String.length s).

(** [s[:n]] and [s[n:]], for [n] within the string. *)
Fixpoint sliceTo (n : nat) (s : string) : string :=
  match n, s with
  | S n, String c s => String c (sliceTo n s)
  | _, _ => EmptyString
  end.

Fixpoint sliceFrom (n : nat) (s : string) : string :=
  match n, s with
  | S n, String _ s => sliceFrom n s
  | _, _ => s
  end.

(** The [strings.Builder] of [wrapText] and its line counter. *)
Record builder := Builder { wrapped : string; lineCount : Z }.

(** [wrapped.WriteString(s + "\n"); lineCount++; if maxHeight > 0 &&
    lineCount >= maxHeight { return wrapped.String() + "..." }]: the string
    returned, or the builder the function goes on with. *)
Definition writeLine (s : string) (maxHeight : Z) (b : builder)
  : string + builder :=
  let wrapped := wrapped b +:+ s +:+ String newline EmptyString in
  let lineCount := int_add (lineCount b) 1 in
  if (0 <? maxHeight) && (maxHeight <=? lineCount) then inl (wrapped +:+ "...")
  else inr (Builder wrapped lineCount).

(** The loop that breaks a word longer than [width]: the string returned,
    or the builder and the line (the rest of the word) it leaves.  Every turn
    shortens the word by [width] bytes; [fuel] bounds the number of turns
    ([None]: the bound was too small). *)
Fixpoint breakWord (fuel : nat) (word : string) (width maxHeight : Z)
    (b : builder) (line : string) : option (string + builder * string) :=
  if 0 <? slen word then
    if slen word <=? width then Some (inr (b, word))
    else
      match fuel with
      | O => None
      | S fuel =>
          match writeLine (sliceTo (Z.to_nat width) word) maxHeight b with
          | inl output => Some (inl output)
          | inr b =>
              breakWord fuel (sliceFrom (Z.to_nat width) word) width maxHeight
                b line
          end
      end
  else Some (inr (b, line)).

(** The loop of [wrapText] over the words. *)
Fixpoint wrapWords (words : list string) (width maxHeight : Z) (b : builder)
    (line : string) : option string :=
  match words with
  | [] => Some (if String.eqb line EmptyString then wrapped b
                else wrapped b +:+ line)
  | word :: rest =>
      if int_add (int_add (slen line) (slen word)) 1 <=? width then
        let line := if String.eqb line EmptyString then line
                    else line +:+ " " in
        wrapWords rest width maxHeight b (line +:+ word)
      else
        match (if String.eqb line EmptyString then inr b
               else writeLine line maxHeight b) with
        | inl output => Some output
        | inr b =>
            if width <? slen word then
              match breakWord (String.length word) word width maxHeight b line with
              | None => None
              | Some (inl output) => Some output
              | Some (inr (b, line)) => wrapWords rest width maxHeight b line
              end
            else wrapWords rest width maxHeight b word
        end
  end.

(** [wrapText]; [Fields] is [strings.Fields], a Go library function. *)
Definition wrapText (Fields : string → list string) (text : string)
    (width maxHeight : Z) : option string :=
  if (width <=? 0) || (slen text <=? width) then Some text
  else wrapWords (Fields text) width maxHeight (Builder EmptyString 0) EmptyString.

(** No byte of [s] is a newline. *)
Fixpoint noNewline (s : string) : bool :=
  match s with
  | EmptyString => true
  | String c s => negb (Ascii.eqb c newline) && noNewline s
  end.

(** No byte of [s] is a newline or a space: what [strings.Fields] returns. *)
Fixpoint isWord (s : string) : bool :=
  match s with
  | EmptyString => true
  | String c s => negb (Ascii.eqb c newline) && negb (Ascii.eqb c space) && isWord s
  end.

(** [s] without its newlines and spaces. *)
Fixpoint strip (s : string) : string :=
  match s with
  | EmptyString => EmptyString
  | String c s =>
      if Ascii.eqb c newline || Ascii.eqb c space then strip s
      else String c (strip s)
  end.

(** The words written one after the other. *)
Fixpoint joined (words : list string) : string :=
  match words with
  | [] => EmptyString
  | word :: rest => word +:+ joined rest
  end.

(** [strings.Fields] on ASCII text: the maximal runs of bytes that are not
    white space. *)
Fixpoint fieldsFrom (cur : string) (s : string) : list string :=
  match s with
  | EmptyString => if String.eqb cur EmptyString then [] else [cur]
  | String c s =>
      if isSpace c then
        if String.eqb cur EmptyString then fieldsFrom EmptyString s
        else cur :: fieldsFrom EmptyString s
      else fieldsFrom (cur +:+ String c EmptyString) s
  end.

Definition asciiFields (s : string) : list string := fieldsFrom EmptyString s.

(** Every line is at most [width] bytes long. *)
Definition fits (width : Z) (lines : list string) : Prop :=
  Forall (λ line, slen line ≤ width) lines.

(** The builder holds [lines], each closed by a newline, and has counted
    them. *)
Definition holds (width maxHeight : Z) (b : builder) (lines : list string) : Prop :=
  Split (wrapped b) newline = lines ++ [EmptyString] ∧ fits width lines ∧
  (0 < maxHeight → lineCount b = len lines ∧ len lines < maxHeight).

(** [output] is the text [content] wrapped: lines that fit, holding the
    bytes of [content] in their order; or, cut at [maxHeight] lines, the lines
    that fit followed by the line "...", holding the bytes of a prefix of
    [content]. *)
Definition wrappedAs (width maxHeight : Z) (content output : string) : Prop :=
  (fits width (Split output newline) ∧ strip output = content ∧
   (0 < maxHeight → len (Split output newline) ≤ maxHeight)) ∨
  (∃ lines body rest,
     0 < maxHeight ∧ output = body +:+ "..." ∧
     Split output newline = lines ++ ["..."] ∧ fits width lines ∧
     len lines = maxHeight ∧ content = strip body +:+ rest).


(** ** The window of [View] *)

(** [min(a, b)] of main.go. *)
Definition min (a b : Z) : Z := if a <? b then a else b.

(** The scrolling of [View]: the lines of the content it shows in a window
    [winHeight] lines high, of which the header takes [staticHeight], at the
    scroll offset [scrollOffset]; [None] when the slice expression
    [contentLines[low:high]] panics ([high] is at most the length of the
    slice, which is at most its capacity). *)
Definition visibleLines (contentLines : list string)
    (winHeight staticHeight scrollOffset : Z) : option (list string) :=
  let availableHeight := int_sub winHeight staticHeight in
  let availableHeight := if availableHeight <? 1 then 1 else availableHeight in
  let maxScroll := int_sub (len contentLines) availableHeight in
  let maxScroll := if maxScroll <? 0 then 0 else maxScroll in
  let scrollOffset := if maxScroll <? scrollOffset then maxScroll else scrollOffset in
  let high := min (int_add scrollOffset availableHeight) (len contentLines) in
  if (0 <=? scrollOffset) && (scrollOffset <=? high) then
    Some (take (Z.to_nat (high - scrollOffset))
            (drop (Z.to_nat scrollOffset) contentLines))
  else None.


(** ** The string histogram *)

(** The [less] closure of [renderStringHistogram], on the [stringCount]
    entries themselves: the greater count first, of equal counts the smaller
    value. *)
Definition countLess (a b : string * Z) : bool :=
  if negb (a.2 =? b.2) then b.2 <? a.2 else String.ltb a.1 b.1.

(** [barLength := int(float64(item.count) / float64(maxCount) *
    float64(barWidth)); if barLength < 3 { barLength = 3 }] *)
Definition barLength (indefinite : Z) (count maxCount barWidth : Z) : Z :=
  let barLength :=
    float64_to_int indefinite
      (float64_of_int count / float64_of_int maxCount * float64_of_int barWidth)%float in
  if barLength <? 3 then 3 else barLength.

(** [renderStringHistogram], up to the formatting of its lines: for every
    line the value, the count and the length of the bar; [None] stands for
    "No string values found.".  [order] is the order in which the [range]
    over [m.stringValues] appended the entries. *)
Definition renderStringHistogram (indefinite : Z) (order : list (string * Z))
    (m : model) : option (list (string * Z * Z)) :=
  if Z.of_nat (size (stringValues m)) =? 0 then None
  else
    let counts := sort_Slice countLess order in
    let maxCount := (default (EmptyString, 0) (counts !! 0%nat)).2 in
    let barWidth := Z.quot (winWidth m) 2 in
    Some ((λ item, (item, barLength indefinite item.2 maxCount barWidth)) <$> counts).

(** The order of the lines of the string histogram. *)
Definition countBefore (a b : string * Z) : Prop :=
  b.2 < a.2 ∨ (a.2 = b.2 ∧ String.ltb a.1 b.1 = true).

(** Three lines whose first field is no number. *)
Definition stringsModel : model :=
  default (initialModel 0)
    (drain asciiTrimSpace exampleParseFloat ["err"; "warn"; "err"] (initialModel 0)).


(** * Properties *)

(** ** [sort.Slice] *)

Section SortSlice.

Context {A : Type} (less : A → A → bool).

Lemma insertLeft_perm (x : A) (rp : list A) : insertLeft less x rp ≡ₚ x :: rp.
Proof.
  induction rp as [|y rp IH]; simpl; [done|].
  destruct (less x y); [|done].
  rewrite IH. apply perm_swap.
Qed.

Lemma sort_prefix_perm (l acc : list A) :
  fold_left (λ rp a, insertLeft less a rp) l acc ≡ₚ l ++ acc.
Proof.
  revert acc. induction l as [|a l IH]; intros acc; simpl; [done|].
  rewrite IH, insertLeft_perm. by rewrite Permutation_middle.
Qed.

(** The result of the sort is a rearrangement of the slice. *)
Lemma sort_Slice_perm (l : list A) : sort_Slice less l ≡ₚ l.
Proof.
  unfold sort_Slice. rewrite reverse_Permutation, sort_prefix_perm.
  by rewrite app_nil_r.
Qed.

(** [less] is a strict total order on the elements that satisfy [D]. *)
Variable D : A → Prop.
Hypothesis less_irrefl : ∀ a, D a → less a a = false.
Hypothesis less_trans :
  ∀ a b c, D a → D b → D c → less a b = true → less b c = true → less a c = true.
Hypothesis less_total :
  ∀ a b, D a → D b → a ≠ b → less a b = true ∨ less b a = true.

Lemma less_asym (a b : A) : D a → D b → less a b = true → less b a = false.
Proof.
  intros Ha Hb Hab. destruct (less b a) eqn:Hba; [|done].
  rewrite <- (less_irrefl a Ha). symmetry. by apply (less_trans a b a).
Qed.

Lemma insertLeft_descending (x : A) (rp : list A) :
  Forall D (x :: rp) → NoDup (x :: rp) → descending less rp →
  descending less (insertLeft less x rp).
Proof.
  unfold descending.
  induction rp as [|y rp IH]; simpl; intros HD Hnd Hs.
  { repeat constructor. }
  apply Forall_cons in HD as [Hx HD]. apply Forall_cons in HD as [Hy HD].
  apply NoDup_cons in Hnd as [Hx_notin Hnd].
  apply NoDup_cons in Hnd as [Hy_notin Hnd].
  apply StronglySorted_inv in Hs as [Hs Hall].
  destruct (less x y) eqn:Hxy.
  - constructor.
    + apply IH; [by constructor| |done].
      constructor; [set_solver|done].
    + rewrite insertLeft_perm. by constructor.
  - assert (less y x = true) as Hyx.
    { destruct (less_total x y Hx Hy) as [?|?]; [set_solver|congruence|done]. }
    constructor; [by constructor|].
    constructor; [done|].
    rewrite Forall_forall in Hall, HD. apply Forall_forall.
    intros z Hz. apply (less_trans z y x); auto.
Qed.

Lemma sort_prefix_descending (l acc : list A) :
  Forall D (l ++ acc) → NoDup (l ++ acc) → descending less acc →
  descending less (fold_left (λ rp a, insertLeft less a rp) l acc).
Proof.
  revert acc. induction l as [|a l IH]; intros acc HD Hnd Hs; simpl; [done|].
  simpl in HD, Hnd.
  apply IH.
  - rewrite insertLeft_perm. by rewrite <- Permutation_middle.
  - rewrite insertLeft_perm. by rewrite <- Permutation_middle.
  - apply insertLeft_descending; [| |done].
    + apply Forall_cons in HD as [Ha HD]. apply Forall_app in HD as [_ HD].
      by constructor.
    + apply NoDup_cons in Hnd as [Ha Hnd]. apply NoDup_app in Hnd as (_ & _ & Hnd).
      constructor; [set_solver|done].
Qed.

Lemma descending_reverse (l : list A) :
  descending less l → StronglySorted (λ a b, less a b = true) (reverse l).
Proof.
  unfold descending. induction 1 as [|y l Hs IH Hall]; [constructor|].
  rewrite reverse_cons.
  apply StronglySorted_app_2; [|done|repeat constructor].
  intros a b Ha Hb. apply list_elem_of_singleton in Hb as ->.
  rewrite Forall_forall in Hall. apply Hall.
  by rewrite elem_of_reverse in Ha.
Qed.

(** On distinct elements of [D] the sort puts every element before the
    ones it is not [less] than. *)
Lemma sort_Slice_sorted (l : list A) :
  Forall D l → NoDup l →
  StronglySorted (λ a b, less a b = true) (sort_Slice less l).
Proof.
  intros HD Hnd. apply descending_reverse, sort_prefix_descending.
  - by rewrite app_nil_r.
  - by rewrite app_nil_r.
  - constructor.
Qed.

(** A slice has one sorted rearrangement: the result does not depend on
    the order of the elements before the sort. *)
Lemma sort_Slice_unique (l1 l2 : list A) :
  Forall D l1 → NoDup l1 → l1 ≡ₚ l2 → sort_Slice less l1 = sort_Slice less l2.
Proof.
  intros HD Hnd Hp.
  assert (Forall D l2) as HD2 by by rewrite <- Hp.
  assert (NoDup l2) as Hnd2 by by rewrite <- Hp.
  apply (StronglySorted_unique_strong (λ a b, less a b = true)).
  - intros a b Ha Hb Hab Hba.
    rewrite sort_Slice_perm in Ha, Hb.
    rewrite Forall_forall in HD, HD2.
    rewrite (less_asym a b) in Hba; auto. done.
  - by apply sort_Slice_sorted.
  - by apply sort_Slice_sorted.
  - by rewrite !sort_Slice_perm.
Qed.

(** Whatever algorithm [sort.Slice] runs, on such a slice it can return
    only this sequence: a sorted rearrangement of the slice is the result
    of the insertion sort. *)
Lemma sort_Slice_any (l sorted : list A) :
  Forall D l → NoDup l → sorted ≡ₚ l →
  StronglySorted (λ a b, less a b = true) sorted →
  sorted = sort_Slice less l.
Proof.
  intros HD Hnd Hp Hs.
  apply (StronglySorted_unique_strong (λ a b, less a b = true)).
  - intros a b Ha Hb Hab Hba.
    rewrite Hp in Ha. rewrite sort_Slice_perm in Hb.
    rewrite Forall_forall in HD.
    rewrite (less_asym a b) in Hba; auto. done.
  - done.
  - by apply sort_Slice_sorted.
  - by rewrite sort_Slice_perm.
Qed.

End SortSlice.

Lemma precedes_cons {A} (a b x : A) (l : list A) :
  precedes a b (x :: l) ↔ (a = x ∧ b ∈ l) ∨ precedes a b l.
Proof.
  split.
  - intros (i & j & Hi & Hj & Hlt). destruct j as [|j]; [lia|]. simpl in Hj.
    destruct i as [|i]; simpl in Hi.
    + left. split; [congruence|]. apply list_elem_of_lookup. eauto.
    + right. exists i, j. split_and!; [done..|lia].
  - intros [[-> Hb]|(i & j & Hi & Hj & Hlt)].
    + apply list_elem_of_lookup in Hb as [j Hj]. exists 0%nat, (S j).
      split_and!; [done..|lia].
    + exists (S i), (S j). split_and!; [done..|lia].
Qed.

Lemma precedes_elem_of {A} (a b : A) (l : list A) :
  a ∈ l → b ∈ l → a ≠ b → precedes a b l ∨ precedes b a l.
Proof.
  intros Ha Hb Hne.
  apply list_elem_of_lookup in Ha as [i Hi]. apply list_elem_of_lookup in Hb as [j Hj].
  destruct (decide (i < j)%nat); [left; by exists i, j|right].
  exists j, i. split_and!; [done..|].
  destruct (decide (i = j)) as [->|]; [congruence|lia].
Qed.

Lemma sorted_precedes {A} (R : A → A → Prop) (l : list A) (a b : A) :
  StronglySorted R l → precedes a b l → R a b.
Proof.
  induction 1 as [|x l Hs IH Hall]; intros Hp.
  - destruct Hp as (i & j & Hi & _). by rewrite lookup_nil in Hi.
  - apply precedes_cons in Hp as [[-> Hb]|Hp]; [|by apply IH].
    rewrite Forall_forall in Hall. by apply Hall.
Qed.


(** ** The order of Go strings *)

Lemma string_compare_refl (s : string) : String.compare s s = Eq.
Proof.
  induction s as [|c s IH]; simpl; [done|].
  unfold Ascii.compare. by rewrite N.compare_refl.
Qed.

Lemma string_ltb_irrefl (s : string) : String.ltb s s = false.
Proof. unfold String.ltb. by rewrite string_compare_refl. Qed.

Lemma string_ltb_trans (s1 s2 s3 : string) :
  String.ltb s1 s2 = true → String.ltb s2 s3 = true → String.ltb s1 s3 = true.
Proof.
  unfold String.ltb. revert s2 s3.
  induction s1 as [|c1 s1 IH]; intros [|c2 s2] [|c3 s3]; simpl; try done.
  unfold Ascii.compare.
  destruct (N.compare_spec (N_of_ascii c1) (N_of_ascii c2)) as [E12|L12|G12];
    destruct (N.compare_spec (N_of_ascii c2) (N_of_ascii c3)) as [E23|L23|G23];
    try done; intros H12 H23.
  - rewrite E12, E23, N.compare_refl. by apply (IH s2).
  - rewrite E12. by apply N.compare_lt_iff in L23 as ->.
  - rewrite <- E23. by apply N.compare_lt_iff in L12 as ->.
  - assert (N_of_ascii c1 < N_of_ascii c3)%N as L13 by lia.
    by apply N.compare_lt_iff in L13 as ->.
Qed.

Lemma string_ltb_total (s1 s2 : string) :
  s1 ≠ s2 → String.ltb s1 s2 = true ∨ String.ltb s2 s1 = true.
Proof.
  intros Hne. unfold String.ltb. rewrite (String.compare_antisym s2 s1).
  destruct (String.compare s1 s2) eqn:E; simpl; [|by left|by right].
  by apply String.compare_eq_iff in E.
Qed.

(** ** The order of [float64] values that are not NaN *)

Lemma SFcompare_lt (f g : spec_float) :
  SFnumber f → SFnumber g → SFltb f g = true ↔ key_lt (SFkey f) (SFkey g).
Proof.
  unfold SFnumber, SFltb, key_lt.
  destruct f as [s1|s1| |s1 m1 e1], g as [s2|s2| |s2 m2 e2]; try done; intros _ _;
    repeat match goal with s : bool |- _ => destruct s end; simpl;
    try (split; [done|lia]); try (split; [lia|done]).
  - destruct (Z.compare_spec e1 e2); [subst|..].
    + rewrite Pos.compare_cont_spec. simpl.
      destruct (Pos.compare_spec m1 m2); simpl; split; (done || lia).
    + split; (done || lia).
    + split; (done || lia).
  - destruct (Z.compare_spec e1 e2); [subst|..].
    + rewrite Pos.compare_cont_spec. simpl.
      destruct (Pos.compare_spec m1 m2); simpl; split; (done || lia).
    + split; (done || lia).
    + split; (done || lia).
Qed.

Lemma SFcompare_eq (f g : spec_float) :
  SFnumber f → SFnumber g → SFeqb f g = true ↔ SFkey f = SFkey g.
Proof.
  unfold SFnumber, SFeqb.
  destruct f as [s1|s1| |s1 m1 e1], g as [s2|s2| |s2 m2 e2]; try done; intros _ _;
    repeat match goal with s : bool |- _ => destruct s end; simpl;
    try (split; (done || congruence)).
  - destruct (Z.compare_spec e1 e2); [subst|..].
    + rewrite Pos.compare_cont_spec. simpl.
      destruct (Pos.compare_spec m1 m2); simpl; split; try done;
        intros [= ]; try lia. by subst.
    + split; [done|intros [= ]; lia].
    + split; [done|intros [= ]; lia].
  - destruct (Z.compare_spec e1 e2); [subst|..].
    + rewrite Pos.compare_cont_spec. simpl.
      destruct (Pos.compare_spec m1 m2); simpl; split; try done;
        intros [= ]; try lia. by subst.
    + split; [done|intros [= ]; lia].
    + split; [done|intros [= ]; lia].
Qed.

Lemma number_SFnumber (x : float) : number x → SFnumber (Prim2SF x).
Proof.
  unfold number, PrimFloat.is_nan, SFnumber. rewrite FloatAxioms.eqb_spec. intros H E.
  rewrite E in H. done.
Qed.

Lemma float_ltb_key (x y : float) :
  number x → number y → (x <? y)%float = true ↔ key_lt (float_key x) (float_key y).
Proof.
  intros Hx Hy. rewrite FloatAxioms.ltb_spec.
  by apply SFcompare_lt; apply number_SFnumber.
Qed.

Lemma float_eqb_key (x y : float) :
  number x → number y → (x =? y)%float = true ↔ float_key x = float_key y.
Proof.
  intros Hx Hy. rewrite FloatAxioms.eqb_spec.
  by apply SFcompare_eq; apply number_SFnumber.
Qed.


(** ** Ranking: [getSortedFacetKeys] *)

Lemma rangeOf_elem_of {K} `{Countable K} {V} (order : list K) (m : gmap K V) (k : K) :
  rangeOf order m → k ∈ order ↔ is_Some (m !! k).
Proof.
  unfold rangeOf, keysOf. intros ->. rewrite list_elem_of_fmap. split.
  - intros [[k' v] [-> Hin]]. apply elem_of_map_to_list in Hin. by exists v.
  - intros [v Hv]. exists (k, v). split; [done|]. by apply elem_of_map_to_list.
Qed.

Lemma rangeOf_NoDup {K} `{Countable K} {V} (order : list K) (m : gmap K V) :
  rangeOf order m → NoDup order.
Proof. unfold rangeOf, keysOf. intros ->. apply NoDup_fst_map_to_list. Qed.

Lemma rangeOf_keysOf {K} `{Countable K} {V} (m : gmap K V) : rangeOf (keysOf m) m.
Proof. by unfold rangeOf. Qed.

Section Ranking.

Variable facetData : facetMap.

Lemma facetLess_key (a b : string) :
  number (meanOf facetData a) → number (meanOf facetData b) →
  facetLess facetData a b = true ↔
    key_lt (float_key (meanOf facetData b)) (float_key (meanOf facetData a)) ∨
    (float_key (meanOf facetData a) = float_key (meanOf facetData b) ∧ String.ltb a b = true).
Proof.
  intros Ha Hb. unfold facetLess. fold (meanOf facetData a) (meanOf facetData b).
  pose proof (float_eqb_key _ _ Ha Hb) as Heq.
  pose proof (float_ltb_key _ _ Hb Ha) as Hlt.
  destruct (meanOf facetData a =? meanOf facetData b)%float; simpl.
  - split; [intros; right; split; [by apply Heq|done]|].
    intros [Hk|[_ ?]]; [|done].
    assert (float_key (meanOf facetData a) = float_key (meanOf facetData b)) as E by by apply Heq.
    rewrite E in Hk. unfold key_lt in Hk. lia.
  - rewrite Hlt. split; [by left|]. intros [?|[E _]]; [done|].
    apply Heq in E. done.
Qed.

Lemma facetLess_irrefl (a : string) :
  number (meanOf facetData a) → facetLess facetData a a = false.
Proof.
  intros Ha. apply not_true_is_false. rewrite facetLess_key by done.
  rewrite string_ltb_irrefl. unfold key_lt. intros [?|[_ ?]]; [lia|done].
Qed.

Lemma facetLess_trans (a b c : string) :
  number (meanOf facetData a) → number (meanOf facetData b) → number (meanOf facetData c) →
  facetLess facetData a b = true → facetLess facetData b c = true →
  facetLess facetData a c = true.
Proof.
  intros Ha Hb Hc. rewrite !facetLess_key by done.
  destruct (float_key (meanOf facetData a)) as [[a1 a2] a3].
  destruct (float_key (meanOf facetData b)) as [[b1 b2] b3].
  destruct (float_key (meanOf facetData c)) as [[c1 c2] c3].
  unfold key_lt; simpl.
  intros [Hab|[Eab Lab]] [Hbc|[Ebc Lbc]].
  - left. lia.
  - left. injection Ebc as <- <- <-. lia.
  - left. injection Eab as -> -> ->. lia.
  - right. split; [congruence|]. by apply (string_ltb_trans a b c).
Qed.

Lemma facetLess_total (a b : string) :
  number (meanOf facetData a) → number (meanOf facetData b) → a ≠ b →
  facetLess facetData a b = true ∨ facetLess facetData b a = true.
Proof.
  intros Ha Hb Hne. rewrite !facetLess_key by done.
  destruct (float_key (meanOf facetData a)) as [[a1 a2] a3].
  destruct (float_key (meanOf facetData b)) as [[b1 b2] b3].
  unfold key_lt; simpl.
  destruct (decide ((a1, a2, a3) = (b1, b2, b3))) as [E|N].
  - destruct (string_ltb_total a b Hne); [left|right]; right; done.
  - assert (a1 ≠ b1 ∨ a2 ≠ b2 ∨ a3 ≠ b3) as Hd.
    { destruct (decide (a1 = b1)); [|by left].
      destruct (decide (a2 = b2)); [|by right; left].
      destruct (decide (a3 = b3)); [|by right; right]. congruence. }
    lia.
Qed.

Lemma numbers_meanOf (order : list string) :
  rangeOf order facetData → numbers facetData → Forall (λ k, number (meanOf facetData k)) order.
Proof.
  intros Hr Hn. apply Forall_forall. intros k Hk.
  apply (rangeOf_elem_of _ _ _ Hr) in Hk as [samples Hs].
  unfold meanOf, samplesOf. rewrite Hs. simpl. by apply (Hn k).
Qed.

(** The ranked keys are the keys of the map, each once. *)
Lemma getSortedFacetKeys_perm (order : list string) :
  getSortedFacetKeys order facetData ≡ₚ order.
Proof. apply sort_Slice_perm. Qed.

Lemma getSortedFacetKeys_sorted (order : list string) :
  rangeOf order facetData → numbers facetData →
  StronglySorted (λ a b, facetLess facetData a b = true)
    (getSortedFacetKeys order facetData).
Proof.
  intros Hr Hn.
  apply (sort_Slice_sorted _ (λ k, number (meanOf facetData k)));
    eauto using facetLess_irrefl, facetLess_trans, facetLess_total,
      numbers_meanOf, rangeOf_NoDup.
Qed.

Lemma getSortedFacetKeys_range_irrelevant (order order' : list string) :
  rangeOf order facetData → rangeOf order' facetData → numbers facetData →
  getSortedFacetKeys order facetData = getSortedFacetKeys order' facetData.
Proof.
  intros Hr Hr' Hn.
  apply (sort_Slice_unique _ (λ k, number (meanOf facetData k)));
    eauto using facetLess_irrefl, facetLess_trans, facetLess_total,
      numbers_meanOf, rangeOf_NoDup.
  unfold rangeOf in *. by rewrite Hr, Hr'.
Qed.

(** Any sorted rearrangement of the keys is the ranked sequence. *)
Lemma getSortedFacetKeys_any (order sorted : list string) :
  rangeOf order facetData → numbers facetData → sorted ≡ₚ order →
  StronglySorted (λ a b, facetLess facetData a b = true) sorted →
  sorted = getSortedFacetKeys order facetData.
Proof.
  intros Hr Hn Hp Hs.
  apply (sort_Slice_any _ (λ k, number (meanOf facetData k)));
    eauto using facetLess_irrefl, facetLess_trans, facetLess_total,
      numbers_meanOf, rangeOf_NoDup.
Qed.

End Ranking.

(** C2, as the code has it: when no key of the facet map has a NaN mean, the
    ranked keys are the keys of the map, each once; a key with a strictly
    greater mean comes before one with a smaller mean; of two keys with equal
    means the lexicographically smaller comes first; no other pair is so
    ordered; and the sequence is the same for every order in which the map is
    iterated, so repeated calls on the same data return the same sequence. *)
Theorem ranking_total_order (facetData : facetMap) (order : list string) :
  rangeOf order facetData →
  numbers facetData →
  let ranked := getSortedFacetKeys order facetData in
  ranked ≡ₚ keysOf facetData ∧
  (∀ a b, a ∈ ranked → b ∈ ranked →
     (meanOf facetData b <? meanOf facetData a)%float = true →
     precedes a b ranked) ∧
  (∀ a b, a ∈ ranked → b ∈ ranked →
     (meanOf facetData a =? meanOf facetData b)%float = true →
     String.ltb a b = true → precedes a b ranked) ∧
  (∀ a b, precedes a b ranked →
     (meanOf facetData b <? meanOf facetData a)%float = true ∨
     ((meanOf facetData a =? meanOf facetData b)%float = true ∧
      String.ltb a b = true)) ∧
  (∀ order', rangeOf order' facetData →
     getSortedFacetKeys order' facetData = ranked).
Proof.
  intros Hr Hn ranked.
  pose proof (getSortedFacetKeys_sorted facetData order Hr Hn) as Hs.
  fold ranked in Hs.
  assert (ranked ≡ₚ order) as Hp by apply getSortedFacetKeys_perm.
  assert (∀ k, k ∈ ranked → number (meanOf facetData k)) as Hnum.
  { intros k Hk. rewrite Hp in Hk.
    pose proof (numbers_meanOf facetData order Hr Hn) as HF.
    rewrite Forall_forall in HF. by apply HF. }
  assert (∀ a b, a ∈ ranked → b ∈ ranked →
            facetLess facetData a b = true → precedes a b ranked) as Hless.
  { intros a b Ha Hb Hab.
    assert (a ≠ b) as Hne.
    { intros ->. rewrite facetLess_irrefl in Hab by auto. done. }
    destruct (precedes_elem_of a b ranked Ha Hb Hne) as [?|Hba]; [done|].
    apply (sorted_precedes _ _ _ _ Hs) in Hba.
    assert (facetLess facetData a a = true) as Haa
      by (apply (facetLess_trans facetData a b a); auto).
    rewrite facetLess_irrefl in Haa by auto. done. }
  split_and!.
  - by rewrite Hp.
  - intros a b Ha Hb Hlt. apply Hless; [done..|].
    apply facetLess_key; auto. left. apply float_ltb_key; auto.
  - intros a b Ha Hb Heq Hlt. apply Hless; [done..|].
    apply facetLess_key; auto. right. split; [|done]. apply float_eqb_key; auto.
  - intros a b Hab.
    assert (a ∈ ranked ∧ b ∈ ranked) as [Ha Hb].
    { destruct Hab as (i & j & Hi & Hj & _). split; apply list_elem_of_lookup; eauto. }
    apply (sorted_precedes _ _ _ _ Hs) in Hab.
    apply facetLess_key in Hab as [Hk|[Hk Hlt]]; auto.
    + left. apply float_ltb_key; auto.
    + right. split; [|done]. apply float_eqb_key; auto.
  - intros order' Hr'. subst ranked.
    by apply getSortedFacetKeys_range_irrelevant.
Qed.


(** ** The pin filter *)

Lemma len_nonneg {A} (l : list A) : 0 ≤ len l.
Proof. unfold len. lia. Qed.

Lemma string_eqb_eq (s1 s2 : string) : String.eqb s1 s2 = true ↔ s1 = s2.
Proof. apply String.eqb_eq. Qed.

Lemma pinVetoes_spec (parts : list string) (cols : gmap string Z) (v : string) :
  pinColumnsValid cols →
  ∃ veto : bool, pinVetoes parts cols v true = Some veto ∧
                 (veto = false ↔ pinMatches parts cols v).
Proof.
  intros Hcols. unfold pinVetoes, pinMatches. simpl.
  assert (0 ≤ default 0 (cols !! v)) as Hc.
  { destruct (cols !! v) as [c|] eqn:E; simpl; [by apply (Hcols v)|lia]. }
  set (c := default 0 (cols !! v)) in *.
  destruct (Z.ltb_spec c (len parts)) as [Hlt|Hge].
  - destruct (Z.ltb_spec c 0) as [|_]; [lia|].
    destruct (parts !! Z.to_nat c) as [fv|] eqn:E.
    + simpl. eexists. split; [done|].
      rewrite negb_false_iff, string_eqb_eq. split; [by intros ->|].
      intros H. specialize (H Hlt). congruence.
    + apply lookup_ge_None in E. unfold len in Hlt. lia.
  - exists false. split; [done|]. split; [lia|done].
Qed.

(** The loop over the pins, whatever the order of the iteration: it runs
    to its end exactly when every active pin matches. *)
Lemma pinsPass_spec (parts : list string) (cols : gmap string Z)
    (pins : list (string * bool)) :
  pinColumnsValid cols →
  ∃ passes : bool, pinsPass parts cols pins = Some passes ∧
    (passes = true ↔ ∀ v, (v, true) ∈ pins → pinMatches parts cols v).
Proof.
  intros Hcols. induction pins as [|[v active] pins (passes & IH & IHiff)]; simpl.
  { exists true. split; [done|]. split; [|done]. intros _ v Hv. by apply elem_of_nil in Hv. }
  destruct active.
  - destruct (pinVetoes_spec parts cols v Hcols) as (veto & -> & Hveto).
    destruct veto.
    + exists false. split; [done|]. split; [done|]. intros H.
      assert (true = false) as E; [|done].
      apply Hveto, H. by left.
    + exists passes. split; [done|]. rewrite IHiff. split.
      * intros H w Hw. apply elem_of_cons in Hw as [[= ->]|Hw]; [by apply Hveto|by apply H].
      * intros H w Hw. apply H. by right.
  - unfold pinVetoes. simpl. exists passes. split; [done|]. rewrite IHiff. split.
    + intros H w Hw. apply elem_of_cons in Hw as [[= ]|Hw]. by apply H.
    + intros H w Hw. apply H. by right.
Qed.

(** The order in which the pins are visited does not change the outcome. *)
Lemma pinsPass_range_irrelevant (parts : list string) (cols : gmap string Z)
    (pins pins' : list (string * bool)) :
  pinColumnsValid cols → pins ≡ₚ pins' →
  pinsPass parts cols pins = pinsPass parts cols pins'.
Proof.
  intros Hcols Hp.
  destruct (pinsPass_spec parts cols pins Hcols) as (b & -> & Hb).
  destruct (pinsPass_spec parts cols pins' Hcols) as (b' & -> & Hb').
  f_equal. apply eq_true_iff_eq. rewrite Hb, Hb'.
  by setoid_rewrite Hp.
Qed.

Section IngestionFacts.

Variable TrimSpace : string → string.
Variable ParseFloat : string → option float.


(** What the filter of [processLineWithFilter] decides for the fields [parts]. *)
Lemma filter_spec (m : model) (parts : list string) :
  pinColumnsValid (pinnedFacetsColumn m) →
  ∃ passes : bool,
    (if true && (0 <? Z.of_nat (size (pinnedFacets m)))
     then pinsPass parts (pinnedFacetsColumn m) (map_to_list (pinnedFacets m))
     else Some true) = Some passes ∧
    (passes = true ↔
       ∀ v, pinnedFacets m !! v = Some true → pinMatches parts (pinnedFacetsColumn m) v).
Proof.
  intros Hcols. simpl.
  destruct (Z.ltb_spec 0 (Z.of_nat (size (pinnedFacets m)))) as [Hpos|Hzero].
  - destruct (pinsPass_spec parts _ (map_to_list (pinnedFacets m)) Hcols)
      as (passes & -> & Hiff).
    exists passes. split; [done|]. rewrite Hiff.
    by setoid_rewrite elem_of_map_to_list.
  - exists true. split; [done|]. split; [|done]. intros _ v Hv.
    assert (size (pinnedFacets m) = 0%nat) as E by lia.
    apply map_size_empty_inv in E. rewrite E in Hv. by rewrite lookup_empty in Hv.
Qed.

(** Filtered processing changes nothing but the filtered table. *)
Lemma processLineWithFilter_frame (line : string) (m m' : model) :
  processLineWithFilter TrimSpace ParseFloat line true m = Some m' →
  m' = set_filteredData (filteredData m') m.
Proof.
  unfold processLineWithFilter. destruct m; simpl.
  repeat (case_match; simpl in *; simplify_eq; try done).
  all: intros; simplify_option_eq; try done.
  all: repeat (case_match; simpl in *; simplify_eq; try done).
Qed.

Lemma processLineWithFilter_total (line : string) (m : model) :
  pinColumnsValid (pinnedFacetsColumn m) →
  is_Some (processLineWithFilter TrimSpace ParseFloat line true m).
Proof.
  intros Hcols. unfold processLineWithFilter.
  case_match; [done|]. case_match; [done|].
  destruct (filter_spec m (Split (TrimSpace line) tab) Hcols) as (passes & -> & _).
  simpl. destruct passes; simpl; [|done]. by case_match.
Qed.

Lemma replay_frame (lines : list string) (m m' : model) :
  replay TrimSpace ParseFloat lines m = Some m' → m' = set_filteredData (filteredData m') m.
Proof.
  revert m. induction lines as [|line lines IH]; intros m; simpl.
  { intros [= ->]. by destruct m'. }
  destruct (processLineWithFilter TrimSpace ParseFloat line true m) as [m1|] eqn:E; simpl; [|done].
  intros H. apply IH in H. apply processLineWithFilter_frame in E.
  rewrite H, E. by destruct m.
Qed.

Lemma replay_total (lines : list string) (m : model) :
  pinColumnsValid (pinnedFacetsColumn m) → is_Some (replay TrimSpace ParseFloat lines m).
Proof.
  revert m. induction lines as [|line lines IH]; intros m Hcols; simpl; [done|].
  destruct (processLineWithFilter_total line m Hcols) as [m1 E]. rewrite E. simpl.
  apply IH. apply processLineWithFilter_frame in E. rewrite E. by destruct m.
Qed.

Lemma regenerateFilteredData_frame (m m' : model) :
  regenerateFilteredData TrimSpace ParseFloat m = Some m' → m' = set_filteredData (filteredData m') m.
Proof.
  unfold regenerateFilteredData. intros H. apply replay_frame in H.
  rewrite H. by destruct m.
Qed.

Lemma regenerateFilteredData_total (m : model) :
  pinColumnsValid (pinnedFacetsColumn m) → is_Some (regenerateFilteredData TrimSpace ParseFloat m).
Proof. intros Hcols. apply replay_total. by destruct m. Qed.

End IngestionFacts.


Ltac by_computation := apply (bool_decide_unpack _); vm_compute; exact I.

Lemma Split_nonempty (s : string) (sep : ascii) : 1 ≤ len (Split s sep).
Proof.
  unfold len. destruct s as [|c s]; simpl; [lia|].
  destruct (Ascii.eqb c sep); simpl; [lia|].
  destruct (Split s sep); simpl; lia.
Qed.

Lemma string_eqb_neq (s1 s2 : string) : String.eqb s1 s2 = false ↔ s1 ≠ s2.
Proof. apply String.eqb_neq. Qed.

(** C1: a record that carries an observation is added to the filtered table
    exactly when it passes the pin filter, and it passes if and only if every
    pinned value whose column lies within the record's fields equals the
    field at that column; a pin whose column is beyond the record does not
    veto it.  The outcome is the same for every order in which the pins are
    visited.  (The columns of pins are never negative in a state the program
    reaches, see the reachable states below.) *)
Theorem pin_filter_correct (TrimSpace : string → string)
    (ParseFloat : string → option float) (m : model) (line : string)
    (value : float) :
  let parts := Split (TrimSpace line) tab in
  TrimSpace line ≠ EmptyString →
  ParseFloat (default EmptyString (parts !! 0%nat)) = Some value →
  pinColumnsValid (pinnedFacetsColumn m) →
  ∃ passes : bool,
    (passes = true ↔
       ∀ v, pinnedFacets m !! v = Some true →
            pinMatches parts (pinnedFacetsColumn m) v) ∧
    (∀ order, order ≡ₚ map_to_list (pinnedFacets m) →
       pinsPass parts (pinnedFacetsColumn m) order = Some passes) ∧
    processLineWithFilter TrimSpace ParseFloat line true m =
      Some (if passes
            then set_filteredData
                   (addFacets value (drop 1 parts) 1 (filteredData m)) m
            else m).
Proof.
  intros parts Hline Hparse Hcols.
  destruct (pinsPass_spec parts _ (map_to_list (pinnedFacets m)) Hcols)
    as (passes & Hpass & Hiff).
  exists passes. split_and!.
  - rewrite Hiff. by setoid_rewrite elem_of_map_to_list.
  - intros order Hp. rewrite <- Hpass. by apply pinsPass_range_irrelevant.
  - unfold processLineWithFilter. fold parts.
    apply string_eqb_neq in Hline. rewrite Hline.
    destruct (Z.ltb_spec (len parts) 1) as [Hlen|_].
    { pose proof (Split_nonempty (TrimSpace line) tab). fold parts in H. lia. }
    rewrite Hparse. simpl.
    destruct (Z.ltb_spec 0 (Z.of_nat (size (pinnedFacets m)))) as [Hpos|Hzero].
    + rewrite Hpass. simpl. by destruct passes.
    + simpl. assert (passes = true) as ->; [|done].
      apply Hiff. intros v Hv. apply elem_of_map_to_list in Hv.
      assert (size (pinnedFacets m) = 0%nat) as E by lia.
      apply map_size_empty_inv in E. rewrite E in Hv. by rewrite lookup_empty in Hv.
Qed.

(** The record "12.1 blue san jose" does not pass the pin of "red" under
    column 1; the record "10.5 red seattle" does. *)
Lemma pin_filter_correct_witness :
  asciiTrimSpace (default EmptyString (exampleLines !! 3%nat)) ≠ EmptyString ∧
  pinColumnsValid (pinnedFacetsColumn pinnedModel) ∧
  ∃ passes : bool,
    (passes = true ↔
       ∀ v, pinnedFacets pinnedModel !! v = Some true →
            pinMatches ["12.1"; "blue"; "san jose"]
              (pinnedFacetsColumn pinnedModel) v) ∧
    processLineWithFilter asciiTrimSpace exampleParseFloat
      (default EmptyString (exampleLines !! 3%nat)) true pinnedModel =
      Some (if passes
            then set_filteredData
                   (addFacets 12.1 ["blue"; "san jose"] 1
                      (filteredData pinnedModel)) pinnedModel
            else pinnedModel).
Proof.
  assert (pinColumnsValid (pinnedFacetsColumn pinnedModel)) as Hcols
    by by_computation.
  split; [by vm_compute|]. split; [done|].
  destruct (pin_filter_correct asciiTrimSpace exampleParseFloat pinnedModel
              (default EmptyString (exampleLines !! 3%nat)) 12.1)
    as (passes & Hiff & _ & Hrun); [by vm_compute|by vm_compute|done|].
  exists passes. split; [exact Hiff|exact Hrun].
Defined.


(** C10: processing a line in filtered mode, and rebuilding the filtered
    table from the stored lines, return (no panic) and leave the full table,
    the string counts, the record counter and the stored lines as they were:
    the result is the old model with another filtered table. *)
Theorem filtered_processing_frame (TrimSpace : string → string)
    (ParseFloat : string → option float) (m : model) (line : string) :
  pinColumnsValid (pinnedFacetsColumn m) →
  (∃ m', processLineWithFilter TrimSpace ParseFloat line true m = Some m' ∧
         facetsData m' = facetsData m ∧ stringValues m' = stringValues m ∧
         totalLogCount m' = totalLogCount m ∧ storedLines m' = storedLines m ∧
         m' = set_filteredData (filteredData m') m) ∧
  (∃ m', regenerateFilteredData TrimSpace ParseFloat m = Some m' ∧
         facetsData m' = facetsData m ∧ stringValues m' = stringValues m ∧
         totalLogCount m' = totalLogCount m ∧ storedLines m' = storedLines m ∧
         m' = set_filteredData (filteredData m') m).
Proof.
  intros Hcols. split.
  - destruct (processLineWithFilter_total TrimSpace ParseFloat line m Hcols)
      as [m' Hrun].
    exists m'. split; [done|].
    apply processLineWithFilter_frame in Hrun. by rewrite Hrun.
  - destruct (regenerateFilteredData_total TrimSpace ParseFloat m Hcols)
      as [m' Hrun].
    exists m'. split; [done|].
    apply regenerateFilteredData_frame in Hrun. by rewrite Hrun.
Qed.

Lemma filtered_processing_frame_witness :
  pinColumnsValid (pinnedFacetsColumn pinnedModel) ∧
  (∃ m', processLineWithFilter asciiTrimSpace exampleParseFloat
           "3	red	tacoma" true pinnedModel = Some m' ∧
         facetsData m' = facetsData pinnedModel ∧
         stringValues m' = stringValues pinnedModel ∧
         totalLogCount m' = totalLogCount pinnedModel ∧
         storedLines m' = storedLines pinnedModel ∧
         m' = set_filteredData (filteredData m') pinnedModel) ∧
  (∃ m', regenerateFilteredData asciiTrimSpace exampleParseFloat pinnedModel
           = Some m' ∧
         facetsData m' = facetsData pinnedModel ∧
         stringValues m' = stringValues pinnedModel ∧
         totalLogCount m' = totalLogCount pinnedModel ∧
         storedLines m' = storedLines pinnedModel ∧
         m' = set_filteredData (filteredData m') pinnedModel).
Proof.
  assert (pinColumnsValid (pinnedFacetsColumn pinnedModel)) as Hcols
    by by_computation.
  split; [done|].
  exact (filtered_processing_frame asciiTrimSpace exampleParseFloat pinnedModel
           "3	red	tacoma" Hcols).
Defined.

(** ** The record counter *)

Lemma int_add_small (n : Z) : - 2 ^ 63 ≤ n < 2 ^ 63 - 1 → int_add n 1 = n + 1.
Proof.
  intros Hn. unfold int_add, wrap64.
  rewrite Z.mod_small by lia. lia.
Qed.

(** A line that is empty once trimmed is ignored. *)
Lemma blank_line_ignored (TrimSpace : string → string)
    (ParseFloat : string → option float) (m : model) (line : string)
    (applyFilter : bool) :
  TrimSpace line = EmptyString →
  processLineWithFilter TrimSpace ParseFloat line applyFilter m = Some m.
Proof. intros Hblank. unfold processLineWithFilter. by rewrite Hblank. Qed.

(** What unfiltered processing does with a line that is not blank. *)
Lemma processLineWithFilter_unfiltered (TrimSpace : string → string)
    (ParseFloat : string → option float) (m : model) (line : string) :
  let parts := Split (TrimSpace line) tab in
  let first := default EmptyString (parts !! 0%nat) in
  TrimSpace line ≠ EmptyString →
  processLineWithFilter TrimSpace ParseFloat line false m =
    Some match ParseFloat first with
         | None =>
             set_totalLogCount (int_add (totalLogCount m) 1)
               (set_stringValues
                  (<[first := int_add (default 0 (stringValues m !! first)) 1]>
                     (stringValues m)) m)
         | Some value =>
             set_facetsData (addFacets value (drop 1 parts) 1 (facetsData m))
               (set_totalLogCount (int_add (totalLogCount m) 1) m)
         end.
Proof.
  intros parts first Hline. unfold processLineWithFilter. fold parts first.
  apply string_eqb_neq in Hline. rewrite Hline.
  destruct (Z.ltb_spec (len parts) 1) as [Hlen|_].
  { pose proof (Split_nonempty (TrimSpace line) tab). fold parts in H. lia. }
  simpl. by destruct (ParseFloat first).
Qed.

(** C8, as the code has it: for every raw line that is not empty once
    trimmed, unfiltered processing returns and increments the record counter
    exactly once (by one in 64-bit arithmetic), whatever the line holds; when
    the first field does not parse as a float, the count of that field in the
    string counts goes up by one and neither table changes.  The same holds
    for [processLine], the unfiltered pass followed by the filtered one. *)
Theorem unfiltered_processing_counts (TrimSpace : string → string)
    (ParseFloat : string → option float) (m : model) (line : string) :
  let parts := Split (TrimSpace line) tab in
  let first := default EmptyString (parts !! 0%nat) in
  let counted m' :=
    totalLogCount m' = int_add (totalLogCount m) 1 ∧
    (- 2 ^ 63 ≤ totalLogCount m < 2 ^ 63 - 1 →
     totalLogCount m' = totalLogCount m + 1) ∧
    (ParseFloat first = None →
     stringValues m' =
       <[first := int_add (default 0 (stringValues m !! first)) 1]>
         (stringValues m) ∧
     facetsData m' = facetsData m ∧ filteredData m' = filteredData m) in
  TrimSpace line ≠ EmptyString →
  (∃ m', processLineWithFilter TrimSpace ParseFloat line false m = Some m' ∧
         counted m') ∧
  (∀ m', processLine TrimSpace ParseFloat line m = Some m' → counted m') ∧
  (pinColumnsValid (pinnedFacetsColumn m) →
   is_Some (processLine TrimSpace ParseFloat line m)).
Proof.
  intros parts first counted Hline.
  assert (∀ base,
            totalLogCount base = totalLogCount m →
            stringValues base = stringValues m →
            facetsData base = facetsData m →
            filteredData base = filteredData m →
            ∃ m1, processLineWithFilter TrimSpace ParseFloat line false base
                    = Some m1 ∧
                  counted m1 ∧ isFiltered m1 = isFiltered base ∧
                  pinnedFacetsColumn m1 = pinnedFacetsColumn base) as Hpass.
  { intros base Hcount Hstrings Hfull Hfiltered. eexists.
    split; [by apply processLineWithFilter_unfiltered|].
    fold parts first. unfold counted. rewrite Hcount, Hstrings.
    destruct (ParseFloat first); simpl; split_and!; try done;
      by apply int_add_small. }
  split_and!.
  - destruct (Hpass m) as (m1 & Hrun & Hm1 & _); [done..|]. by exists m1.
  - intros m'. unfold processLine.
    destruct (Hpass (set_storedLines (storedLines m ++ [line]) m))
      as (m1 & -> & Hm1 & _ & _); [done..|].
    simpl. destruct (isFiltered m1); [|by intros [= <-]].
    intros Hrun. pose proof Hrun as Hframe.
    apply processLineWithFilter_frame in Hframe. rewrite Hframe.
    unfold counted in *. simpl. destruct Hm1 as (? & ? & Hstr).
    split_and!; [done..|]. intros Hnone.
    destruct (Hstr Hnone) as (? & ? & Hfiltered). split_and!; [done..|].
    rewrite <- Hfiltered. revert Hrun. unfold processLineWithFilter.
    apply string_eqb_neq in Hline. rewrite Hline. fold parts first.
    rewrite Hnone. clear.
    repeat case_match; try (by intros [= <-]).
    all: destruct (pinsPass _ _ _) as [[]|]; simpl; [by intros [= <-]..|done].
  - intros Hcols. unfold processLine.
    destruct (Hpass (set_storedLines (storedLines m ++ [line]) m))
      as (m1 & -> & _ & Hfilt & Hpins); [done..|].
    simpl. destruct (isFiltered m1); [|done].
    apply processLineWithFilter_total. by rewrite Hpins.
Qed.

(** The word "hello" is no number: it is counted once, in the record counter
    and in the string counts. *)
Lemma unfiltered_processing_counts_witness :
  asciiTrimSpace "hello" ≠ EmptyString ∧
  ∃ m', processLineWithFilter asciiTrimSpace exampleParseFloat "hello" false
          loadedModel = Some m' ∧
        totalLogCount loadedModel = 4 ∧ totalLogCount m' = 5 ∧
        stringValues m' !! "hello" = Some 1 ∧
        facetsData m' = facetsData loadedModel.
Proof.
  assert (asciiTrimSpace "hello" ≠ EmptyString) as Hline by by vm_compute.
  split; [done|].
  destruct (unfiltered_processing_counts asciiTrimSpace exampleParseFloat
              loadedModel "hello" Hline)
    as [(m' & Hrun & Hcount & _ & Hstrings) _].
  exists m'. split; [done|].
  destruct Hstrings as (Hs & Hfull & _); [by vm_compute|].
  split_and!; [by vm_compute|by rewrite Hcount|by rewrite Hs|done].
Defined.

(** C8 as stated fails on blank lines: a line that is empty, or holds only
    white space, leaves the record counter at its value (here 4, not 5). *)
Lemma blank_line_not_counted :
  totalLogCount loadedModel = 4 ∧
  totalLogCount <$> processLineWithFilter asciiTrimSpace exampleParseFloat
                      "" false loadedModel = Some 4 ∧
  totalLogCount <$> processLine asciiTrimSpace exampleParseFloat
                      "   " loadedModel = Some 4.
Proof. by vm_compute. Qed.


(** In the scenario's column 1, "red" (mean 12.85) comes before "blue"
    (mean 10.4). *)
Lemma ranking_total_order_witness :
  rangeOf ["blue"; "red"] (columnOf (facetsData loadedModel) 1) ∧
  numbers (columnOf (facetsData loadedModel) 1) ∧
  precedes "red" "blue"
    (getSortedFacetKeys ["blue"; "red"] (columnOf (facetsData loadedModel) 1)) ∧
  getSortedFacetKeys ["red"; "blue"] (columnOf (facetsData loadedModel) 1) =
  getSortedFacetKeys ["blue"; "red"] (columnOf (facetsData loadedModel) 1).
Proof.
  assert (rangeOf ["blue"; "red"] (columnOf (facetsData loadedModel) 1)) as Hr
    by by_computation.
  assert (numbers (columnOf (facetsData loadedModel) 1)) as Hn
    by by_computation.
  destruct (ranking_total_order _ _ Hr Hn) as (Hp & Hmean & _ & _ & Hany).
  split_and!; [done..| |].
  - apply Hmean; [rewrite Hp..|]; by_computation.
  - apply Hany. by_computation.
Defined.

(** C2 as stated fails when a mean is NaN ([strconv.ParseFloat] accepts
    "NaN"): every comparison with the NaN is false, so the sort leaves "x"
    (mean 1) before "y" (mean 2) when the map is iterated in the order x, n, y,
    and returns another sequence when it is iterated in the order y, x, n. *)
Lemma ranking_nan_counterexample :
  facetsData <$> drain asciiTrimSpace exampleParseFloat nanLines (initialModel 0)
    = Some {[ 1 := nanFacets ]} ∧
  rangeOf ["x"; "n"; "y"] nanFacets ∧
  rangeOf ["y"; "x"; "n"] nanFacets ∧
  (meanOf nanFacets "x" <? meanOf nanFacets "y")%float = true ∧
  getSortedFacetKeys ["x"; "n"; "y"] nanFacets = ["x"; "n"; "y"] ∧
  getSortedFacetKeys ["y"; "x"; "n"] nanFacets = ["y"; "x"; "n"].
Proof.
  split_and!; [by vm_compute|by_computation|by_computation|by vm_compute..].
Qed.


(** ** Pin toggles *)

(** A pin toggle sets new pins, then either clears the filter flag and keeps
    the filtered table (no pin is left), or rebuilds the filtered table. *)
Lemma togglePin_result (TrimSpace : string → string)
    (ParseFloat : string → option float) (it : iteration) (m m' : model) :
  activeFacet m ≠ EmptyString →
  togglePin TrimSpace ParseFloat it m = Some m' →
  ∃ pins cols,
    (size pins = 0%nat ∧ m' = set_isFiltered false (set_pins pins cols m)) ∨
    (size pins ≠ 0%nat ∧
     m' = set_filteredData (filteredData m')
            (set_isFiltered true (set_pins pins cols m))).
Proof.
  intros Hactive Hrun. unfold togglePin in Hrun.
  apply string_eqb_neq in Hactive. rewrite Hactive in Hrun.
  set (m1 := if default false (pinnedFacets m !! activeFacet m) then _ else _)
    in Hrun.
  assert (∃ pins cols, m1 = set_pins pins cols m) as (pins & cols & Hm1).
  { subst m1. repeat case_match; eauto. }
  rewrite Hm1 in Hrun. clear m1 Hm1. exists pins, cols. simpl in Hrun.
  destruct (Z.ltb_spec 0 (Z.of_nat (size pins))) as [Hpos|Hzero].
  - right. split; [lia|]. by apply regenerateFilteredData_frame in Hrun.
  - injection Hrun as <-. left. split; [lia|done].
Qed.

(** C3, as the code has it: after a pin toggle that leaves no pin, the filter
    flag is off, so the full table is the data source again; the filtered
    table is not cleared: it keeps the content it had under the last pin. *)
Theorem unpin_last_keeps_filtered (TrimSpace : string → string)
    (ParseFloat : string → option float) (it : iteration) (m m' : model) :
  activeFacet m ≠ EmptyString →
  Update TrimSpace ParseFloat it (KeyMsg KeyEnter) m = Some m' →
  pinnedFacets m' = ∅ →
  isFiltered m' = false ∧ dataSource m' = facetsData m' ∧
  facetsData m' = facetsData m ∧ filteredData m' = filteredData m.
Proof.
  intros Hactive Hrun Hempty. simpl in Hrun.
  destruct (togglePin_result _ _ _ _ _ Hactive Hrun)
    as (pins & cols & [[_ ->]|[Hsize Hm']]).
  - done.
  - rewrite Hm' in Hempty. simpl in Hempty. subst pins.
    by rewrite map_size_empty in Hsize.
Qed.

(** Unpinning "red", the only pin of the scenario. *)
Lemma unpin_last_keeps_filtered_witness :
  activeFacet pinnedModel ≠ EmptyString ∧
  Update asciiTrimSpace exampleParseFloat exampleIteration (KeyMsg KeyEnter)
    pinnedModel = Some unpinnedModel ∧
  pinnedFacets unpinnedModel = ∅ ∧
  isFiltered unpinnedModel = false ∧
  dataSource unpinnedModel = facetsData unpinnedModel ∧
  facetsData unpinnedModel = facetsData pinnedModel ∧
  filteredData unpinnedModel = filteredData pinnedModel.
Proof.
  assert (activeFacet pinnedModel ≠ EmptyString) as Hactive by by vm_compute.
  assert (Update asciiTrimSpace exampleParseFloat exampleIteration
            (KeyMsg KeyEnter) pinnedModel = Some unpinnedModel) as Hrun
    by (vm_compute; reflexivity).
  assert (pinnedFacets unpinnedModel = ∅) as Hempty
    by (vm_compute; reflexivity).
  split; [exact Hactive|]. split; [exact Hrun|]. split; [exact Hempty|].
  exact (unpin_last_keeps_filtered _ _ _ _ _ Hactive Hrun Hempty).
Defined.

(** C3 as stated fails: after "red", the only pin, is unpinned, the filtered
    table still holds the records of "red". *)
Lemma unpin_leaves_filtered_table :
  Update asciiTrimSpace exampleParseFloat exampleIteration (KeyMsg KeyEnter)
    pinnedModel = Some unpinnedModel ∧
  pinnedFacets pinnedModel = {[ "red" := true ]} ∧
  pinnedFacets unpinnedModel = ∅ ∧
  filteredData unpinnedModel !! 1 = Some {[ "red" := [10.5; 15.2]%float ]} ∧
  filteredData unpinnedModel !! 2 =
    Some {[ "seattle" := [10.5%float]; "san jose" := [15.2%float] ]}.
Proof. split_and!; vm_compute; reflexivity. Qed.

(** C7 on a concrete input: "x" is a value of column 1 and of column 2 of the
    full table and is pinned from the all-facets view.  When the loop over the
    table visits column 2 first, the pin is bound to column 2, not to the
    lowest column that holds "x". *)
Lemma pin_column_follows_range :
  facet sharedModel = 0 ∧ activeFacet sharedModel = "x" ∧
  is_Some (columnOf (facetsData sharedModel) 1 !! "x") ∧
  is_Some (columnOf (facetsData sharedModel) 2 !! "x") ∧
  rangeOf (rangeCols descendingCols) (facetsData sharedModel) ∧
  rangeOf (rangeCols ascending) (facetsData sharedModel) ∧
  pinnedFacetsColumn <$>
    Update asciiTrimSpace exampleParseFloat descendingCols (KeyMsg KeyEnter)
      sharedModel = Some {[ "x" := 2 ]} ∧
  pinnedFacetsColumn <$>
    Update asciiTrimSpace exampleParseFloat ascending (KeyMsg KeyEnter)
      sharedModel = Some {[ "x" := 1 ]}.
Proof.
  split_and!.
  - vm_compute; reflexivity.
  - vm_compute; reflexivity.
  - vm_compute; eauto.
  - vm_compute; eauto.
  - by_computation.
  - by_computation.
  - vm_compute; reflexivity.
  - vm_compute; reflexivity.
Qed.


(** ** Histogram buckets *)

Lemma sumZ_insert (bins : list Z) (i : nat) (count : Z) :
  bins !! i = Some count →
  sumZ (<[i := count + 1]> bins) = sumZ bins + 1.
Proof.
  revert i. induction bins as [|b bins IH]; intros [|i]; simpl; try done.
  - intros [= ->]. lia.
  - intros Hi. rewrite (IH i Hi). lia.
Qed.

Lemma sumZ_replicate (n : nat) : sumZ (replicate n 0) = 0.
Proof. induction n as [|n IH]; simpl; [done|]. by rewrite IH. Qed.

Lemma sumZ_lookup_le (bins : list Z) (i : nat) (count : Z) :
  Forall (λ b, 0 ≤ b) bins → bins !! i = Some count → 0 ≤ count ≤ sumZ bins.
Proof.
  intros Hall. revert i. induction Hall as [|b bins Hb Hall IH]; intros [|i]; simpl;
    try done.
  - intros [= ->]. assert (0 ≤ sumZ bins); [|lia].
    clear -Hall. induction Hall; simpl; lia.
  - intros Hi. specialize (IH i Hi). lia.
Qed.

(** One step of a bucketing loop: a count in range goes up by one. *)
Lemma bins_step (bins : list Z) (idx : Z) :
  0 ≤ idx < len bins → Forall (λ b, 0 ≤ b) bins → sumZ bins < 2 ^ 63 - 1 →
  let bins' := <[Z.to_nat idx := int_add (default 0 (bins !! Z.to_nat idx)) 1]> bins in
  len bins' = len bins ∧ Forall (λ b, 0 ≤ b) bins' ∧ sumZ bins' = sumZ bins + 1.
Proof.
  intros Hidx Hall Hsum bins'. unfold len in *.
  destruct (lookup_lt_is_Some_2 bins (Z.to_nat idx)) as [count Hcount]; [lia|].
  pose proof (sumZ_lookup_le bins _ _ Hall Hcount) as Hle.
  subst bins'. rewrite Hcount. simpl. rewrite int_add_small by lia.
  split_and!.
  - by rewrite length_insert.
  - apply Forall_insert; [done|lia].
  - by apply sumZ_insert.
Qed.

Lemma fillBins_conservation (indefinite : Z) (values : list float)
    (gmin binSize : float) (binCount : Z) (bins : list Z) :
  len bins = binCount → 1 ≤ binCount < 2 ^ 63 →
  Forall (λ b, 0 ≤ b) bins → sumZ bins + len values < 2 ^ 63 →
  (∀ v, v ∈ values → 0 ≤ float64_to_int indefinite ((v - gmin) / binSize)%float) →
  ∃ bins', fillBins indefinite values gmin binSize binCount bins = Some bins' ∧
           len bins' = binCount ∧ sumZ bins' = sumZ bins + len values.
Proof.
  intros Hlen Hcount. revert bins Hlen.
  induction values as [|v values IH]; intros bins Hlen Hall Hsum Hraw; simpl.
  { exists bins. unfold len. simpl. split_and!; [done..|lia]. }
  set (raw := float64_to_int indefinite ((v - gmin) / binSize)%float).
  assert (0 ≤ raw) as Hv by (apply Hraw; by left).
  set (idx := if binCount <=? raw then int_sub binCount 1 else raw).
  assert (len (v :: values) = len values + 1) as Hcons by (unfold len; simpl; lia).
  pose proof (len_nonneg values) as Hnonneg.
  assert (0 ≤ idx < len bins) as Hidx.
  { subst idx. destruct (Z.leb_spec binCount raw); [|lia].
    unfold int_sub, wrap64. rewrite Z.mod_small by lia. lia. }
  destruct (Z.ltb_spec idx 0); [lia|].
  destruct (Z.leb_spec (len bins) idx); [lia|]. simpl.
  destruct (bins_step bins idx Hidx Hall) as (Hlen' & Hall' & Hsum'); [lia|].
  destruct (IH _ (eq_trans Hlen' Hlen) Hall') as (bins' & -> & ? & Hs).
  - lia.
  - intros w Hw. apply Hraw. by right.
  - exists bins'. split_and!; [done..|]. lia.
Qed.

(** X2, bucket conservation of [createVerticalHistogram]: when the index
    computed for every sample is not negative (as it is for samples within
    [gmin, gmax] whenever the float64 quotient is a number within the range of
    [int]), the histogram has [binCount] bins whose counts add up to the number
    of samples, and every sample is counted in a bucket of [0, binCount - 1]:
    an index of [binCount] or more, as for a sample at [gmax], is clamped to
    the last bucket. *)
Theorem histogram_conservation (indefinite : Z) (values : list float)
    (gmin gmax : float) (binCount : Z) :
  1 ≤ binCount < 2 ^ 63 → 0 < len values < 2 ^ 63 →
  (gmin =? gmax)%float = false →
  (∀ v, v ∈ values → 0 ≤ rawIndex indefinite v gmin gmax binCount) →
  ∃ bins,
    createVerticalHistogram indefinite values gmin gmax binCount
      = Some (Bins bins) ∧
    len bins = binCount ∧ sumZ bins = len values ∧
    ∀ v, v ∈ values →
      0 ≤ bucketIndex indefinite v gmin gmax binCount ≤ binCount - 1 ∧
      (binCount ≤ rawIndex indefinite v gmin gmax binCount →
       bucketIndex indefinite v gmin gmax binCount = binCount - 1).
Proof.
  intros Hcount Hvalues Hrange Hraw. unfold createVerticalHistogram.
  destruct (Z.eqb_spec (len values) 0); [lia|]. rewrite Hrange.
  destruct (Z.ltb_spec binCount 0); [lia|].
  destruct (fillBins_conservation indefinite values gmin
              ((gmax - gmin) / float64_of_int binCount)%float binCount
              (replicate (Z.to_nat binCount) 0))
    as (bins & -> & Hlen & Hsum).
  - unfold len. rewrite length_replicate. lia.
  - lia.
  - apply Forall_replicate. lia.
  - rewrite sumZ_replicate. lia.
  - exact Hraw.
  - exists bins. split_and!; [done..| |].
    + rewrite Hsum, sumZ_replicate. lia.
    + intros v Hv. specialize (Hraw v Hv). unfold bucketIndex, rawIndex in *.
      destruct (Z.leb_spec binCount
                  (float64_to_int indefinite
                     ((v - gmin) / ((gmax - gmin) / float64_of_int binCount))%float)).
      * unfold int_sub, wrap64. rewrite Z.mod_small by lia. lia.
      * lia.
Qed.

Lemma histogram_conservation_witness :
  (∀ v, v ∈ [1; 2; 10.5; 3]%float → 0 ≤ rawIndex amd64_indefinite v 1 10.5 10) ∧
  ∃ bins,
    createVerticalHistogram amd64_indefinite [1; 2; 10.5; 3]%float 1 10.5 10
      = Some (Bins bins) ∧
    len bins = 10 ∧ sumZ bins = 4 ∧
    bucketIndex amd64_indefinite 10.5 1 10.5 10 = 9.
Proof.
  assert (∀ v, v ∈ [1; 2; 10.5; 3]%float →
               0 ≤ rawIndex amd64_indefinite v 1 10.5 10) as Hraw.
  { intros v Hv. repeat (apply elem_of_cons in Hv as [->|Hv]; [by vm_compute|]).
    by apply elem_of_nil in Hv. }
  split; [exact Hraw|].
  destruct (histogram_conservation amd64_indefinite [1; 2; 10.5; 3]%float
              1 10.5 10) as (bins & Hrun & Hlen & Hsum & Hidx);
    [by vm_compute|by vm_compute|by vm_compute|exact Hraw|].
  exists bins. split_and!; [exact Hrun|exact Hlen|exact Hsum|].
  vm_compute. reflexivity.
Defined.

(** X3: the bucketing loop of [renderMultiFacet] clamps at both ends: whatever
    the samples and the range, it counts every sample once and never leaves
    the buckets. *)
Lemma fillBuckets_conservation (indefinite : Z) (values : list float)
    (gmin bucketSize : float) (bucketCount : Z) (buckets : list Z) :
  len buckets = bucketCount → 1 ≤ bucketCount < 2 ^ 63 →
  Forall (λ b, 0 ≤ b) buckets → sumZ buckets + len values < 2 ^ 63 →
  ∃ buckets',
    fillBuckets indefinite values gmin bucketSize bucketCount buckets
      = Some buckets' ∧
    len buckets' = bucketCount ∧ sumZ buckets' = sumZ buckets + len values.
Proof.
  intros Hlen Hcount. revert buckets Hlen.
  induction values as [|v values IH]; intros buckets Hlen Hall Hsum; simpl.
  { exists buckets. unfold len. simpl. split_and!; [done..|lia]. }
  set (raw := float64_to_int indefinite ((v - gmin) / bucketSize)%float).
  set (idx := if bucketCount <=? raw then int_sub bucketCount 1
              else if raw <? 0 then 0 else raw).
  assert (len (v :: values) = len values + 1) as Hcons by (unfold len; simpl; lia).
  pose proof (len_nonneg values) as Hnonneg.
  assert (0 ≤ idx < len buckets) as Hidx.
  { subst idx. destruct (Z.leb_spec bucketCount raw).
    - unfold int_sub, wrap64. rewrite Z.mod_small by lia. lia.
    - destruct (Z.ltb_spec raw 0); lia. }
  destruct (Z.ltb_spec idx 0); [lia|].
  destruct (Z.leb_spec (len buckets) idx); [lia|]. simpl.
  destruct (bins_step buckets idx Hidx Hall) as (Hlen' & Hall' & Hsum'); [lia|].
  destruct (IH _ (eq_trans Hlen' Hlen) Hall') as (buckets' & -> & ? & Hs); [lia|].
  exists buckets'. split_and!; [done..|]. lia.
Qed.

(** Bucket conservation of the loop of [renderMultiFacet], on the samples 1
    and +Inf with the 20 buckets it uses. *)
Lemma fillBuckets_conservation_witness :
  ∃ buckets,
    fillBuckets amd64_indefinite [1; infinity]%float 1
      ((infinity - 1) / float64_of_int 20)%float 20 (replicate 20 0)
      = Some buckets ∧
    len buckets = 20 ∧ sumZ buckets = sumZ (replicate 20 0) + len [1; infinity]%float.
Proof.
  apply fillBuckets_conservation.
  - vm_compute; reflexivity.
  - lia.
  - apply Forall_replicate. lia.
  - vm_compute; reflexivity.
Defined.

(** C4 on a concrete input: the samples 1 and +Inf (the lines "1 a" and
    "Inf a") lie within [gmin, gmax] = [1, +Inf] and [gmin < gmax].  The bin
    width is +Inf and the quotient of the sample at [gmax] is Inf/Inf = NaN,
    whose conversion to [int] is left to the implementation.  With the amd64
    result the index is negative and [bins[idx]] panics; with a result of 0
    the sample at [gmax] lands in bucket 0, not in the last one.  The loop of
    [renderMultiFacet] counts both samples on the same input. *)
Lemma histogram_fails_at_infinite_range :
  (1 <=? 1)%float = true ∧ (1 <=? infinity)%float = true ∧
  (infinity <=? infinity)%float = true ∧ (1 <? infinity)%float = true ∧
  ((infinity - 1) / ((infinity - 1) / float64_of_int 10))%float = nan ∧
  bucketIndex amd64_indefinite infinity 1 infinity 10 = - 2 ^ 63 ∧
  createVerticalHistogram amd64_indefinite [1; infinity]%float 1 infinity 10
    = None ∧
  createVerticalHistogram 0 [1; infinity]%float 1 infinity 10
    = Some (Bins [2; 0; 0; 0; 0; 0; 0; 0; 0; 0]) ∧
  fillBuckets amd64_indefinite [1; infinity]%float 1
    ((infinity - 1) / float64_of_int 10)%float 10 (replicate 10 0)
    = Some [2; 0; 0; 0; 0; 0; 0; 0; 0; 0].
Proof. split_and!; vm_compute; reflexivity. Qed.


(** ** Navigation *)

(** [findIndex] returns the first position of the key, counted from [i], or
    -1 when the key is not in the list. *)
Lemma findIndex_spec (keys : list string) (active : string) (i : Z) :
  0 ≤ i →
  ((active ∉ keys) ∧ findIndex keys active i = -1) ∨
  (∃ n : nat, findIndex keys active i = i + Z.of_nat n ∧
              keys !! n = Some active ∧
              ∀ n' : nat, (n' < n)%nat → keys !! n' ≠ Some active).
Proof.
  revert i. induction keys as [|key keys IH]; intros i Hi; simpl.
  { left. split; [apply not_elem_of_nil|done]. }
  destruct (String.eqb_spec key active) as [->|Hne].
  - right. exists 0%nat. split_and!; [lia|done|lia].
  - destruct (IH (i + 1)) as [[Hnotin ->]|(n & -> & Hn & Hfirst)]; [lia| |].
    + left. split; [|done]. by apply not_elem_of_cons.
    + right. exists (S n). split_and!; [lia|done|].
      intros [|n'] Hlt; simpl; [congruence|]. apply Hfirst. lia.
Qed.

Lemma findIndex_found (keys : list string) (active : string) :
  findIndex keys active 0 ≠ -1 ↔ active ∈ keys.
Proof.
  destruct (findIndex_spec keys active 0) as [[Hnotin ->]|(n & -> & Hn & _)]; [lia| |].
  - split; [done|]. intros. by exfalso.
  - split; [|lia]. intros _. apply list_elem_of_lookup. eauto.
Qed.

Lemma findIndex_bounds (keys : list string) (active : string) :
  active ∈ keys ↔ 0 ≤ findIndex keys active 0 < len keys.
Proof.
  destruct (findIndex_spec keys active 0) as [[Hnotin ->]|(n & -> & Hn & _)]; [lia| |].
  - split; [done|lia].
  - split; [|intros _; apply list_elem_of_lookup; eauto].
    intros _. apply lookup_lt_Some in Hn. unfold len. lia.
Qed.

Lemma keyAt_findIndex (keys : list string) (active : string) :
  active ∈ keys → keyAt keys (findIndex keys active 0) = active.
Proof.
  intros Hin.
  destruct (findIndex_spec keys active 0) as [[Hnotin _]|(n & -> & Hn & _)];
    [lia|done|].
  unfold keyAt. replace (Z.to_nat (0 + Z.of_nat n)) with n by lia. by rewrite Hn.
Qed.

Lemma keyAt_elem_of (keys : list string) (i : Z) :
  keys ≠ [] → i < len keys → keyAt keys i ∈ keys.
Proof.
  intros Hne Hi. unfold keyAt.
  destruct (keys !! Z.to_nat i) as [key|] eqn:E.
  - apply list_elem_of_lookup. eauto.
  - apply lookup_ge_None in E. unfold len in Hi.
    destruct keys; [done|]. simpl in *. lia.
Qed.

Lemma len_zero {A} (l : list A) : len l = 0 ↔ l = [].
Proof. unfold len. destruct l; simpl; split; (done || lia). Qed.

Lemma moved_refl (m : model) : moved m m.
Proof. unfold moved. by destruct m. Qed.

Lemma moved_trans (m1 m2 m3 : model) : moved m1 m2 → moved m2 m3 → moved m1 m3.
Proof. unfold moved. intros -> ->. by destruct m1. Qed.

Lemma moved_dataSource (m m' : model) :
  moved m m' → dataSource m' = dataSource m ∧ facet m' = facet m.
Proof. unfold moved. intros ->. by destruct m. Qed.

Lemma updatePositionFromActiveFacet_moved (m : model) :
  moved m (updatePositionFromActiveFacet m) ∧
  activeFacet (updatePositionFromActiveFacet m) = activeFacet m.
Proof.
  unfold updatePositionFromActiveFacet, moved.
  destruct (facetPositions m !! activeFacet m); by destruct m.
Qed.

Lemma ensureActiveFacetVisible_moved (m : model) :
  moved m (ensureActiveFacetVisible m) ∧
  activeFacet (ensureActiveFacetVisible m) = activeFacet m.
Proof.
  unfold ensureActiveFacetVisible, moved.
  repeat case_match; by destruct m.
Qed.

Lemma set_activeFacet_moved (key : string) (m : model) :
  moved m (set_activeFacet key m).
Proof. unfold moved. by destruct m. Qed.

Lemma set_activeFacetPos_moved (pos : Z * Z) (m : model) :
  moved m (set_activeFacetPos pos m).
Proof. unfold moved. by destruct m. Qed.


(** The single-facet branch: the move is committed when the candidate is
    within the grid, rejected otherwise; an active facet that is not a key is
    replaced by the first key. *)
Lemma navigateSingle_spec (keys : list string) (dx dy : Z) (m : model) :
  keys ≠ [] →
  let m' := navigateSingle keys dx dy m in
  let columns := gridWidth m in
  let targetRow := int_add (Z.quot (selected keys m) columns) dy in
  let targetCol := int_add (Z.rem (selected keys m) columns) dx in
  let targetIndex := int_add (int_mul targetRow columns) targetCol in
  moved m m' ∧
  activeFacet m' ∈ keys ∧
  (selected keys m = -1 → activeFacet m' = keyAt keys 0) ∧
  (selected keys m ≠ -1 →
   (targetRow < 0 ∨ targetCol < 0 ∨ targetIndex < 0 ∨ len keys ≤ targetIndex →
    m' = m) ∧
   (0 ≤ targetRow → 0 ≤ targetCol → 0 ≤ targetIndex < len keys →
    activeFacet m' = keyAt keys targetIndex ∧
    activeFacetPos m' = (targetRow, targetCol))).
Proof.
  intros Hne. unfold navigateSingle, selected. simpl.
  destruct (Z.eqb_spec (len keys) 0) as [Hzero|_].
  { by apply len_zero in Hzero. }
  destruct (Z.eqb_spec (findIndex keys (activeFacet m) 0) (-1)) as [Hnot|Hfound].
  - split_and!; [| |done|done].
    + eapply moved_trans; [apply set_activeFacet_moved|apply set_activeFacetPos_moved].
    + simpl. apply keyAt_elem_of; [done|]. pose proof (len_nonneg keys).
      destruct (Z.eq_dec (len keys) 0) as [E|]; [by apply len_zero in E|lia].
  - pose proof Hfound as Hin. apply findIndex_found in Hin.
    set (columns := gridWidth m).
    set (targetRow := int_add (Z.quot (findIndex keys (activeFacet m) 0) columns) dy).
    set (targetCol := int_add (Z.rem (findIndex keys (activeFacet m) 0) columns) dx).
    set (targetIndex := int_add (int_mul targetRow columns) targetCol).
    destruct (Z.ltb_spec targetRow 0) as [Hrow|Hrow]; simpl.
    { split_and!; [apply moved_refl|done|done|]. intros _. split; [done|lia]. }
    destruct (Z.ltb_spec targetCol 0) as [Hcol|Hcol]; simpl.
    { split_and!; [apply moved_refl|done|done|]. intros _. split; [done|lia]. }
    destruct (Z.leb_spec 0 targetIndex) as [Hlow|Hlow]; simpl.
    + destruct (Z.ltb_spec targetIndex (len keys)) as [Hhigh|Hhigh].
      * destruct (ensureActiveFacetVisible_moved
                    (set_activeFacetPos (targetRow, targetCol)
                       (set_activeFacet (keyAt keys targetIndex) m)))
          as [Hmoved Hactive].
        split_and!.
        -- eapply moved_trans; [|exact Hmoved].
           eapply moved_trans; [apply set_activeFacet_moved|apply set_activeFacetPos_moved].
        -- rewrite Hactive. simpl. by apply keyAt_elem_of.
        -- done.
        -- intros _. split; [lia|]. intros _ _ _. split; [by rewrite Hactive|].
           apply moved_dataSource in Hmoved. unfold ensureActiveFacetVisible.
           repeat case_match; done.
      * split_and!; [apply moved_refl|done|done|]. intros _. split; [done|lia].
    + split_and!; [apply moved_refl|done|done|]. intros _. split; [done|lia].
Qed.

(** The all-facets branch: a vertical move goes to the next or the previous
    key and stays at the ends; any other move changes nothing; an active facet
    that is not a key is replaced by the first key. *)
Lemma navigateAll_spec (keys : list string) (dx dy : Z) (m : model) :
  keys ≠ [] →
  let m' := navigateAll keys dx dy m in
  moved m m' ∧
  activeFacet m' ∈ keys ∧
  (selected keys m = -1 → activeFacet m' = keyAt keys 0) ∧
  (selected keys m ≠ -1 →
   (dy = 0 → m' = m) ∧
   (len keys < 2 ^ 63 → 0 < dy →
    activeFacet m' = keyAt keys (Z.min (selected keys m + 1) (len keys - 1))) ∧
   (len keys < 2 ^ 63 → dy < 0 →
    activeFacet m' = keyAt keys (Z.max (selected keys m - 1) 0))).
Proof.
  intros Hne. unfold navigateAll, selected. simpl.
  destruct (Z.eqb_spec (len keys) 0) as [Hzero|Hlen].
  { by apply len_zero in Hzero. }
  pose proof (len_nonneg keys) as Hnonneg.
  destruct (Z.eqb_spec (findIndex keys (activeFacet m) 0) (-1)) as [Hnot|Hfound].
  - destruct (updatePositionFromActiveFacet_moved
                (set_activeFacet (keyAt keys 0) m)) as [Hmoved Hactive].
    split_and!; [| |done|done].
    + eapply moved_trans; [apply set_activeFacet_moved|exact Hmoved].
    + rewrite Hactive. simpl. apply keyAt_elem_of; [done|lia].
  - pose proof Hfound as Hin. apply findIndex_found in Hin.
    pose proof Hin as Hbounds. apply findIndex_bounds in Hbounds.
    set (i := findIndex keys (activeFacet m) 0) in *.
    assert (∀ newIndex, newIndex < len keys →
              let m' := ensureActiveFacetVisible
                          (updatePositionFromActiveFacet
                             (set_activeFacet (keyAt keys newIndex) m)) in
              moved m m' ∧ activeFacet m' = keyAt keys newIndex ∧
              activeFacet m' ∈ keys) as Hcommit.
    { intros newIndex Hnew.
      destruct (updatePositionFromActiveFacet_moved
                  (set_activeFacet (keyAt keys newIndex) m)) as [Hmoved1 Hactive1].
      destruct (ensureActiveFacetVisible_moved
                  (updatePositionFromActiveFacet
                     (set_activeFacet (keyAt keys newIndex) m)))
        as [Hmoved2 Hactive2].
      simpl. rewrite Hactive2, Hactive1. simpl. split_and!; [|done|].
      - eapply moved_trans; [|exact Hmoved2].
        eapply moved_trans; [apply set_activeFacet_moved|exact Hmoved1].
      - by apply keyAt_elem_of. }
    destruct (Z.ltb_spec 0 dy) as [Hdown|Hnotdown].
    + set (newIndex := if len keys <=? int_add i 1 then int_sub (len keys) 1
                       else int_add i 1).
      assert (newIndex < len keys) as Hnew.
      { subst newIndex. destruct (Z.leb_spec (len keys) (int_add i 1)); [|done].
        unfold int_sub, wrap64.
        pose proof (Z.mod_pos_bound (len keys - 1 + 2 ^ 63) (2 ^ 64)).
        destruct (Z.le_gt_cases (2 ^ 63) (len keys)); [lia|].
        rewrite Z.mod_small; lia. }
      destruct (Hcommit newIndex Hnew) as (Hmoved & Hactive & Hkey).
      split_and!; [done|done|done|]. intros _. split_and!; [lia| |lia].
      intros Hsmall _. rewrite Hactive. f_equal. subst newIndex.
      rewrite int_add_small by lia.
      destruct (Z.leb_spec (len keys) (i + 1)).
      * unfold int_sub, wrap64. rewrite Z.mod_small by lia. lia.
      * lia.
    + destruct (Z.ltb_spec dy 0) as [Hup|Hnotup].
      * set (newIndex := if int_sub i 1 <? 0 then 0 else int_sub i 1).
        assert (int_sub i 1 = i - 1 ∨ 2 ^ 63 ≤ len keys) as Hsub.
        { destruct (Z.le_gt_cases (2 ^ 63) (len keys)); [right; lia|left].
          unfold int_sub, wrap64. rewrite Z.mod_small by lia. lia. }
        assert (newIndex < len keys) as Hnew.
        { subst newIndex. destruct (Z.ltb_spec (int_sub i 1) 0); [lia|].
          destruct Hsub as [->|Hbig]; [lia|].
          unfold int_sub, wrap64 in *.
          pose proof (Z.mod_pos_bound (i - 1 + 2 ^ 63) (2 ^ 64)). lia. }
        destruct (Hcommit newIndex Hnew) as (Hmoved & Hactive & Hkey).
        split_and!; [done|done|done|]. intros _. split_and!; [lia|lia|].
        intros Hsmall _. rewrite Hactive. f_equal. subst newIndex.
        destruct Hsub as [->|]; [|lia].
        destruct (Z.ltb_spec (i - 1) 0); lia.
      * split_and!; [apply moved_refl|done|done|]. intros _.
        split_and!; [done|lia|lia].
Qed.


(** *** The keys a view addresses *)

Lemma getSortedFacetKeys_elem_of (order : list string) (facetData : facetMap)
    (k : string) :
  rangeOf order facetData →
  k ∈ getSortedFacetKeys order facetData ↔ is_Some (facetData !! k).
Proof.
  intros Hr. rewrite getSortedFacetKeys_perm. by apply rangeOf_elem_of.
Qed.

Lemma getSortedFacetKeys_length (order : list string) (facetData : facetMap) :
  rangeOf order facetData →
  len (getSortedFacetKeys order facetData) = Z.of_nat (size facetData).
Proof.
  intros Hr. unfold len. rewrite getSortedFacetKeys_perm, Hr.
  unfold keysOf. by rewrite length_fmap, length_map_to_list.
Qed.

Lemma columnOf_lookup (ds : facetTable) (facetCol : Z) (facetData : facetMap) :
  ds !! facetCol = Some facetData → columnOf ds facetCol = facetData.
Proof. unfold columnOf. by intros ->. Qed.

Lemma allKeys_elem_of (ds : facetTable) (keys : Z → list string)
    (cols : list Z) (k : string) :
  rangeOf cols ds → keyRanges ds keys →
  k ∈ allKeys ds keys cols ↔ isKey ds k.
Proof.
  intros Hcols Hkeys. unfold allKeys, isKey.
  rewrite list_elem_of_In, in_flat_map. split.
  - intros (facetCol & Hin & Hk).
    apply list_elem_of_In, (rangeOf_elem_of _ _ _ Hcols) in Hin as [facetData Hfd].
    exists facetCol, facetData. split; [done|].
    rewrite (columnOf_lookup _ _ _ Hfd) in Hk.
    apply list_elem_of_In in Hk. by apply (getSortedFacetKeys_elem_of _ _ _ (Hkeys _ _ Hfd)).
  - intros (facetCol & facetData & Hfd & Hk). exists facetCol. split.
    + apply list_elem_of_In, (rangeOf_elem_of _ _ _ Hcols). eauto.
    + rewrite (columnOf_lookup _ _ _ Hfd). apply list_elem_of_In.
      by apply (getSortedFacetKeys_elem_of _ _ _ (Hkeys _ _ Hfd)).
Qed.

(** The loop that picks the first key returns the first ranked key of a
    column, and nothing only when no column has a key. *)
Lemma firstSortedKey_spec (ds : facetTable) (keys : Z → list string)
    (cols : list Z) :
  rangeOf cols ds → keyRanges ds keys →
  match firstSortedKey ds keys cols with
  | Some key =>
      ∃ facetCol facetData rest,
        ds !! facetCol = Some facetData ∧
        getSortedFacetKeys (keys facetCol) facetData = key :: rest
  | None => ∀ k, ¬ isKey ds k
  end.
Proof.
  intros Hcols Hkeys.
  assert (∀ visited,
            (∀ facetCol, facetCol ∈ visited → is_Some (ds !! facetCol)) →
            match firstSortedKey ds keys visited with
            | Some key =>
                ∃ facetCol facetData rest,
                  ds !! facetCol = Some facetData ∧
                  getSortedFacetKeys (keys facetCol) facetData = key :: rest
            | None =>
                ∀ facetCol, facetCol ∈ visited →
                  getSortedFacetKeys (keys facetCol) (columnOf ds facetCol) = []
            end) as Hloop.
  { induction visited as [|facetCol visited IH]; intros Hin; simpl.
    { intros c Hc. by apply elem_of_nil in Hc. }
    destruct (getSortedFacetKeys (keys facetCol) (columnOf ds facetCol))
      as [|key rest] eqn:Hsorted.
    - specialize (IH (λ c Hc, Hin c (list_elem_of_further _ _ _ Hc))).
      destruct (firstSortedKey ds keys visited); [done|].
      intros c Hc. apply elem_of_cons in Hc as [->|Hc]; [done|by apply IH].
    - destruct (Hin facetCol) as [facetData Hfd]; [by left|].
      exists facetCol, facetData, rest. split; [done|].
      by rewrite <- (columnOf_lookup _ _ _ Hfd). }
  specialize (Hloop cols (λ c Hc, proj1 (rangeOf_elem_of _ _ _ Hcols) Hc)).
  destruct (firstSortedKey ds keys cols); [done|].
  intros k (facetCol & facetData & Hfd & Hk).
  assert (facetCol ∈ cols) as Hc by (apply (rangeOf_elem_of _ _ _ Hcols); eauto).
  specialize (Hloop facetCol Hc). rewrite (columnOf_lookup _ _ _ Hfd) in Hloop.
  apply (getSortedFacetKeys_elem_of _ _ _ (Hkeys _ _ Hfd)) in Hk.
  rewrite Hloop in Hk. by apply elem_of_nil in Hk.
Qed.

Lemma iterates_ranges (it : iteration) (ds : facetTable) :
  iterates it ds →
  rangeOf (rangeCols it) ds ∧ keyRanges ds (rangeKeys it) ∧
  rangeOf (rangeAll it) ds ∧ keyRanges ds (rangeKeysAll it).
Proof.
  intros (Hcols & Hall & Hkeys). split_and!; [done| |done|];
    intros c fd Hfd; by destruct (Hkeys c fd Hfd).
Qed.

(** *** [navigateGrid] *)

(** In the single-facet view a move is the single-facet branch on the ranked
    keys of the column shown. *)
Lemma navigateGrid_single (it : iteration) (dx dy : Z) (m : model)
    (facetData : facetMap) :
  0 < facet m → dataSource m !! facet m = Some facetData →
  navigateGrid it dx dy m = navigateSingle (singleKeys it m) dx dy m.
Proof.
  intros Hfacet Hfd. unfold navigateGrid, singleKeys.
  destruct (Z.eqb_spec (facet m) 0); [lia|].
  destruct (Z.ltb_spec 0 (facet m)); [|lia].
  by rewrite Hfd, (columnOf_lookup _ _ _ Hfd).
Qed.

(** In the all-facets view a move first makes the first key of a column
    active when no facet is active, then it is the all-facets branch on the
    address list. *)
Lemma navigateGrid_all (it : iteration) (dx dy : Z) (m : model) :
  facet m = 0 → iterates it (dataSource m) →
  (∃ k, isKey (dataSource m) k) →
  let m' := navigateGrid it dx dy m in
  moved m m' ∧ activeFacet m' ∈ aggregateKeys it m ∧
  (activeFacet m ≠ EmptyString →
   m' = navigateAll (aggregateKeys it m) dx dy m).
Proof.
  intros Hfacet Hit [k0 Hk0].
  destruct (iterates_ranges _ _ Hit) as (Hcols & Hkeys & Hall & HkeysAll).
  assert (aggregateKeys it m ≠ []) as Hne.
  { intros E. apply (allKeys_elem_of _ _ _ k0 Hall HkeysAll) in Hk0.
    unfold aggregateKeys in E. rewrite E in Hk0. by apply elem_of_nil in Hk0. }
  unfold navigateGrid. fold (aggregateKeys it m).
  destruct (Z.eqb_spec (facet m) 0); [|lia].
  destruct (String.eqb_spec (activeFacet m) EmptyString) as [Hempty|Hactive].
  - pose proof (firstSortedKey_spec _ _ _ Hcols Hkeys) as Hfirst.
    destruct (firstSortedKey (dataSource m) (rangeKeys it) (rangeCols it))
      as [key|]; [|by destruct (Hfirst k0)].
    destruct Hfirst as (facetCol & facetData & rest & Hfd & Hsorted).
    assert (key ∈ aggregateKeys it m) as Hkey.
    { apply (allKeys_elem_of _ _ _ _ Hall HkeysAll).
      exists facetCol, facetData. split; [done|].
      apply (getSortedFacetKeys_elem_of _ _ _ (Hkeys _ _ Hfd)).
      rewrite Hsorted. by left. }
    simpl. split_and!; [| |done].
    + destruct (String.eqb key EmptyString); [apply set_activeFacet_moved|].
      eapply moved_trans; [apply set_activeFacet_moved|].
      destruct (navigateAll_spec (aggregateKeys it m) dx dy
                  (set_activeFacet key m) Hne) as (Hmoved & _). exact Hmoved.
    + destruct (String.eqb key EmptyString); [done|].
      by destruct (navigateAll_spec (aggregateKeys it m) dx dy
                     (set_activeFacet key m) Hne) as (_ & Hin & _).
  - destruct (navigateAll_spec (aggregateKeys it m) dx dy m Hne)
      as (Hmoved & Hin & _).
    apply String.eqb_neq in Hactive. rewrite Hactive. done.
Qed.


Lemma size_pos_keys (order : list string) (facetData : facetMap) :
  rangeOf order facetData → (0 < size facetData)%nat →
  getSortedFacetKeys order facetData ≠ [].
Proof.
  intros Hr Hsize E. pose proof (getSortedFacetKeys_length _ _ Hr) as Hlen.
  rewrite E in Hlen. unfold len in Hlen. simpl in Hlen. lia.
Qed.

(** Runs of moves in the single-facet view keep the active facet among the
    keys of the column shown. *)
Lemma navigateMoves_single (moves : list (iteration * (Z * Z))) (m : model)
    (facetData : facetMap) :
  0 < facet m → dataSource m !! facet m = Some facetData →
  (0 < size facetData)%nat →
  Forall (λ move, iterates move.1 (dataSource m)) moves →
  moves ≠ [] ∨ is_Some (facetData !! activeFacet m) →
  moved m (navigateMoves moves m) ∧
  is_Some (facetData !! activeFacet (navigateMoves moves m)).
Proof.
  intros Hfacet Hfd Hsize Hmoves. revert m Hfacet Hfd Hmoves.
  induction moves as [|[it [dx dy]] moves IH]; intros m Hfacet Hfd Hmoves Hstart.
  { simpl. split; [apply moved_refl|]. by destruct Hstart. }
  apply Forall_cons in Hmoves as [Hit Hmoves]. simpl in Hit |- *.
  destruct (iterates_ranges _ _ Hit) as (_ & Hkeys & _).
  specialize (Hkeys _ _ Hfd).
  rewrite (navigateGrid_single it dx dy m facetData Hfacet Hfd).
  assert (singleKeys it m ≠ []) as Hne.
  { unfold singleKeys. rewrite (columnOf_lookup _ _ _ Hfd). by apply size_pos_keys. }
  destruct (navigateSingle_spec (singleKeys it m) dx dy m Hne) as (Hmoved & Hin & _).
  destruct (moved_dataSource _ _ Hmoved) as [Hds Hf].
  destruct (IH (navigateSingle (singleKeys it m) dx dy m)) as [Hmoved' Hkey].
  - by rewrite Hf.
  - by rewrite Hds, Hf.
  - by rewrite Hds.
  - right. apply (getSortedFacetKeys_elem_of _ _ _ Hkeys).
    unfold singleKeys in Hin at 2. by rewrite (columnOf_lookup _ _ _ Hfd) in Hin.
  - split; [by eapply moved_trans|done].
Qed.

(** Runs of moves in the all-facets view keep the active facet among the
    keys of the table. *)
Lemma navigateMoves_all (moves : list (iteration * (Z * Z))) (m : model) :
  facet m = 0 → (∃ k, isKey (dataSource m) k) →
  Forall (λ move, iterates move.1 (dataSource m)) moves →
  moves ≠ [] ∨ isKey (dataSource m) (activeFacet m) →
  moved m (navigateMoves moves m) ∧
  isKey (dataSource m) (activeFacet (navigateMoves moves m)).
Proof.
  intros Hfacet Hkeys Hmoves. revert m Hfacet Hkeys Hmoves.
  induction moves as [|[it [dx dy]] moves IH]; intros m Hfacet Hkeys Hmoves Hstart.
  { simpl. split; [apply moved_refl|]. by destruct Hstart. }
  apply Forall_cons in Hmoves as [Hit Hmoves]. simpl in Hit |- *.
  destruct (navigateGrid_all it dx dy m Hfacet Hit Hkeys) as (Hmoved & Hin & _).
  destruct (iterates_ranges _ _ Hit) as (_ & _ & Hall & HkeysAll).
  apply (allKeys_elem_of _ _ _ _ Hall HkeysAll) in Hin.
  destruct (moved_dataSource _ _ Hmoved) as [Hds Hf].
  destruct (IH (navigateGrid it dx dy m)) as [Hmoved' Hkey].
  - by rewrite Hf.
  - by rewrite Hds.
  - by rewrite Hds.
  - right. by rewrite Hds.
  - split; [by eapply moved_trans|]. by rewrite Hds in Hkey.
Qed.

(** C5, as the code has it.  Single-facet view, a column of N ≥ 1 keys: after
    any run of moves the active facet has an index within [0, N-1] in the
    ranked keys; a move from a selected index whose candidate has a negative
    row or column or a linear index of N or more is rejected and leaves the
    model as it is, any other candidate becomes the selection.  All-facets
    view: after any run of moves the active facet has an index within the
    address list; from a selection that is in the list, a move down goes to
    the next index and a move up to the previous one, clamped to the ends, and
    a horizontal move changes nothing.  (A move made while the active facet is
    empty or not in the list, a horizontal one included, selects the first
    key.) *)
Theorem navigation_bounds :
  (∀ moves m facetData it,
     0 < facet m → dataSource m !! facet m = Some facetData →
     (0 < size facetData)%nat →
     Forall (λ move, iterates move.1 (dataSource m)) moves →
     iterates it (dataSource m) →
     moves ≠ [] ∨ is_Some (facetData !! activeFacet m) →
     let m' := navigateMoves moves m in
     len (singleKeys it m') = Z.of_nat (size facetData) ∧
     0 ≤ selected (singleKeys it m') m' < len (singleKeys it m')) ∧
  (∀ it dx dy m facetData,
     0 < facet m → dataSource m !! facet m = Some facetData →
     (0 < size facetData)%nat → iterates it (dataSource m) →
     selected (singleKeys it m) m ≠ -1 →
     let keys := singleKeys it m in
     let columns := gridWidth m in
     let targetRow := int_add (Z.quot (selected keys m) columns) dy in
     let targetCol := int_add (Z.rem (selected keys m) columns) dx in
     let targetIndex := int_add (int_mul targetRow columns) targetCol in
     let m' := navigateGrid it dx dy m in
     (targetRow < 0 ∨ targetCol < 0 ∨ len keys ≤ targetIndex → m' = m) ∧
     (0 ≤ targetRow → 0 ≤ targetCol → 0 ≤ targetIndex < len keys →
      activeFacet m' = keyAt keys targetIndex)) ∧
  (∀ moves m it,
     facet m = 0 → (∃ k, isKey (dataSource m) k) →
     Forall (λ move, iterates move.1 (dataSource m)) moves →
     iterates it (dataSource m) →
     moves ≠ [] ∨ isKey (dataSource m) (activeFacet m) →
     let m' := navigateMoves moves m in
     0 ≤ selected (aggregateKeys it m') m' < len (aggregateKeys it m')) ∧
  (∀ it dx dy m,
     facet m = 0 → iterates it (dataSource m) →
     activeFacet m ≠ EmptyString → selected (aggregateKeys it m) m ≠ -1 →
     len (aggregateKeys it m) < 2 ^ 63 →
     let keys := aggregateKeys it m in
     let m' := navigateGrid it dx dy m in
     (0 < dy →
      activeFacet m' = keyAt keys (Z.min (selected keys m + 1) (len keys - 1))) ∧
     (dy < 0 → activeFacet m' = keyAt keys (Z.max (selected keys m - 1) 0)) ∧
     (dy = 0 → m' = m)).
Proof.
  split_and!.
  - intros moves m facetData it Hfacet Hfd Hsize Hmoves Hit Hstart m'.
    destruct (navigateMoves_single moves m facetData Hfacet Hfd Hsize Hmoves Hstart)
      as [Hmoved Hkey].
    fold m' in Hmoved, Hkey. destruct (moved_dataSource _ _ Hmoved) as [Hds Hf].
    destruct (iterates_ranges _ _ Hit) as (_ & Hkeys & _).
    specialize (Hkeys _ _ Hfd).
    unfold singleKeys, selected. rewrite Hds, Hf, (columnOf_lookup _ _ _ Hfd).
    split; [by apply getSortedFacetKeys_length|].
    apply findIndex_bounds. by apply (getSortedFacetKeys_elem_of _ _ _ Hkeys).
  - intros it dx dy m facetData Hfacet Hfd Hsize Hit Hsel keys columns targetRow
      targetCol targetIndex m'.
    destruct (iterates_ranges _ _ Hit) as (_ & Hkeys & _).
    specialize (Hkeys _ _ Hfd).
    assert (keys ≠ []) as Hne.
    { subst keys. unfold singleKeys. rewrite (columnOf_lookup _ _ _ Hfd).
      by apply size_pos_keys. }
    subst m'. rewrite (navigateGrid_single it dx dy m facetData Hfacet Hfd).
    fold keys.
    destruct (navigateSingle_spec keys dx dy m Hne) as (_ & _ & _ & Hmove).
    destruct (Hmove Hsel) as [Hreject Hcommit]. split.
    + intros H. apply Hreject. fold columns targetRow targetCol targetIndex. lia.
    + intros Hrow Hcol Hindex. by apply Hcommit.
  - intros moves m it Hfacet Hkeys Hmoves Hit Hstart m'.
    destruct (navigateMoves_all moves m Hfacet Hkeys Hmoves Hstart) as [Hmoved Hkey].
    fold m' in Hmoved, Hkey. destruct (moved_dataSource _ _ Hmoved) as [Hds Hf].
    destruct (iterates_ranges _ _ Hit) as (_ & _ & Hall & HkeysAll).
    unfold aggregateKeys, selected. rewrite Hds.
    apply findIndex_bounds. by apply (allKeys_elem_of _ _ _ _ Hall HkeysAll).
  - intros it dx dy m Hfacet Hit Hactive Hsel Hlen keys m'.
    assert (∃ k, isKey (dataSource m) k) as Hkeys.
    { exists (activeFacet m).
      destruct (iterates_ranges _ _ Hit) as (_ & _ & Hall & HkeysAll).
      apply (allKeys_elem_of _ _ _ _ Hall HkeysAll). by apply findIndex_found. }
    destruct (navigateGrid_all it dx dy m Hfacet Hit Hkeys) as (_ & _ & Hnav).
    subst m'. rewrite (Hnav Hactive). fold keys.
    assert (keys ≠ []) as Hne.
    { intros E. apply findIndex_found in Hsel. fold keys in Hsel. rewrite E in Hsel.
      by apply elem_of_nil in Hsel. }
    destruct (navigateAll_spec keys dx dy m Hne) as (_ & _ & _ & Hmove).
    destruct (Hmove Hsel) as (Hstay & Hdown & Hup). split_and!; auto.
Qed.


(** Three moves in column 1 of the scenario (two keys). *)
Lemma navigation_bounds_witness :
  let moves := [(exampleIteration, (1, 0)); (exampleIterationDescending, (0, 1));
                (exampleIteration, (-1, 0))] in
  let m' := navigateMoves moves column1Model in
  iterates exampleIteration (dataSource column1Model) ∧
  iterates exampleIterationDescending (dataSource column1Model) ∧
  len (singleKeys exampleIteration m') = 2 ∧
  0 ≤ selected (singleKeys exampleIteration m') m'
    < len (singleKeys exampleIteration m').
Proof.
  intros moves m'.
  assert (iterates exampleIteration (dataSource column1Model)) as Hit
    by by_computation.
  assert (iterates exampleIterationDescending (dataSource column1Model)) as Hit'
    by by_computation.
  split; [exact Hit|]. split; [exact Hit'|].
  destruct navigation_bounds as (Hsingle & _).
  apply (Hsingle moves column1Model (columnOf (dataSource column1Model) 1)
           exampleIteration).
  - by vm_compute.
  - vm_compute; reflexivity.
  - vm_compute; lia.
  - repeat (apply List.Forall_cons; [simpl; assumption|]). apply List.Forall_nil.
  - exact Hit.
  - by left.
Defined.

(** C5 as stated fails on a horizontal move made while no facet is active,
    as after start-up: "left" in the all-facets view selects the first key. *)
Lemma horizontal_move_selects_first_key :
  facet loadedModel = 0 ∧ activeFacet loadedModel = EmptyString ∧
  iterates exampleIteration (dataSource loadedModel) ∧
  activeFacet (navigateGrid exampleIteration (-1) 0 loadedModel) = "red" ∧
  activeFacet <$> Update asciiTrimSpace exampleParseFloat exampleIteration
                    (KeyMsg KeyLeft) loadedModel = Some "red".
Proof.
  split_and!; try (vm_compute; reflexivity). by_computation.
Qed.

(** C6 on a concrete input: the address list of the all-facets view follows
    the order in which the loop over the columns visits them.  When column 2
    is visited first the list starts with the keys of column 2, and "down"
    from "blue" stays at "blue", the last address, instead of moving on to the
    first key of column 2. *)
Lemma aggregate_list_follows_range :
  iterates exampleIteration (dataSource blueModel) ∧
  iterates exampleIterationDescending (dataSource blueModel) ∧
  aggregateKeys exampleIteration blueModel
    = ["red"; "blue"; "san jose"; "seattle"] ∧
  aggregateKeys exampleIterationDescending blueModel
    = ["san jose"; "seattle"; "red"; "blue"] ∧
  activeFacet blueModel = "blue" ∧
  activeFacet (navigateGrid exampleIteration 0 1 blueModel) = "san jose" ∧
  activeFacet (navigateGrid exampleIterationDescending 0 1 blueModel) = "blue".
Proof.
  split_and!; try (vm_compute; reflexivity); by_computation.
Qed.


(** ** View switches *)

(** [resetActiveFacet] resets without looking at the active facet: to the
    first ranked key of a column in the all-facets view (to the empty string
    when the table has no key), to the first ranked key of the column shown in
    the single-facet view (the active facet is kept when that column is absent
    or empty). *)
Lemma resetActiveFacet_spec (it : iteration) (m : model) :
  rangeOf (rangeCols it) (dataSource m) →
  keyRanges (dataSource m) (rangeKeys it) →
  let m' := resetActiveFacet it m in
  moved m m' ∧
  (facet m = 0 →
   (activeFacet m' = EmptyString ∧ ∀ k, ¬ isKey (dataSource m) k) ∨
   (∃ facetCol facetData rest,
      dataSource m !! facetCol = Some facetData ∧
      getSortedFacetKeys (rangeKeys it facetCol) facetData
        = activeFacet m' :: rest)) ∧
  (facet m ≠ 0 →
   match dataSource m !! facet m with
   | Some facetData =>
       match getSortedFacetKeys (rangeKeys it (facet m)) facetData with
       | key :: _ => activeFacet m' = key
       | [] => activeFacet m' = activeFacet m
       end
   | None => activeFacet m' = activeFacet m
   end).
Proof.
  intros Hcols Hkeys. unfold resetActiveFacet.
  destruct (Z.eqb_spec (facet m) 0) as [Hall|Hsingle].
  - pose proof (firstSortedKey_spec _ _ _ Hcols Hkeys) as Hfirst.
    replace (dataSource (set_activeFacetPos (0, 0) (set_activeFacet EmptyString m)))
      with (dataSource m) by by destruct m.
    destruct (firstSortedKey (dataSource m) (rangeKeys it) (rangeCols it)) as [key|].
    + split_and!; [|by intros _; right|done].
      eapply moved_trans; [|apply set_activeFacet_moved].
      eapply moved_trans; [apply set_activeFacet_moved|apply set_activeFacetPos_moved].
    + split_and!; [|by intros _; left|done].
      eapply moved_trans; [apply set_activeFacet_moved|apply set_activeFacetPos_moved].
  - replace (dataSource (set_activeFacetPos (0, 0) m)) with (dataSource m)
      by by destruct m.
    replace (facet (set_activeFacetPos (0, 0) m)) with (facet m) by by destruct m.
    simpl. destruct (dataSource m !! facet m) as [facetData|].
    + destruct (getSortedFacetKeys (rangeKeys it (facet m)) facetData) as [|key rest].
      * split_and!; [apply set_activeFacetPos_moved|done|done].
      * split_and!; [|done|done].
        eapply moved_trans; [apply set_activeFacetPos_moved|apply set_activeFacet_moved].
    + split_and!; [apply set_activeFacetPos_moved|done|done].
Qed.

(** C9, as the code has it: a switch of the view ("0", or "a" or "d" when
    they change the column) always resets the active facet, whether or not it
    still resolves: in the all-facets view to the first ranked key of a column
    (to the empty string when the data source has no key), in a single-facet
    view to the first ranked key of the column shown (it is kept only when
    that column is absent or has no key); a pin toggle never changes the active
    facet. *)
Theorem view_switch_resets (TrimSpace : string → string)
    (ParseFloat : string → option float) (it : iteration) (m : model) :
  rangeOf (rangeCols it) (dataSource m) →
  keyRanges (dataSource m) (rangeKeys it) →
  (∀ k, k = KeyA ∨ k = KeyD ∨ k = KeyZero →
     ∃ m', Update TrimSpace ParseFloat it (KeyMsg k) m = Some m' ∧
           dataSource m' = dataSource m ∧
           (k = KeyZero ∨ facet m' ≠ facet m →
            (facet m' = 0 →
             (activeFacet m' = EmptyString ∧ ∀ key, ¬ isKey (dataSource m) key) ∨
             (∃ facetCol facetData rest,
                dataSource m !! facetCol = Some facetData ∧
                getSortedFacetKeys (rangeKeys it facetCol) facetData
                  = activeFacet m' :: rest)) ∧
            (facet m' ≠ 0 →
             match dataSource m !! facet m' with
             | Some facetData =>
                 match getSortedFacetKeys (rangeKeys it (facet m')) facetData with
                 | key :: _ => activeFacet m' = key
                 | [] => activeFacet m' = activeFacet m
                 end
             | None => activeFacet m' = activeFacet m
             end))) ∧
  (∀ m', Update TrimSpace ParseFloat it (KeyMsg KeyEnter) m = Some m' →
         activeFacet m' = activeFacet m).
Proof.
  intros Hcols Hkeys.
  assert (∀ f,
            let m' := resetActiveFacet it (set_scrollOffset 0 (set_facet f m)) in
            dataSource m' = dataSource m ∧ facet m' = f ∧
            (facet m' = 0 →
             (activeFacet m' = EmptyString ∧ ∀ key, ¬ isKey (dataSource m) key) ∨
             (∃ facetCol facetData rest,
                dataSource m !! facetCol = Some facetData ∧
                getSortedFacetKeys (rangeKeys it facetCol) facetData
                  = activeFacet m' :: rest)) ∧
            (facet m' ≠ 0 →
             match dataSource m !! facet m' with
             | Some facetData =>
                 match getSortedFacetKeys (rangeKeys it (facet m')) facetData with
                 | key :: _ => activeFacet m' = key
                 | [] => activeFacet m' = activeFacet m
                 end
             | None => activeFacet m' = activeFacet m
             end)) as Hreset.
  { intros f. cbv zeta. set (m1 := set_scrollOffset 0 (set_facet f m)).
    assert (dataSource m1 = dataSource m ∧ facet m1 = f ∧
            activeFacet m1 = activeFacet m) as (Hds1 & Hf1 & Ha1) by by destruct m.
    destruct (resetActiveFacet_spec it m1) as (Hmoved & Hall & Hsingle).
    { by rewrite Hds1. } { by rewrite Hds1. }
    destruct (moved_dataSource _ _ Hmoved) as [Hds Hf].
    rewrite Hds1 in Hds, Hall, Hsingle. rewrite Hf1 in Hf, Hall, Hsingle.
    rewrite Ha1 in Hsingle. rewrite Hf.
    split_and!; [done|done|done|done]. }
  assert (∀ k, k ≠ KeyZero →
            ∃ m', Some m = Some m' ∧ dataSource m' = dataSource m ∧
                  (k = KeyZero ∨ facet m' ≠ facet m →
                   (facet m' = 0 →
                    (activeFacet m' = EmptyString ∧
                     ∀ key, ¬ isKey (dataSource m) key) ∨
                    (∃ facetCol facetData rest,
                       dataSource m !! facetCol = Some facetData ∧
                       getSortedFacetKeys (rangeKeys it facetCol) facetData
                         = activeFacet m' :: rest)) ∧
                   (facet m' ≠ 0 →
                    match dataSource m !! facet m' with
                    | Some facetData =>
                        match getSortedFacetKeys (rangeKeys it (facet m'))
                                facetData with
                        | key :: _ => activeFacet m' = key
                        | [] => activeFacet m' = activeFacet m
                        end
                    | None => activeFacet m' = activeFacet m
                    end))) as Hsame.
  { intros k Hk. exists m. split_and!; [done|done|]. by intros [?|?]. }
  assert (∀ k f,
            ∃ m', Some (resetActiveFacet it (set_scrollOffset 0 (set_facet f m)))
                    = Some m' ∧ dataSource m' = dataSource m ∧
                  (k = KeyZero ∨ facet m' ≠ facet m →
                   (facet m' = 0 →
                    (activeFacet m' = EmptyString ∧
                     ∀ key, ¬ isKey (dataSource m) key) ∨
                    (∃ facetCol facetData rest,
                       dataSource m !! facetCol = Some facetData ∧
                       getSortedFacetKeys (rangeKeys it facetCol) facetData
                         = activeFacet m' :: rest)) ∧
                   (facet m' ≠ 0 →
                    match dataSource m !! facet m' with
                    | Some facetData =>
                        match getSortedFacetKeys (rangeKeys it (facet m'))
                                facetData with
                        | key :: _ => activeFacet m' = key
                        | [] => activeFacet m' = activeFacet m
                        end
                    | None => activeFacet m' = activeFacet m
                    end))) as Hswitch.
  { intros k f. destruct (Hreset f) as (Hds & _ & Hall & Hsingle).
    eexists. split_and!; [done|done|]. by intros _. }
  split.
  - intros k Hk. destruct Hk as [Hk|[Hk|Hk]]; subst k; simpl.
    + destruct (0 <? facet m); [apply Hswitch|by apply Hsame].
    + destruct ((facet m =? 0) && (0 <? maxFacet (rangeAll it))); [apply Hswitch|].
      destruct (facet m <? maxFacet (rangeAll it)); [apply Hswitch|by apply Hsame].
    + apply Hswitch.
  - intros m' Hrun. simpl in Hrun. unfold togglePin in Hrun.
    destruct (String.eqb (activeFacet m) EmptyString); [by injection Hrun as <-|].
    revert Hrun.
    set (m1 := if default false (pinnedFacets m !! activeFacet m) then _ else _).
    assert (activeFacet m1 = activeFacet m) as Hm1.
    { subst m1. repeat case_match; done. }
    simpl. case_match.
    + intros Hrun. apply regenerateFilteredData_frame in Hrun. rewrite Hrun. done.
    + by intros [= <-].
Qed.

(** From column 1 of the scenario back to all facets. *)
Lemma view_switch_resets_witness :
  rangeOf (rangeCols exampleIteration) (dataSource blueColumn1Model) ∧
  keyRanges (dataSource blueColumn1Model) (rangeKeys exampleIteration) ∧
  ∃ m', Update asciiTrimSpace exampleParseFloat exampleIteration (KeyMsg KeyZero)
          blueColumn1Model = Some m' ∧
        dataSource m' = dataSource blueColumn1Model.
Proof.
  assert (rangeOf (rangeCols exampleIteration) (dataSource blueColumn1Model))
    as Hcols by by_computation.
  assert (keyRanges (dataSource blueColumn1Model) (rangeKeys exampleIteration))
    as Hkeys.
  { assert (iterates exampleIteration (dataSource blueColumn1Model)) as Hit
      by by_computation.
    by destruct (iterates_ranges _ _ Hit) as (_ & ? & _). }
  split; [exact Hcols|]. split; [exact Hkeys|].
  destruct (view_switch_resets asciiTrimSpace exampleParseFloat exampleIteration
              blueColumn1Model Hcols Hkeys) as [Hswitch _].
  destruct (Hswitch KeyZero) as (m' & Hrun & Hds & _); [auto|].
  exists m'. split; [exact Hrun|exact Hds].
Defined.

(** C9 as stated fails: with "blue" active in column 1, the switch to the
    all-facets view makes "red" active although "blue" still resolves to a
    key of the data source shown. *)
Lemma view_switch_resets_resolving_selection :
  facet blueColumn1Model = 1 ∧ activeFacet blueColumn1Model = "blue" ∧
  iterates exampleIteration (dataSource blueColumn1Model) ∧
  is_Some (columnOf (dataSource blueColumn1Model) 1 !! "blue") ∧
  (λ m', (facet m', activeFacet m', dataSource m'))
    <$> Update asciiTrimSpace exampleParseFloat exampleIteration
          (KeyMsg KeyZero) blueColumn1Model
    = Some (0, "red", dataSource blueColumn1Model).
Proof.
  split_and!; try (vm_compute; reflexivity); [by_computation|].
  vm_compute. eauto.
Qed.


(** ** The reachable states *)

Lemma addFacets_columns (value : float) (facets : list string) (index : Z)
    (targetData : facetTable) :
  1 ≤ index →
  (∀ facetCol facetData, targetData !! facetCol = Some facetData → 1 ≤ facetCol) →
  ∀ facetCol facetData,
    addFacets value facets index targetData !! facetCol = Some facetData →
    1 ≤ facetCol.
Proof.
  revert index targetData.
  induction facets as [|facet facets IH]; intros index targetData Hindex Hcols;
    simpl; [done|].
  apply IH; [lia|]. intros facetCol facetData.
  destruct (decide (index = facetCol)) as [<-|Hne].
  - done.
  - rewrite lookup_insert_ne by done. apply Hcols.
Qed.

Lemma valid_moved (m m' : model) : moved m m' → valid m → valid m'.
Proof. unfold moved. intros ->. by destruct m. Qed.

Lemma navigateGrid_moved (it : iteration) (dx dy : Z) (m : model) :
  moved m (navigateGrid it dx dy m).
Proof.
  assert (∀ keys m0, moved m0 (navigateAll keys dx dy m0)) as Hall.
  { intros keys m0. destruct keys as [|key keys]; [apply moved_refl|].
    by destruct (navigateAll_spec (key :: keys) dx dy m0) as [? _]. }
  assert (∀ keys m0, moved m0 (navigateSingle keys dx dy m0)) as Hsingle.
  { intros keys m0. destruct keys as [|key keys]; [apply moved_refl|].
    by destruct (navigateSingle_spec (key :: keys) dx dy m0) as [? _]. }
  unfold navigateGrid.
  repeat case_match; try apply moved_refl; try done;
    try apply set_activeFacet_moved;
    eapply moved_trans; [apply set_activeFacet_moved|apply Hall].
Qed.

Lemma resetActiveFacet_moved (it : iteration) (m : model) :
  moved m (resetActiveFacet it m).
Proof.
  unfold resetActiveFacet. repeat case_match;
    repeat (first [apply set_activeFacetPos_moved | apply set_activeFacet_moved
                  | eapply moved_trans; [|apply set_activeFacet_moved]
                  | eapply moved_trans; [|apply set_activeFacetPos_moved]]).
Qed.

Lemma scanColumns_column (full : facetTable) (value : string) (cols : list Z)
    (facetCol : Z) :
  scanColumns full value cols = Some facetCol → is_Some (full !! facetCol).
Proof.
  induction cols as [|c cols IH]; simpl; [done|].
  unfold columnOf. destruct (full !! c) as [facetData|] eqn:Hc; simpl.
  - destruct (facetData !! value); [|done]. intros [= <-]. by rewrite Hc.
  - by rewrite lookup_empty.
Qed.

Section Reachable.

Variable TrimSpace : string → string.
Variable ParseFloat : string → option float.

Lemma processLine_valid (line : string) (m : model) :
  valid m →
  ∃ m', processLine TrimSpace ParseFloat line m = Some m' ∧ valid m'.
Proof.
  intros [Hpins Hcols]. unfold processLine.
  set (m0 := set_storedLines (storedLines m ++ [line]) m).
  assert (∃ m1, processLineWithFilter TrimSpace ParseFloat line false m0 = Some m1 ∧
                valid m1) as (m1 & -> & Hvalid1).
  { destruct (String.eqb_spec (TrimSpace line) EmptyString) as [Hblank|Hline].
    - rewrite blank_line_ignored by done. by exists m0.
    - rewrite processLineWithFilter_unfiltered by done. eexists. split; [done|].
      destruct (ParseFloat _); split; simpl; try done.
      by apply addFacets_columns. }
  simpl. destruct (isFiltered m1); [|by exists m1].
  destruct Hvalid1 as [Hpins1 Hcols1].
  destruct (processLineWithFilter_total TrimSpace ParseFloat line m1 Hpins1)
    as [m2 Hrun].
  exists m2. split; [done|].
  apply processLineWithFilter_frame in Hrun. rewrite Hrun. by split.
Qed.

Lemma drain_valid (available : list string) (m : model) :
  valid m → ∃ m', drain TrimSpace ParseFloat available m = Some m' ∧ valid m'.
Proof.
  revert m. induction available as [|line available IH]; intros m Hvalid; simpl.
  { by exists m. }
  destruct (processLine_valid line m Hvalid) as (m1 & -> & Hvalid1). simpl.
  by apply IH.
Qed.

Lemma togglePin_valid (it : iteration) (m : model) :
  valid m → ∃ m', togglePin TrimSpace ParseFloat it m = Some m' ∧ valid m'.
Proof.
  intros [Hpins Hcols]. unfold togglePin.
  destruct (String.eqb (activeFacet m) EmptyString); [by exists m|].
  set (m1 := if default false (pinnedFacets m !! activeFacet m) then _ else _).
  assert (valid m1) as [Hpins1 Hcols1].
  { subst m1. repeat case_match; split; simpl; try done.
    - intros v c Hv. apply lookup_delete_Some in Hv as [_ Hv]. by apply (Hpins v).
    - intros v c Hv. apply lookup_insert_Some in Hv as [[_ <-]|[_ Hv]];
        [lia|by apply (Hpins v)].
    - intros v c Hv. apply lookup_insert_Some in Hv as [[_ <-]|[_ Hv]];
        [|by apply (Hpins v)].
      match goal with H : scanColumns _ _ _ = Some _ |- _ =>
        apply scanColumns_column in H as [facetData Hfd] end.
      specialize (Hcols _ _ Hfd). lia. }
  set (m2 := set_isFiltered _ m1).
  assert (valid m2) as [Hpins2 Hcols2] by (by split).
  destruct (isFiltered m2); [|by exists m2].
  destruct (regenerateFilteredData_total TrimSpace ParseFloat m2 Hpins2)
    as [m3 Hrun].
  exists m3. split; [done|].
  apply regenerateFilteredData_frame in Hrun. rewrite Hrun. by split.
Qed.

Lemma Update_valid (it : iteration) (message : msg) (m : model) :
  valid m →
  ∃ m', Update TrimSpace ParseFloat it message m = Some m' ∧ valid m'.
Proof.
  intros Hvalid.
  assert (∀ f, valid (resetActiveFacet it (set_scrollOffset 0 (set_facet f m))))
    as Hreset.
  { intros f. eapply valid_moved; [apply resetActiveFacet_moved|].
    destruct Hvalid. by split. }
  assert (∀ dx dy, valid (navigateGrid it dx dy m)) as Hmove.
  { intros dx dy. eapply valid_moved; [apply navigateGrid_moved|done]. }
  destruct message as [available|width height|k]; simpl.
  - by apply drain_valid.
  - eexists. split; [done|]. destruct Hvalid. by split.
  - destruct k; try (eexists; split; [done|]; (done || by destruct Hvalid)).
    + destruct (0 <? facet m); eexists; (split; [done|]); done.
    + repeat case_match; eexists; (split; [done|]); done.
    + by apply togglePin_valid.
Qed.

Lemma runUpdates_valid (steps : list (iteration * msg)) (m : model) :
  valid m →
  ∃ m', runUpdates TrimSpace ParseFloat steps m = Some m' ∧ valid m'.
Proof.
  revert m. induction steps as [|[it message] steps IH]; intros m Hvalid; simpl.
  { by exists m. }
  destruct (Update_valid it message m Hvalid) as (m1 & -> & Hvalid1). simpl.
  by apply IH.
Qed.

End Reachable.



(** ** The scenario of the specification *)

(** The four records of the scenario: column 1 groups the observations by
    colour, "red" (mean 12.85) ranks before "blue" (mean 10.4), and with "red"
    pinned under column 1 the filtered table keeps the two records of "red". *)
Lemma end_to_end_scenario :
  exampleLoaded = Some loadedModel ∧
  facetsData loadedModel !! 1 =
    Some {[ "red" := [10.5; 15.2]%float; "blue" := [8.7; 12.1]%float ]} ∧
  totalLogCount loadedModel = 4 ∧
  getSortedFacetKeys (keysOf (columnOf (facetsData loadedModel) 1))
    (columnOf (facetsData loadedModel) 1) = ["red"; "blue"] ∧
  examplePinned = Some pinnedModel ∧
  pinnedFacets pinnedModel = {[ "red" := true ]} ∧
  pinnedFacetsColumn pinnedModel = {[ "red" := 1 ]} ∧
  isFiltered pinnedModel = true ∧
  filteredData pinnedModel !! 2 =
    Some {[ "seattle" := [10.5%float]; "san jose" := [15.2%float] ]} ∧
  facetsData pinnedModel = facetsData loadedModel.
Proof. split_and!; vm_compute; reflexivity. Qed.


(** ** The data path *)

(** The column [facetCol] of the table after [addFacets]: the sample is
    appended under the field the record has in that column. *)
Lemma addFacets_column (value : float) (facets : list string) (index : Z)
    (targetData : facetTable) (facetCol : Z) :
  columnOf (addFacets value facets index targetData) facetCol =
    match fieldOf facets index facetCol with
    | Some k =>
        <[k := samplesOf (columnOf targetData facetCol) k ++ [value]]>
          (columnOf targetData facetCol)
    | None => columnOf targetData facetCol
    end.
Proof.
  revert index targetData.
  induction facets as [|facet facets IH]; intros index targetData; simpl.
  { unfold fieldOf. by destruct (index <=? facetCol). }
  rewrite IH. unfold fieldOf.
  destruct (decide (facetCol = index)) as [->|Hne].
  - rewrite (proj2 (Z.leb_gt _ _)) by lia.
    rewrite Z.leb_refl, Z.sub_diag. simpl.
    unfold columnOf at 1. by rewrite lookup_insert_eq.
  - assert (columnOf (<[index:=<[facet:=samplesOf (default ∅ (targetData !! index)) facet
                                          ++ [value]]> (default ∅ (targetData !! index))]>
                        targetData) facetCol = columnOf targetData facetCol) as ->.
    { unfold columnOf. by rewrite lookup_insert_ne. }
    destruct (Z.leb_spec (index + 1) facetCol), (Z.leb_spec index facetCol);
      try lia; [|done].
    replace (Z.to_nat (facetCol - index)) with (S (Z.to_nat (facetCol - (index + 1))))
      by lia.
    done.
Qed.

Lemma display_refl (m : model) : display m m.
Proof. by destruct m. Qed.

Lemma display_trans (m1 m2 m3 : model) : display m1 m2 → display m2 m3 → display m1 m3.
Proof. unfold display. intros -> ->. done. Qed.

Lemma moved_display (m m' : model) : moved m m' → display m m'.
Proof. unfold moved, display. intros ->. done. Qed.

Lemma within_refl (t : facetTable) : within t t.
Proof. intros facetCol k samples H. by exists samples. Qed.

Lemma emptyColumns_column (cols : list Z) (facetCol : Z) :
  columnOf (emptyColumns cols) facetCol = ∅.
Proof.
  unfold columnOf. induction cols as [|c cols IH]; simpl; [done|].
  destruct (decide (c = facetCol)) as [->|Hne].
  - by rewrite lookup_insert_eq.
  - by rewrite lookup_insert_ne.
Qed.

Lemma within_emptyColumns (cols : list Z) (t : facetTable) :
  within (emptyColumns cols) t.
Proof.
  intros facetCol k samples. rewrite emptyColumns_column. by rewrite lookup_empty.
Qed.

Lemma sameColumns_within (t1 t2 t3 : facetTable) :
  sameColumns t1 t2 → within t2 t3 → within t1 t3.
Proof. intros Hs Hw facetCol k samples. rewrite Hs. apply Hw. Qed.

(** A record added to the larger table only. *)
Lemma within_addFacets_right (value : float) (facets : list string) (index : Z)
    (t1 t2 : facetTable) :
  within t1 t2 → within t1 (addFacets value facets index t2).
Proof.
  intros Hw facetCol k samples Hk. rewrite addFacets_column.
  destruct (Hw _ _ _ Hk) as (samples' & Hk' & Hsub).
  destruct (fieldOf facets index facetCol) as [k0|]; [|by exists samples'].
  destruct (decide (k0 = k)) as [->|Hne].
  - rewrite lookup_insert_eq. eexists. split; [done|].
    unfold samplesOf. rewrite Hk'. simpl. by apply sublist_inserts_r.
  - rewrite lookup_insert_ne by done. by exists samples'.
Qed.

(** A record added to both tables. *)
Lemma within_addFacets_both (value : float) (facets : list string) (index : Z)
    (t1 t2 : facetTable) :
  within t1 t2 →
  within (addFacets value facets index t1) (addFacets value facets index t2).
Proof.
  intros Hw facetCol k samples. rewrite !addFacets_column.
  destruct (fieldOf facets index facetCol) as [k0|]; [|apply Hw].
  destruct (decide (k0 = k)) as [->|Hne].
  - rewrite !lookup_insert_eq. intros [= <-]. eexists. split; [done|].
    apply sublist_app; [|done]. unfold samplesOf.
    destruct (columnOf t1 facetCol !! k) as [samples|] eqn:Hk; simpl.
    + destruct (Hw _ _ _ Hk) as (samples' & -> & Hsub). done.
    + apply sublist_nil_l.
  - rewrite !lookup_insert_ne by done. apply Hw.
Qed.

Section DataPath.

Variable TrimSpace : string → string.
Variable ParseFloat : string → option float.

(** What one message does to the model: a tick drains lines, "enter" toggles
    a pin, every other message changes at most what is shown. *)
Lemma Update_cases (it : iteration) (message : msg) (m m' : model) :
  Update TrimSpace ParseFloat it message m = Some m' →
  (∃ available, message = tickMsg available ∧
                drain TrimSpace ParseFloat available m = Some m') ∨
  (message = KeyMsg KeyEnter ∧ togglePin TrimSpace ParseFloat it m = Some m') ∨
  display m m'.
Proof.
  assert (∀ f, display m (resetActiveFacet it (set_scrollOffset 0 (set_facet f m))))
    as Hreset.
  { intros f. eapply display_trans;
      [|apply moved_display, resetActiveFacet_moved]. done. }
  assert (∀ dx dy, display m (navigateGrid it dx dy m)) as Hmove.
  { intros dx dy. apply moved_display, navigateGrid_moved. }
  destruct message as [available|width height|k]; simpl.
  - intros H. left. by exists available.
  - intros [= <-]. right; right. done.
  - destruct k; try (intros [= <-]; right; right;
                     first [apply display_refl | apply Hmove | apply Hreset | done]).
    + case_match; intros [= <-]; right; right;
        first [apply display_refl | apply Hreset].
    + repeat case_match; intros [= <-]; right; right;
        first [apply display_refl | apply Hreset].
    + intros H. right; left. done.
Qed.


(** The unfiltered pass never fails, and reads and writes the full table,
    the string counts and the record counter only. *)
Lemma unfiltered_frame (line : string) (m : model) :
  ∃ m', processLineWithFilter TrimSpace ParseFloat line false m = Some m' ∧
        m' = set_facetsData (facetsData m')
               (set_totalLogCount (totalLogCount m')
                  (set_stringValues (stringValues m') m)).
Proof.
  destruct (String.eqb_spec (TrimSpace line) EmptyString) as [Hblank|Hline].
  - rewrite blank_line_ignored by done. exists m. split; [done|]. by destruct m.
  - rewrite processLineWithFilter_unfiltered by done. eexists. split; [done|].
    destruct (ParseFloat _); by destruct m.
Qed.

Lemma unfiltered_congr (line : string) (m1 m2 r1 : model) :
  facetsData m1 = facetsData m2 → stringValues m1 = stringValues m2 →
  totalLogCount m1 = totalLogCount m2 →
  processLineWithFilter TrimSpace ParseFloat line false m1 = Some r1 →
  ∃ r2, processLineWithFilter TrimSpace ParseFloat line false m2 = Some r2 ∧
        facetsData r1 = facetsData r2 ∧ stringValues r1 = stringValues r2 ∧
        totalLogCount r1 = totalLogCount r2.
Proof.
  intros Hf Hs Ht.
  destruct (String.eqb_spec (TrimSpace line) EmptyString) as [Hblank|Hline].
  - rewrite !blank_line_ignored by done. intros [= <-]. by exists m2.
  - rewrite !processLineWithFilter_unfiltered by done. intros [= <-].
    eexists. split; [done|].
    destruct (ParseFloat _); simpl; rewrite ?Hf, ?Hs, ?Ht; done.
Qed.

(** The filtered pass leaves the model as it is, or appends the value of a
    record that parses under each of its facets in the filtered table. *)
Lemma filtered_step (line : string) (m m' : model) :
  processLineWithFilter TrimSpace ParseFloat line true m = Some m' →
  let parts := Split (TrimSpace line) tab in
  m' = m ∨
  (TrimSpace line ≠ EmptyString ∧
   ∃ value, ParseFloat (default EmptyString (parts !! 0%nat)) = Some value ∧
            m' = set_filteredData
                   (addFacets value (drop 1 parts) 1 (filteredData m)) m).
Proof.
  unfold processLineWithFilter.
  destruct (String.eqb_spec (TrimSpace line) EmptyString) as [Hblank|Hline].
  { intros [= <-]. by left. }
  case_match; [intros [= <-]; by left|].
  destruct (if true && _ then _ else _) as [passes|]; simpl; [|done].
  destruct passes; simpl; [|intros [= <-]; by left].
  destruct (ParseFloat _) as [value|]; [|intros [= <-]; by left].
  intros [= <-]. right. split; [done|]. by exists value.
Qed.

Lemma filtered_congr (line : string) (m1 m2 r1 : model) :
  samePins m1 m2 → sameColumns (filteredData m1) (filteredData m2) →
  processLineWithFilter TrimSpace ParseFloat line true m1 = Some r1 →
  ∃ r2, processLineWithFilter TrimSpace ParseFloat line true m2 = Some r2 ∧
        samePins r1 r2 ∧ sameColumns (filteredData r1) (filteredData r2).
Proof.
  intros [Hp Hc] Hs. unfold processLineWithFilter. rewrite <- Hp, <- Hc.
  destruct (String.eqb _ _); [intros [= <-]; by exists m2|].
  case_match; [intros [= <-]; by exists m2|].
  destruct (if true && _ then _ else _) as [passes|]; simpl; [|done].
  destruct passes; simpl; [|intros [= <-]; by exists m2].
  destruct (ParseFloat _) as [value|]; [|intros [= <-]; by exists m2].
  intros [= <-]. eexists. split; [done|]. split; [done|]. simpl.
  intros facetCol. rewrite !addFacets_column, Hs. done.
Qed.

Lemma replay_congr (lines : list string) (m1 m2 r1 : model) :
  samePins m1 m2 → sameColumns (filteredData m1) (filteredData m2) →
  replay TrimSpace ParseFloat lines m1 = Some r1 →
  ∃ r2, replay TrimSpace ParseFloat lines m2 = Some r2 ∧
        samePins r1 r2 ∧ sameColumns (filteredData r1) (filteredData r2).
Proof.
  revert m1 m2. induction lines as [|line lines IH]; intros m1 m2 Hp Hs; simpl.
  { intros [= <-]. by exists m2. }
  destruct (processLineWithFilter _ _ line true m1) as [n1|] eqn:E1; simpl; [|done].
  destruct (filtered_congr line m1 m2 n1 Hp Hs E1) as (n2 & -> & Hp' & Hs').
  simpl. by apply IH.
Qed.

Lemma replay_app (lines1 lines2 : list string) (m : model) :
  replay TrimSpace ParseFloat (lines1 ++ lines2) m =
    (m ← replay TrimSpace ParseFloat lines1 m;
     replay TrimSpace ParseFloat lines2 m).
Proof.
  revert m. induction lines1 as [|line lines1 IH]; intros m; simpl; [done|].
  destruct (processLineWithFilter _ _ line true m); simpl; [apply IH|done].
Qed.

Lemma ingest_app (lines1 lines2 : list string) (m : model) :
  ingest TrimSpace ParseFloat (lines1 ++ lines2) m =
    (m ← ingest TrimSpace ParseFloat lines1 m;
     ingest TrimSpace ParseFloat lines2 m).
Proof.
  revert m. induction lines1 as [|line lines1 IH]; intros m; simpl; [done|].
  destruct (processLineWithFilter _ _ line false m); simpl; [apply IH|done].
Qed.


(** A line through the filtered pass on one model and through the
    unfiltered pass on another. *)
Lemma filtered_within (line : string) (ma mb ra rb : model) :
  within (filteredData ma) (facetsData mb) →
  processLineWithFilter TrimSpace ParseFloat line true ma = Some ra →
  processLineWithFilter TrimSpace ParseFloat line false mb = Some rb →
  within (filteredData ra) (facetsData rb).
Proof.
  intros Hw Ha Hb. apply filtered_step in Ha.
  destruct (String.eqb_spec (TrimSpace line) EmptyString) as [Hblank|Hline].
  - rewrite blank_line_ignored in Hb by done. injection Hb as <-.
    destruct Ha as [->|[? _]]; done.
  - rewrite processLineWithFilter_unfiltered in Hb by done. injection Hb as <-.
    destruct Ha as [->|(_ & value & Hvalue & ->)].
    + destruct (ParseFloat _); simpl; [|done]. by apply within_addFacets_right.
    + rewrite Hvalue. simpl. by apply within_addFacets_both.
Qed.

Lemma replay_within (lines : list string) (ma mb ra rb : model) :
  within (filteredData ma) (facetsData mb) →
  replay TrimSpace ParseFloat lines ma = Some ra →
  ingest TrimSpace ParseFloat lines mb = Some rb →
  within (filteredData ra) (facetsData rb).
Proof.
  revert ma mb. induction lines as [|line lines IH]; intros ma mb Hw; simpl.
  { by intros [= <-] [= <-]. }
  destruct (processLineWithFilter _ _ line true ma) as [na|] eqn:Ea; simpl; [|done].
  destruct (processLineWithFilter _ _ line false mb) as [nb|] eqn:Eb; simpl; [|done].
  apply IH. by apply (filtered_within line ma mb).
Qed.

(** The "enter" case: nothing, the last pin removed, or the filtered table
    rebuilt under the new pins. *)
Lemma togglePin_cases (it : iteration) (m m' : model) :
  togglePin TrimSpace ParseFloat it m = Some m' →
  m' = m ∨
  ∃ pins cols,
    (pins = ∅ ∧ m' = set_isFiltered false (set_pins pins cols m)) ∨
    (pins ≠ ∅ ∧
     regenerateFilteredData TrimSpace ParseFloat
       (set_isFiltered true (set_pins pins cols m)) = Some m').
Proof.
  unfold togglePin. destruct (String.eqb _ _); [intros [= <-]; by left|].
  set (m1 := if default false (pinnedFacets m !! activeFacet m) then _ else _).
  assert (∃ pins cols, m1 = set_pins pins cols m) as (pins & cols & ->).
  { subst m1. repeat case_match; eauto. }
  simpl. intros Hrun. right. exists pins, cols.
  destruct (Z.ltb_spec 0 (Z.of_nat (size pins))) as [Hpos|Hzero].
  - right. split; [|done]. intros ->. by rewrite map_size_empty in Hpos.
  - injection Hrun as <-. left. split; [|done].
    apply map_size_empty_inv. lia.
Qed.

Lemma consistent_display (f : Z) (m m' : model) :
  display m m' → consistent TrimSpace ParseFloat f m →
  consistent TrimSpace ParseFloat f m'.
Proof.
  intros Hd (Hhistory & Hwithin & Hflag & Hfiltered). rewrite Hd.
  split_and!; simpl; [done..|].
  intros Hf. destruct (Hfiltered Hf) as (r & Hr & Hs).
  unfold regenerateFilteredData in *. simpl.
  eapply (replay_congr _ _ (set_filteredData _ _)) in Hr as (r2 & Hr2 & _ & Hs2).
  - exists r2. split; [exact Hr2|]. intros c. by rewrite Hs, Hs2.
  - done.
  - done.
Qed.


Lemma consistent_processLine (f : Z) (line : string) (m m' : model) :
  processLine TrimSpace ParseFloat line m = Some m' →
  consistent TrimSpace ParseFloat f m → consistent TrimSpace ParseFloat f m'.
Proof.
  unfold processLine.
  intros Hrun ((m0 & Hm0 & Hfull & Hstrings & Hcount) & Hwithin & Hflag & Hfiltered).
  set (ms := set_storedLines (storedLines m ++ [line]) m) in Hrun.
  destruct (unfiltered_frame line ms) as (m1 & Hm1 & Hframe1).
  rewrite Hm1 in Hrun. simpl in Hrun.
  destruct (unfiltered_congr line ms m0 m1 Hfull Hstrings Hcount Hm1)
    as (n0 & Hn0 & Hfull1 & Hstrings1 & Hcount1).
  assert (storedLines m1 = storedLines m ++ [line]) as Hlines1 by by rewrite Hframe1.
  assert (filteredData m1 = filteredData m) as Hfd1 by by rewrite Hframe1.
  assert (isFiltered m1 = isFiltered m) as Hif1 by by rewrite Hframe1.
  assert (samePins m1 m) as Hpins1 by by rewrite Hframe1.
  assert (ingest TrimSpace ParseFloat (storedLines m1) (initialModel f) = Some n0)
    as Hhistory1.
  { rewrite Hlines1, ingest_app, Hm0. simpl. by rewrite Hn0. }
  assert (within (filteredData m) (facetsData m1)) as Hwithin1.
  { rewrite Hfull1.
    assert (processLineWithFilter TrimSpace ParseFloat line false m0 = Some n0) as Hstep
      by done.
    destruct (String.eqb_spec (TrimSpace line) EmptyString) as [Hblank|Hline].
    - rewrite blank_line_ignored in Hstep by done. injection Hstep as <-.
      by rewrite <- Hfull.
    - rewrite processLineWithFilter_unfiltered in Hstep by done.
      injection Hstep as <-. destruct (ParseFloat _); simpl; rewrite <- Hfull; [|done].
      by apply within_addFacets_right. }
  destruct (isFiltered m1) eqn:Hif.
  - pose proof (processLineWithFilter_frame _ _ _ _ _ Hrun) as Hframe.
    assert (facetsData m' = facetsData m1) as Hfull' by by rewrite Hframe.
    split_and!.
    + exists n0. rewrite Hframe. simpl. by rewrite Hhistory1.
    + rewrite Hfull', Hfull1.
      apply (filtered_within line m1 m0 m' n0); [|done..].
      by rewrite Hfd1, <- Hfull.
    + rewrite Hframe. simpl. destruct Hpins1 as [-> _]. rewrite Hif.
      by rewrite <- Hif1 in Hflag.
    + intros _. destruct Hfiltered as (r & Hr & Hs); [done|].
      unfold regenerateFilteredData in *.
      assert (storedLines m' = storedLines m ++ [line]) as -> by by rewrite Hframe.
      rewrite replay_app.
      assert (samePins r m) as [Hpr Hcr].
      { apply replay_frame in Hr. rewrite Hr. by split. }
      eapply (replay_congr _ _ (set_filteredData
                (foldr (λ facetCol fd, <[facetCol := ∅]> fd) ∅ (keysOf (facetsData m')))
                m')) in Hr as (r2 & -> & Hp2 & Hs2).
      * simpl.
        destruct (filtered_congr line m1 r2 m') as (r3 & -> & _ & Hs3); [| |done|].
        -- destruct Hp2 as [Hp2 Hc2]. destruct Hpins1 as [Hp1 Hc1].
           split; congruence.
        -- intros c. by rewrite Hfd1, Hs, Hs2.
        -- exists r3. split; [done|]. done.
      * rewrite Hframe. destruct Hpins1. by split.
      * intros c. apply (eq_trans (emptyColumns_column _ c)).
        symmetry. apply emptyColumns_column.
  - injection Hrun as <-. split_and!.
    + by exists n0.
    + by rewrite Hfd1.
    + destruct Hpins1 as [-> _]. rewrite Hif.
      by rewrite <- Hif1 in Hflag.
    + by rewrite Hif.
Qed.

Lemma consistent_drain (f : Z) (available : list string) (m m' : model) :
  drain TrimSpace ParseFloat available m = Some m' →
  consistent TrimSpace ParseFloat f m → consistent TrimSpace ParseFloat f m'.
Proof.
  revert m. induction available as [|line available IH]; intros m; simpl.
  { by intros [= <-]. }
  destruct (processLine _ _ line m) as [m1|] eqn:E; simpl; [|done].
  intros Hrun Hc. apply (IH m1 Hrun). by apply (consistent_processLine f line m).
Qed.

Lemma consistent_togglePin (f : Z) (it : iteration) (m m' : model) :
  togglePin TrimSpace ParseFloat it m = Some m' →
  consistent TrimSpace ParseFloat f m → consistent TrimSpace ParseFloat f m'.
Proof.
  intros Hrun Hc.
  apply togglePin_cases in Hrun as [->|(pins & cols & [[-> ->]|[Hpins Hrun]])];
    [done| |].
  - destruct Hc as (Hhistory & Hwithin & _). by split_and!.
  - destruct Hc as ((m0 & Hm0 & Hfull & Hstrings & Hcount) & _ & _).
    pose proof (regenerateFilteredData_frame _ _ _ _ Hrun) as Hframe.
    split_and!.
    + exists m0. rewrite Hframe. done.
    + unfold regenerateFilteredData in Hrun. simpl in Hrun.
      assert (facetsData m' = facetsData m0) as -> by by rewrite Hframe.
      eapply replay_within; [|exact Hrun|exact Hm0].
      apply within_emptyColumns.
    + rewrite Hframe. done.
    + intros _. exists m'. split; [|done].
      set (mp := set_isFiltered true (set_pins pins cols m)) in *.
      assert (∀ t, set_filteredData t m' = set_filteredData t mp) as Hset
        by (intros t; by rewrite Hframe).
      assert (storedLines m' = storedLines mp) as Hlines by by rewrite Hframe.
      assert (facetsData m' = facetsData mp) as Hfull' by by rewrite Hframe.
      unfold regenerateFilteredData in *. by rewrite Hset, Hlines, Hfull'.
Qed.

Lemma consistent_Update (f : Z) (it : iteration) (message : msg) (m m' : model) :
  Update TrimSpace ParseFloat it message m = Some m' →
  consistent TrimSpace ParseFloat f m → consistent TrimSpace ParseFloat f m'.
Proof.
  intros Hrun. apply Update_cases in Hrun as [(available & _ & Hrun)|[[_ Hrun]|Hd]].
  - by apply (consistent_drain f available).
  - by apply (consistent_togglePin f it).
  - by apply consistent_display.
Qed.

Lemma consistent_initial (f : Z) : consistent TrimSpace ParseFloat f (initialModel f).
Proof.
  split_and!.
  - by exists (initialModel f).
  - apply within_refl.
  - done.
  - done.
Qed.

Lemma consistent_run (f : Z) (steps : list (iteration * msg)) (m m' : model) :
  runUpdates TrimSpace ParseFloat steps m = Some m' →
  consistent TrimSpace ParseFloat f m → consistent TrimSpace ParseFloat f m'.
Proof.
  revert m. induction steps as [|[it message] steps IH]; intros m; simpl.
  { by intros [= <-]. }
  destruct (Update _ _ it message m) as [m1|] eqn:E; simpl; [|done].
  intros Hrun Hc. apply (IH m1 Hrun). by apply (consistent_Update f it message m).
Qed.

End DataPath.


(** ** The tables and the lines read *)

Lemma wrap64_add (a b : Z) : wrap64 (wrap64 a + b) = wrap64 (a + b).
Proof.
  unfold wrap64. f_equal.
  replace ((a + 2 ^ 63) mod 2 ^ 64 - 2 ^ 63 + b + 2 ^ 63)
    with ((a + 2 ^ 63) mod 2 ^ 64 + b) by lia.
  rewrite Z.add_mod_idemp_l by lia. f_equal. lia.
Qed.

Lemma wrap64_small (a : Z) : - 2 ^ 63 ≤ a < 2 ^ 63 → wrap64 a = a.
Proof. intros Ha. unfold wrap64. rewrite Z.mod_small; lia. Qed.

Lemma ingest_count (TrimSpace : string → string)
    (ParseFloat : string → option float) (lines : list string) (m m' : model) :
  ingest TrimSpace ParseFloat lines m = Some m' →
  wrap64 (totalLogCount m') =
    wrap64 (totalLogCount m + len (records TrimSpace lines)).
Proof.
  revert m. induction lines as [|line lines IH]; intros m; simpl.
  { intros [= <-]. f_equal. unfold len. simpl. lia. }
  destruct (processLineWithFilter _ _ line false m) as [m1|] eqn:E; simpl; [|done].
  intros Hrun. rewrite (IH m1 Hrun). unfold records. rewrite filter_cons.
  destruct (decide (TrimSpace line ≠ EmptyString)) as [Hline|Hblank].
  - rewrite processLineWithFilter_unfiltered in E by done. injection E as <-.
    assert (∀ x, totalLogCount
              match ParseFloat (default EmptyString (Split (TrimSpace line) tab !! 0%nat)) with
              | Some value =>
                  set_facetsData (addFacets value (drop 1 (Split (TrimSpace line) tab)) 1
                                    (facetsData m))
                    (set_totalLogCount (int_add (totalLogCount m) 1) m)
              | None =>
                  set_totalLogCount (int_add (totalLogCount m) 1)
                    (set_stringValues x m)
              end = int_add (totalLogCount m) 1) as -> by (intros x; by destruct (ParseFloat _)).
    unfold int_add. rewrite wrap64_add. f_equal. unfold len. simpl. lia.
  - apply dec_stable in Hblank. rewrite blank_line_ignored in E by done.
    by injection E as <-.
Qed.

Lemma wrap64_range (z : Z) : - 2 ^ 63 ≤ wrap64 z < 2 ^ 63.
Proof.
  unfold wrap64. pose proof (Z.mod_pos_bound (z + 2 ^ 63) (2 ^ 64)). lia.
Qed.

Lemma ingest_range (TrimSpace : string → string)
    (ParseFloat : string → option float) (lines : list string) (m m' : model) :
  ingest TrimSpace ParseFloat lines m = Some m' →
  - 2 ^ 63 ≤ totalLogCount m < 2 ^ 63 → - 2 ^ 63 ≤ totalLogCount m' < 2 ^ 63.
Proof.
  revert m. induction lines as [|line lines IH]; intros m; simpl.
  { by intros [= <-]. }
  destruct (processLineWithFilter _ _ line false m) as [m1|] eqn:E; simpl; [|done].
  intros Hrun Hm. apply (IH m1 Hrun).
  destruct (String.eqb_spec (TrimSpace line) EmptyString) as [Hblank|Hline].
  - rewrite blank_line_ignored in E by done. by injection E as <-.
  - rewrite processLineWithFilter_unfiltered in E by done. injection E as <-.
    destruct (ParseFloat _); simpl; apply wrap64_range.
Qed.

Lemma initialModel_valid (f : Z) : valid (initialModel f).
Proof.
  split.
  - intros v c Hv. simpl in Hv. by rewrite lookup_empty in Hv.
  - intros c fd Hc. simpl in Hc. by rewrite lookup_empty in Hc.
Qed.

(** A run from the model of [main] returns a state, and the state is
    consistent with the lines stored. *)
Lemma reachable_consistent (TrimSpace : string → string)
    (ParseFloat : string → option float) (steps : list (iteration * msg)) (f : Z) :
  ∃ m, runUpdates TrimSpace ParseFloat steps (initialModel f) = Some m ∧
       consistent TrimSpace ParseFloat f m.
Proof.
  destruct (runUpdates_valid TrimSpace ParseFloat steps (initialModel f)
              (initialModel_valid f)) as (m & Hrun & _).
  exists m. split; [done|].
  apply (consistent_run _ _ f steps (initialModel f)); [done|].
  apply consistent_initial.
Qed.

(** X4: in every state the program reaches, the full table, the string counts
    and the record counter are those the unfiltered pass computes from the
    stored lines alone, read from the start in the order they arrived: no key
    press, pin or window change alters them. *)
Theorem tables_follow_stored_lines (TrimSpace : string → string)
    (ParseFloat : string → option float) (steps : list (iteration * msg)) (f : Z) :
  ∃ m m0,
    runUpdates TrimSpace ParseFloat steps (initialModel f) = Some m ∧
    ingest TrimSpace ParseFloat (storedLines m) (initialModel f) = Some m0 ∧
    facetsData m = facetsData m0 ∧ stringValues m = stringValues m0 ∧
    totalLogCount m = totalLogCount m0.
Proof.
  destruct (reachable_consistent TrimSpace ParseFloat steps f)
    as (m & Hrun & (m0 & Hhistory) & _).
  by exists m, m0.
Qed.

(** X5: in every state the program reaches, the record counter is the number
    of stored lines that are not blank after trimming, as a 64-bit integer. *)
Theorem record_counter_counts_stored_lines (TrimSpace : string → string)
    (ParseFloat : string → option float) (steps : list (iteration * msg)) (f : Z) :
  ∃ m, runUpdates TrimSpace ParseFloat steps (initialModel f) = Some m ∧
       totalLogCount m = wrap64 (len (records TrimSpace (storedLines m))) ∧
       (len (records TrimSpace (storedLines m)) < 2 ^ 63 →
        totalLogCount m = len (records TrimSpace (storedLines m))).
Proof.
  destruct (reachable_consistent TrimSpace ParseFloat steps f)
    as (m & Hrun & (m0 & Hhistory & _ & _ & Hcount) & _).
  exists m. split; [done|].
  assert (totalLogCount m = wrap64 (len (records TrimSpace (storedLines m)))) as E.
  { rewrite Hcount.
    rewrite <- (wrap64_small (totalLogCount m0))
      by (apply (ingest_range _ _ _ _ _ Hhistory); simpl; lia).
    apply ingest_count in Hhistory. by rewrite Hhistory. }
  split; [done|]. intros Hlen. rewrite E. apply wrap64_small.
  unfold len in *. lia.
Qed.

(** X6: in every state the program reaches, the filtered table lies within
    the full table: each of its keys is a key of the full table under the same
    column, and its samples are samples of that key in the full table, in the
    same order; this holds for the table left behind by the last pin too. *)
Theorem filtered_table_within_full (TrimSpace : string → string)
    (ParseFloat : string → option float) (steps : list (iteration * msg)) (f : Z) :
  ∃ m, runUpdates TrimSpace ParseFloat steps (initialModel f) = Some m ∧
       ∀ facetCol k samples,
         columnOf (filteredData m) facetCol !! k = Some samples →
         ∃ samples', columnOf (facetsData m) facetCol !! k = Some samples' ∧
                     sublist samples samples'.
Proof.
  destruct (reachable_consistent TrimSpace ParseFloat steps f)
    as (m & Hrun & _ & Hwithin & _).
  by exists m.
Qed.

(** X7: in every state the program reaches, the filter flag is on exactly
    when a pin is set, and then the filtered table, which is updated line by
    line as records arrive, holds the facet maps that rebuilding it from the
    stored lines under the current pins gives: the two differ at most in
    columns that have no key. *)
Theorem incremental_filter_agrees_with_rebuild (TrimSpace : string → string)
    (ParseFloat : string → option float) (steps : list (iteration * msg)) (f : Z) :
  ∃ m, runUpdates TrimSpace ParseFloat steps (initialModel f) = Some m ∧
       (isFiltered m = true ↔ pinnedFacets m ≠ ∅) ∧
       (isFiltered m = true →
        ∃ r, regenerateFilteredData TrimSpace ParseFloat m = Some r ∧
             ∀ facetCol,
               columnOf (filteredData m) facetCol = columnOf (filteredData r) facetCol).
Proof.
  destruct (reachable_consistent TrimSpace ParseFloat steps f)
    as (m & Hrun & _ & _ & Hflag & Hfiltered).
  by exists m.
Qed.

(** ** What [Update] never does *)

Lemma extends_refl (m : model) : extends m m.
Proof. split_and!; [done| |done]. intros c k samples H. by exists samples. Qed.

Lemma extends_trans (m1 m2 m3 : model) : extends m1 m2 → extends m2 m3 → extends m1 m3.
Proof.
  intros (Hl1 & Hf1 & Hs1) (Hl2 & Hf2 & Hs2). split_and!.
  - by etrans.
  - intros c k samples H. destruct (Hf1 _ _ _ H) as (samples1 & H1 & Hp1).
    destruct (Hf2 _ _ _ H1) as (samples2 & H2 & Hp2).
    exists samples2. split; [done|]. by etrans.
  - intros s H. by apply Hs2, Hs1.
Qed.

Lemma extends_same (m m' : model) :
  storedLines m' = storedLines m → facetsData m' = facetsData m →
  stringValues m' = stringValues m → extends m m'.
Proof.
  intros Hl Hf Hs. unfold extends. rewrite Hl, Hf, Hs. apply extends_refl.
Qed.

Lemma extends_processLine (TrimSpace : string → string)
    (ParseFloat : string → option float) (line : string) (m m' : model) :
  processLine TrimSpace ParseFloat line m = Some m' → extends m m'.
Proof.
  unfold processLine.
  set (ms := set_storedLines (storedLines m ++ [line]) m).
  assert (∃ m1, processLineWithFilter TrimSpace ParseFloat line false ms = Some m1 ∧
                extends m m1) as (m1 & -> & Hext).
  { destruct (String.eqb_spec (TrimSpace line) EmptyString) as [Hblank|Hline].
    - rewrite blank_line_ignored by done. exists ms. split; [done|].
      split_and!; simpl; [by apply prefix_app_r| |done].
      intros c k samples H. by exists samples.
    - rewrite processLineWithFilter_unfiltered by done. eexists. split; [done|].
      destruct (ParseFloat _) as [value|]; split_and!; simpl;
        try (by apply prefix_app_r); try done.
      + intros c k samples H. rewrite addFacets_column.
        destruct (fieldOf _ 1 c) as [k0|]; [|by exists samples].
        destruct (decide (k0 = k)) as [->|Hne].
        * rewrite lookup_insert_eq. eexists. split; [done|].
          unfold samplesOf. rewrite H. simpl. by apply prefix_app_r.
        * rewrite lookup_insert_ne by done. by exists samples.
      + intros c k samples H. by exists samples.
      + intros s Hs. destruct (decide (default EmptyString
                                         (Split (TrimSpace line) tab !! 0%nat) = s))
          as [->|Hne].
        * by rewrite lookup_insert_eq.
        * by rewrite lookup_insert_ne. }
  simpl. destruct (isFiltered m1); [|by intros [= <-]].
  intros Hrun. apply processLineWithFilter_frame in Hrun.
  eapply extends_trans; [exact Hext|]. apply extends_same; by rewrite Hrun.
Qed.

Lemma extends_Update (TrimSpace : string → string)
    (ParseFloat : string → option float) (it : iteration) (message : msg)
    (m m' : model) :
  Update TrimSpace ParseFloat it message m = Some m' → extends m m'.
Proof.
  intros Hrun. apply Update_cases in Hrun as [(available & _ & Hrun)|[[_ Hrun]|Hd]].
  - revert m Hrun. induction available as [|line available IH]; intros m; simpl.
    { intros [= <-]. apply extends_refl. }
    destruct (processLine _ _ line m) as [m1|] eqn:E; simpl; [|done].
    intros Hrun. eapply extends_trans; [|by apply IH].
    by apply (extends_processLine TrimSpace ParseFloat line).
  - apply togglePin_cases in Hrun as [->|(pins & cols & [[-> ->]|[_ Hrun]])].
    + apply extends_refl.
    + by apply extends_same.
    + apply regenerateFilteredData_frame in Hrun. apply extends_same; by rewrite Hrun.
  - apply extends_same; by rewrite Hd.
Qed.

(** X8: no run of [Update] removes or reorders what was read: the stored
    lines and the samples of every key of the full table are only extended at
    the end, and no string is dropped from the string counts. *)
Theorem full_table_append_only (TrimSpace : string → string)
    (ParseFloat : string → option float) (steps : list (iteration * msg))
    (m m' : model) :
  runUpdates TrimSpace ParseFloat steps m = Some m' →
  storedLines m `prefix_of` storedLines m' ∧
  (∀ facetCol k samples, columnOf (facetsData m) facetCol !! k = Some samples →
     ∃ samples', columnOf (facetsData m') facetCol !! k = Some samples' ∧
                 samples `prefix_of` samples') ∧
  (∀ s, is_Some (stringValues m !! s) → is_Some (stringValues m' !! s)).
Proof.
  revert m. induction steps as [|[it message] steps IH]; intros m; simpl.
  { intros [= <-]. apply extends_refl. }
  destruct (Update _ _ it message m) as [m1|] eqn:E; simpl; [|done].
  intros Hrun. apply (extends_trans m m1 m'); [|by apply IH].
  by apply (extends_Update TrimSpace ParseFloat it message).
Qed.

Lemma full_table_append_only_witness :
  runUpdates asciiTrimSpace exampleParseFloat
    [(exampleIteration, KeyMsg KeyEnter);
     (exampleIteration, tickMsg ["3" +:+ String tab "red"])] pinnedModel
    = Some appendedModel ∧
  storedLines pinnedModel `prefix_of` storedLines appendedModel ∧
  columnOf (facetsData appendedModel) 1 !! "red" = Some [10.5; 15.2; 3]%float.
Proof.
  assert (runUpdates asciiTrimSpace exampleParseFloat
            [(exampleIteration, KeyMsg KeyEnter);
             (exampleIteration, tickMsg ["3" +:+ String tab "red"])] pinnedModel
          = Some appendedModel) as Hrun by (vm_compute; reflexivity).
  split_and!; [exact Hrun| |vm_compute; reflexivity].
  exact (proj1 (full_table_append_only asciiTrimSpace exampleParseFloat _ _ _ Hrun)).
Defined.

(** ** The state [View] does not keep *)

Lemma ensureActiveFacetVisible_unknown (m : model) :
  facetPositions m = ∅ → ensureActiveFacetVisible m = m.
Proof.
  intros H. unfold ensureActiveFacetVisible. rewrite H, lookup_empty.
  by destruct (String.eqb _ _).
Qed.

Lemma updatePositionFromActiveFacet_unknown (m : model) :
  facetPositions m = ∅ → updatePositionFromActiveFacet m = m.
Proof. intros H. unfold updatePositionFromActiveFacet. by rewrite H, lookup_empty. Qed.

Lemma navigateGrid_unknown (it : iteration) (dx dy : Z) (m : model) :
  facetPositions m = ∅ →
  let m' := navigateGrid it dx dy m in
  scrollOffset m' = scrollOffset m ∧
  (facet m = 0 → activeFacetPos m' = activeFacetPos m).
Proof.
  intros Hpos.
  assert (∀ keys m0, facetPositions m0 = ∅ →
            scrollOffset (navigateAll keys dx dy m0) = scrollOffset m0 ∧
            activeFacetPos (navigateAll keys dx dy m0) = activeFacetPos m0) as Hall.
  { intros keys m0 H0.
    assert (∀ k, updatePositionFromActiveFacet (set_activeFacet k m0)
                 = set_activeFacet k m0) as Hupdate
      by (intros k; by apply updatePositionFromActiveFacet_unknown).
    assert (∀ k, ensureActiveFacetVisible (set_activeFacet k m0)
                 = set_activeFacet k m0) as Hensure
      by (intros k; by apply ensureActiveFacetVisible_unknown).
    unfold navigateAll. repeat case_match; rewrite ?Hupdate, ?Hensure; done. }
  assert (∀ keys m0, facetPositions m0 = ∅ →
            scrollOffset (navigateSingle keys dx dy m0) = scrollOffset m0) as Hsingle.
  { intros keys m0 H0.
    assert (∀ pos k, ensureActiveFacetVisible
                       (set_activeFacetPos pos (set_activeFacet k m0))
                     = set_activeFacetPos pos (set_activeFacet k m0)) as Hensure
      by (intros pos k; by apply ensureActiveFacetVisible_unknown).
    unfold navigateSingle. repeat case_match; rewrite ?Hensure; done. }
  unfold navigateGrid. simpl.
  destruct (Z.eqb_spec (facet m) 0) as [Hfacet|Hfacet].
  - repeat case_match; try done;
      match goal with
      | |- context [navigateAll ?keys _ _ ?m0] =>
          destruct (Hall keys m0) as [-> ->]; done
      end.
  - split; [|done]. repeat case_match; try done. by apply Hsingle.
Qed.

Lemma Update_keeps_layout (TrimSpace : string → string)
    (ParseFloat : string → option float) (it : iteration) (message : msg)
    (m m' : model) :
  Update TrimSpace ParseFloat it message m = Some m' →
  facetPositions m' = facetPositions m ∧ gridColumns m' = gridColumns m.
Proof.
  assert (∀ line a b, processLine TrimSpace ParseFloat line a = Some b →
            facetPositions b = facetPositions a ∧ gridColumns b = gridColumns a)
    as Hline.
  { intros line a b. unfold processLine.
    destruct (unfiltered_frame TrimSpace ParseFloat line
                (set_storedLines (storedLines a ++ [line]) a)) as (m1 & -> & Hframe1).
    simpl. destruct (isFiltered m1).
    - intros Hrun. apply processLineWithFilter_frame in Hrun.
      rewrite Hrun, Hframe1. done.
    - intros [= <-]. by rewrite Hframe1. }
  intros Hrun. apply Update_cases in Hrun as [(available & _ & Hrun)|[[_ Hrun]|Hd]].
  - revert m Hrun. induction available as [|line available IH]; intros m; simpl.
    { by intros [= <-]. }
    destruct (processLine _ _ line m) as [m1|] eqn:E; simpl; [|done].
    intros Hrun. destruct (IH m1 Hrun) as [-> ->]. by apply (Hline line).
  - apply togglePin_cases in Hrun as [->|(pins & cols & [[-> ->]|[_ Hrun]])];
      [done..|].
    apply regenerateFilteredData_frame in Hrun. by rewrite Hrun.
  - by rewrite Hd.
Qed.

(** X9: [View] and the render functions have value receivers, so what they
    assign to the model ([facetPositions], [gridColumns]) is assigned to a
    copy, and [Update] never writes these fields: in every state the program
    reaches no position is recorded and the grid width is not set.  Hence the
    grid of the single-facet navigation is [max(1, winWidth/60)] columns wide,
    no arrow key changes the scroll offset, and in the all-facets view no
    arrow key changes the recorded position of the selection. *)
Theorem navigation_never_scrolls (TrimSpace : string → string)
    (ParseFloat : string → option float) (steps : list (iteration * msg)) (f : Z) :
  ∃ m, runUpdates TrimSpace ParseFloat steps (initialModel f) = Some m ∧
       facetPositions m = ∅ ∧ gridColumns m = 0 ∧
       gridWidth m = max 1 (Z.quot (winWidth m) 60) ∧
       ∀ it dx dy,
         scrollOffset (navigateGrid it dx dy m) = scrollOffset m ∧
         (facet m = 0 → activeFacetPos (navigateGrid it dx dy m) = activeFacetPos m).
Proof.
  destruct (runUpdates_valid TrimSpace ParseFloat steps (initialModel f)
              (initialModel_valid f)) as (m & Hrun & _).
  exists m. split; [done|].
  assert (facetPositions m = ∅ ∧ gridColumns m = 0) as [Hpos Hcols].
  { assert (facetPositions (initialModel f) = ∅ ∧ gridColumns (initialModel f) = 0)
      as Hinit by done.
    revert Hrun Hinit. generalize (initialModel f).
    induction steps as [|[it message] steps IH]; intros m0; simpl.
    { by intros [= <-]. }
    destruct (Update _ _ it message m0) as [m1|] eqn:E; simpl; [|done].
    intros Hrun [Hp Hc]. apply (IH m1 Hrun).
    apply Update_keeps_layout in E as [-> ->]. done. }
  split_and!; [done..| |].
  - unfold gridWidth. by rewrite Hcols.
  - intros it dx dy. by apply navigateGrid_unknown.
Qed.

(** ** One record *)

(** X10: a line that is not blank and whose first field parses as the float
    [value] is stored, and [value] is appended to the samples of each of its
    other fields, the field of column [c] being a key of column [c] of the full
    table (the fields are not trimmed, and the empty field is a key like any
    other); no other key of the full table changes. *)
Theorem record_appended_under_each_facet (TrimSpace : string → string)
    (ParseFloat : string → option float) (m : model) (line : string)
    (value : float) :
  let parts := Split (TrimSpace line) tab in
  TrimSpace line ≠ EmptyString →
  ParseFloat (default EmptyString (parts !! 0%nat)) = Some value →
  pinColumnsValid (pinnedFacetsColumn m) →
  ∃ m', processLine TrimSpace ParseFloat line m = Some m' ∧
        storedLines m' = storedLines m ++ [line] ∧
        (∀ c k, 1 ≤ c → parts !! Z.to_nat c = Some k →
           columnOf (facetsData m') c !! k =
             Some (samplesOf (columnOf (facetsData m) c) k ++ [value])) ∧
        (∀ c k, c < 1 ∨ parts !! Z.to_nat c ≠ Some k →
           columnOf (facetsData m') c !! k = columnOf (facetsData m) c !! k).
Proof.
  intros parts Hline Hvalue Hpins. unfold processLine.
  set (ms := set_storedLines (storedLines m ++ [line]) m).
  rewrite processLineWithFilter_unfiltered by done. fold parts. rewrite Hvalue.
  simpl.
  set (m1 := set_facetsData _ _).
  assert (∀ c, fieldOf (drop 1 parts) 1 c =
               if 1 <=? c then parts !! Z.to_nat c else None) as Hfield.
  { intros c. unfold fieldOf. destruct (Z.leb_spec 1 c); [|done].
    rewrite lookup_drop. f_equal. lia. }
  assert (storedLines m1 = storedLines m ++ [line] ∧
          (∀ c k, 1 ≤ c → parts !! Z.to_nat c = Some k →
             columnOf (facetsData m1) c !! k =
               Some (samplesOf (columnOf (facetsData m) c) k ++ [value])) ∧
          (∀ c k, c < 1 ∨ parts !! Z.to_nat c ≠ Some k →
             columnOf (facetsData m1) c !! k = columnOf (facetsData m) c !! k))
    as (Hlines & Hadded & Hkept).
  { split_and!; [done| |]; intros c k; simpl; rewrite addFacets_column, Hfield.
    - intros Hc Hk. rewrite (proj2 (Z.leb_le 1 c)) by done. rewrite Hk.
      by rewrite lookup_insert_eq.
    - intros Hck. destruct (Z.leb_spec 1 c) as [Hc|Hc]; [|done].
      destruct (parts !! Z.to_nat c) as [k0|] eqn:Hk0; [|done].
      rewrite lookup_insert_ne; [done|]. intros ->. destruct Hck; [lia|done]. }
  assert (isFiltered m1 = isFiltered m) as Hflag by done.
  destruct (isFiltered m) eqn:Hif.
  - destruct (processLineWithFilter_total TrimSpace ParseFloat line m1) as [m2 Hrun];
      [done|].
    exists m2. split; [rewrite ?Hflag; exact Hrun|].
    apply processLineWithFilter_frame in Hrun. rewrite Hrun. by split_and!.
  - exists m1. split; [by rewrite ?Hflag|]. by split_and!.
Qed.

Lemma record_appended_under_each_facet_witness :
  asciiTrimSpace "3	red	tacoma" ≠ EmptyString ∧
  pinColumnsValid (pinnedFacetsColumn pinnedModel) ∧
  ∃ m', processLine asciiTrimSpace exampleParseFloat "3	red	tacoma" pinnedModel
          = Some m' ∧
        columnOf (facetsData m') 1 !! "red" = Some [10.5; 15.2; 3]%float ∧
        columnOf (facetsData m') 2 !! "tacoma" = Some [3%float] ∧
        columnOf (facetsData m') 2 !! "seattle" = Some [10.5; 8.7]%float.
Proof.
  assert (asciiTrimSpace "3	red	tacoma" ≠ EmptyString) as Hline by by_computation.
  assert (pinColumnsValid (pinnedFacetsColumn pinnedModel)) as Hpins
    by by_computation.
  split_and!; [exact Hline|exact Hpins|].
  destruct (record_appended_under_each_facet asciiTrimSpace exampleParseFloat
              pinnedModel "3	red	tacoma" 3%float Hline eq_refl Hpins)
    as (m' & Hrun & _ & Hadded & Hkept).
  exists m'. split_and!; [exact Hrun| | |].
  - rewrite (Hadded 1 "red") by (vm_compute; (reflexivity || discriminate)).
    vm_compute. reflexivity.
  - rewrite (Hadded 2 "tacoma") by (vm_compute; (reflexivity || discriminate)).
    vm_compute. reflexivity.
  - rewrite (Hkept 2 "seattle") by (right; vm_compute; discriminate).
    vm_compute. reflexivity.
Defined.


(** ** The global range *)

Lemma allValues_elem_of (ds : facetTable) (keys : Z → list string)
    (cols : list Z) (v : float) :
  rangeOf cols ds → keyRanges ds keys →
  v ∈ allValues ds keys cols ↔ isSample ds v.
Proof.
  intros Hcols Hkeys. unfold allValues, isSample.
  rewrite list_elem_of_In, in_flat_map. split.
  - intros (facetCol & Hin & Hv).
    apply list_elem_of_In, (rangeOf_elem_of _ _ _ Hcols) in Hin as [facetData Hfd].
    apply in_flat_map in Hv as (k & Hk & Hv).
    rewrite (columnOf_lookup _ _ _ Hfd) in Hv.
    apply list_elem_of_In, (rangeOf_elem_of _ _ _ (Hkeys _ _ Hfd)) in Hk
      as [samples Hs].
    exists facetCol, facetData, k, samples. split_and!; [done..|].
    unfold samplesOf in Hv. rewrite Hs in Hv. by apply list_elem_of_In.
  - intros (facetCol & facetData & k & samples & Hfd & Hs & Hv).
    exists facetCol. split.
    + apply list_elem_of_In, (rangeOf_elem_of _ _ _ Hcols). eauto.
    + apply in_flat_map. exists k. split.
      * apply list_elem_of_In, (rangeOf_elem_of _ _ _ (Hkeys _ _ Hfd)). eauto.
      * rewrite (columnOf_lookup _ _ _ Hfd). unfold samplesOf. rewrite Hs.
        by apply list_elem_of_In.
Qed.

Lemma key_lt_cases (k1 k2 : Z * Z * Z) : key_lt k1 k2 ∨ k1 = k2 ∨ key_lt k2 k1.
Proof.
  destruct k1 as [[a1 a2] a3], k2 as [[b1 b2] b3]. unfold key_lt. simpl.
  destruct (decide (a1 = b1)); [|lia]. destruct (decide (a2 = b2)); [|lia].
  destruct (decide (a3 = b3)); [|lia]. subst. by right; left.
Qed.

Lemma key_lt_trans (k1 k2 k3 : Z * Z * Z) : key_lt k1 k2 → key_lt k2 k3 → key_lt k1 k3.
Proof.
  destruct k1 as [[a1 a2] a3], k2 as [[b1 b2] b3], k3 as [[c1 c2] c3].
  unfold key_lt. simpl. lia.
Qed.

Lemma key_lt_irrefl (k : Z * Z * Z) : ¬ key_lt k k.
Proof. destruct k as [[a1 a2] a3]. unfold key_lt. simpl. lia. Qed.

(** The loop of [globalRange] over samples that are numbers: the bounds it
    ends with are among the bounds it started with and the samples, and no
    sample and neither of the first bounds lies outside them. *)
Lemma scanRange_spec (values : list float) (gmin gmax : float) :
  Forall number values → number gmin → number gmax →
  let range := scanRange values gmin gmax in
  range.1 ∈ gmin :: values ∧ range.2 ∈ gmax :: values ∧
  number range.1 ∧ number range.2 ∧
  ¬ key_lt (float_key gmin) (float_key range.1) ∧
  ¬ key_lt (float_key range.2) (float_key gmax) ∧
  ∀ v, v ∈ values →
       ¬ key_lt (float_key v) (float_key range.1) ∧
       ¬ key_lt (float_key range.2) (float_key v).
Proof.
  revert gmin gmax. induction values as [|v values IH]; intros gmin gmax Hvs Hmin Hmax.
  { simpl. split_and!; try done; try apply key_lt_irrefl; try by left.
    intros v Hv. by apply elem_of_nil in Hv. }
  apply Forall_cons in Hvs as [Hv Hvs]. unfold scanRange. simpl.
  set (gmin' := if (v <? gmin)%float then v else gmin).
  set (gmax' := if (gmax <? v)%float then v else gmax).
  assert (number gmin') as Hmin' by (subst gmin'; by destruct (v <? gmin)%float).
  assert (number gmax') as Hmax' by (subst gmax'; by destruct (gmax <? v)%float).
  assert (gmin' ∈ [gmin; v] ∧ ¬ key_lt (float_key gmin) (float_key gmin') ∧
          ¬ key_lt (float_key v) (float_key gmin')) as (Hin1 & Hle1 & Hle1').
  { subst gmin'. destruct (v <? gmin)%float eqn:E.
    - apply float_ltb_key in E; [|done..].
      split_and!; [right; by left| |apply key_lt_irrefl].
      intros H. apply (key_lt_irrefl (float_key v)). by eapply key_lt_trans.
    - split_and!; [by left|apply key_lt_irrefl|].
      intros H. apply float_ltb_key in H; [|done..]. by rewrite H in E. }
  assert (gmax' ∈ [gmax; v] ∧ ¬ key_lt (float_key gmax') (float_key gmax) ∧
          ¬ key_lt (float_key gmax') (float_key v)) as (Hin2 & Hle2 & Hle2').
  { subst gmax'. destruct (gmax <? v)%float eqn:E.
    - apply float_ltb_key in E; [|done..].
      split_and!; [right; by left| |apply key_lt_irrefl].
      intros H. apply (key_lt_irrefl (float_key v)). by eapply key_lt_trans.
    - split_and!; [by left|apply key_lt_irrefl|].
      intros H. apply float_ltb_key in H; [|done..]. by rewrite H in E. }
  destruct (IH gmin' gmax' Hvs Hmin' Hmax')
    as (Hr1 & Hr2 & Hn1 & Hn2 & Hb1 & Hb2 & Hall).
  fold (scanRange values gmin' gmax') in *.
  set (range := scanRange values gmin' gmax') in *.
  assert (∀ a b c, ¬ key_lt b a → ¬ key_lt c b → ¬ key_lt c a) as Htrans.
  { intros a b c Hba Hcb Hca.
    destruct (key_lt_cases a b) as [Hab|[->|Hab]]; [|done..].
    destruct (key_lt_cases b c) as [Hbc|[->|Hbc]]; [|done..].
    apply (key_lt_irrefl a). eapply key_lt_trans; [exact Hab|].
    by eapply key_lt_trans. }
  assert (range.1 ∈ gmin :: v :: values) as Hr1'.
  { rewrite !elem_of_cons in *. rewrite !elem_of_nil in Hin1.
    destruct Hr1 as [->|Hr1]; [|by auto]. destruct Hin1 as [->|[->|[]]]; auto. }
  assert (range.2 ∈ gmax :: v :: values) as Hr2'.
  { rewrite !elem_of_cons in *. rewrite !elem_of_nil in Hin2.
    destruct Hr2 as [->|Hr2]; [|by auto]. destruct Hin2 as [->|[->|[]]]; auto. }
  split_and!; [done|done|done|done|..].
  - by apply (Htrans _ (float_key gmin')).
  - by apply (Htrans _ (float_key gmax')).
  - intros w Hw. apply elem_of_cons in Hw as [->|Hw]; [|by apply Hall]. split.
    + by apply (Htrans _ (float_key gmin')).
    + by apply (Htrans _ (float_key gmax')).
Qed.

Lemma allNumbers_sample (ds : facetTable) (v : float) :
  allNumbers ds → isSample ds v → number v.
Proof.
  intros Hn (facetCol & facetData & k & samples & Hfd & Hs & Hv).
  specialize (Hn _ _ Hfd _ _ Hs). simpl in Hn.
  rewrite Forall_forall in Hn. by apply Hn.
Qed.

(** What [globalRange] returns for one order of its loops. *)
Lemma globalRange_spec (it : iteration) (m : model) :
  iterates it (dataSource m) → allNumbers (dataSource m) →
  ∃ gmin gmax ok,
    globalRange it m = (gmin, gmax, ok) ∧
    (ok = true ↔ ∃ v, isSample (dataSource m) v) ∧
    (ok = false → gmin = 0%float ∧ gmax = 0%float) ∧
    (ok = true →
     isSample (dataSource m) gmin ∧ isSample (dataSource m) gmax ∧
     ∀ v, isSample (dataSource m) v →
          ¬ key_lt (float_key v) (float_key gmin) ∧
          ¬ key_lt (float_key gmax) (float_key v)).
Proof.
  intros Hit Hn. apply iterates_ranges in Hit as (_ & _ & Hcols & Hkeys).
  assert (∀ v, v ∈ allValues (dataSource m) (rangeKeysAll it) (rangeAll it) ↔
               isSample (dataSource m) v) as Hin
    by (intros v; by apply allValues_elem_of).
  unfold globalRange.
  destruct (allValues _ _ _) as [|first rest] eqn:E.
  - exists 0%float, 0%float, false. split_and!; try done.
    split; [done|]. intros [v Hv]. apply Hin in Hv. by apply elem_of_nil in Hv.
  - assert (Forall number (first :: rest)) as Hnum.
    { apply Forall_forall. intros v Hv. apply Hin in Hv.
      by apply (allNumbers_sample (dataSource m)). }
    assert (number first) as Hfirst by by apply Forall_cons in Hnum as [? _].
    destruct (scanRange_spec (first :: rest) first first Hnum Hfirst Hfirst)
      as (Hr1 & Hr2 & _ & _ & _ & _ & Hall).
    set (range := scanRange (first :: rest) first first) in *.
    exists range.1, range.2, true. split_and!.
    + by destruct range.
    + split; [|done]. intros _. exists first. apply Hin. by left.
    + done.
    + intros _. split_and!.
      * apply Hin. apply elem_of_cons in Hr1 as [->|Hr1]; [by left|done].
      * apply Hin. apply elem_of_cons in Hr2 as [->|Hr2]; [by left|done].
      * intros v Hv. apply Hall. by apply Hin.
Qed.

(** X11: when no sample of the data source is a NaN, [globalRange] reports
    a range exactly when the data source holds a sample; the bounds are samples
    themselves, no sample is below the minimum or above the maximum, and for
    every order in which the maps are iterated the bounds are equal as
    [float64] values. *)
Theorem globalRange_bounds (it it' : iteration) (m : model) :
  iterates it (dataSource m) → iterates it' (dataSource m) →
  allNumbers (dataSource m) →
  ∃ gmin gmax gmin' gmax' ok,
    globalRange it m = (gmin, gmax, ok) ∧
    globalRange it' m = (gmin', gmax', ok) ∧
    (ok = true ↔ ∃ v, isSample (dataSource m) v) ∧
    (ok = true →
     isSample (dataSource m) gmin ∧ isSample (dataSource m) gmax ∧
     ∀ v, isSample (dataSource m) v →
          (v <? gmin)%float = false ∧ (gmax <? v)%float = false) ∧
    (gmin =? gmin')%float = true ∧ (gmax =? gmax')%float = true.
Proof.
  intros Hit Hit' Hn.
  destruct (globalRange_spec it m Hit Hn)
    as (gmin & gmax & ok & Hrun & Hok & Hnone & Hsome).
  destruct (globalRange_spec it' m Hit' Hn)
    as (gmin' & gmax' & ok' & Hrun' & Hok' & Hnone' & Hsome').
  assert (ok' = ok) as ->.
  { destruct ok, ok'; try done.
    - by apply Hok', Hok.
    - symmetry. by apply Hok, Hok'. }
  exists gmin, gmax, gmin', gmax', ok. split_and!; [done..| | |].
  - intros Htrue. destruct (Hsome Htrue) as (Hmin & Hmax & Hall).
    split_and!; [done..|]. intros v Hv. destruct (Hall v Hv) as [H1 H2].
    pose proof (allNumbers_sample _ _ Hn Hv). pose proof (allNumbers_sample _ _ Hn Hmin).
    pose proof (allNumbers_sample _ _ Hn Hmax).
    split; apply not_true_iff_false; intros E; apply float_ltb_key in E; done.
  - destruct ok.
    + destruct (Hsome eq_refl) as (Hmin & _ & Hall).
      destruct (Hsome' eq_refl) as (Hmin' & _ & Hall').
      apply float_eqb_key; [by eapply allNumbers_sample..|].
      destruct (Hall _ Hmin') as [H1 _]. destruct (Hall' _ Hmin) as [H2 _].
      by destruct (key_lt_cases (float_key gmin) (float_key gmin')) as [?|[?|?]].
    + destruct (Hnone eq_refl) as [-> _]. destruct (Hnone' eq_refl) as [-> _]. done.
  - destruct ok.
    + destruct (Hsome eq_refl) as (_ & Hmax & Hall).
      destruct (Hsome' eq_refl) as (_ & Hmax' & Hall').
      apply float_eqb_key; [by eapply allNumbers_sample..|].
      destruct (Hall _ Hmax') as [_ H1]. destruct (Hall' _ Hmax) as [_ H2].
      by destruct (key_lt_cases (float_key gmax) (float_key gmax')) as [?|[?|?]].
    + destruct (Hnone eq_refl) as [_ ->]. destruct (Hnone' eq_refl) as [_ ->]. done.
Qed.

Lemma globalRange_bounds_witness :
  iterates exampleIteration (dataSource loadedModel) ∧
  iterates exampleIterationDescending (dataSource loadedModel) ∧
  allNumbers (dataSource loadedModel) ∧
  globalRange exampleIteration loadedModel = (8.7, 15.2, true)%float ∧
  ∃ gmin' gmax', globalRange exampleIterationDescending loadedModel
                   = (gmin', gmax', true) ∧
                 (8.7 =? gmin')%float = true ∧ (15.2 =? gmax')%float = true.
Proof.
  assert (iterates exampleIteration (dataSource loadedModel)) as Hit
    by by_computation.
  assert (iterates exampleIterationDescending (dataSource loadedModel)) as Hit'
    by by_computation.
  assert (allNumbers (dataSource loadedModel)) as Hn by by_computation.
  assert (globalRange exampleIteration loadedModel = (8.7, 15.2, true)%float) as Hrun
    by (vm_compute; reflexivity).
  split_and!; [exact Hit|exact Hit'|exact Hn|exact Hrun|].
  destruct (globalRange_bounds exampleIteration exampleIterationDescending
              loadedModel Hit Hit' Hn)
    as (gmin & gmax & gmin' & gmax' & ok & Hrun1 & Hrun' & _ & _ & Hmin & Hmax).
  rewrite Hrun in Hrun1. injection Hrun1 as <- <- <-.
  exists gmin', gmax'. split_and!; [exact Hrun'|exact Hmin|exact Hmax].
Defined.


(** ** Text wrapping *)

Lemma slen_nonneg (s : string) : 0 ≤ slen s.
Proof. unfold slen. lia. Qed.

Lemma slen_app (a b : string) : slen (a +:+ b) = slen a + slen b.
Proof.
  unfold slen. rewrite <- Nat2Z.inj_add. f_equal.
  induction a as [|c a IH]; simpl; [done|by rewrite IH].
Qed.

Lemma string_app_nil_l (a : string) : EmptyString +:+ a = a.
Proof. done. Qed.

Lemma string_app_cons (c : ascii) (a b : string) :
  String c a +:+ b = String c (a +:+ b).
Proof. done. Qed.

Ltac string_app := simpl; rewrite ?string_app_cons, ?string_app_nil_l; simpl.

Lemma string_app_nil_r (a : string) : a +:+ EmptyString = a.
Proof. induction a as [|c a IH]; string_app; [done|by f_equal]. Qed.

Lemma string_app_assoc (a b c : string) : (a +:+ b) +:+ c = a +:+ (b +:+ c).
Proof. induction a as [|x a IH]; string_app; [done|by f_equal]. Qed.

Lemma slice_app (n : nat) (s : string) : sliceTo n s +:+ sliceFrom n s = s.
Proof.
  revert s. induction n as [|n IH]; intros [|c s]; string_app; try done.
  f_equal. apply IH.
Qed.

Lemma sliceTo_length (n : nat) (s : string) :
  (n ≤ String.length s)%nat → String.length (sliceTo n s) = n.
Proof.
  revert s. induction n as [|n IH]; intros [|c s]; simpl; try done; try lia.
  intros H. rewrite IH; lia.
Qed.

Lemma sliceFrom_length (n : nat) (s : string) :
  String.length (sliceFrom n s) = (String.length s - n)%nat.
Proof.
  revert s. induction n as [|n IH]; intros [|c s]; simpl; try done; try lia.
Qed.

Lemma strip_app (a b : string) : strip (a +:+ b) = strip a +:+ strip b.
Proof.
  induction a as [|c a IH]; string_app; [done|].
  destruct (_ || _); string_app; [done|by f_equal].
Qed.

Lemma isWord_strip (s : string) : isWord s = true → strip s = s.
Proof.
  induction s as [|c s IH]; simpl; [done|].
  destruct (Ascii.eqb c newline), (Ascii.eqb c space); simpl; try done.
  intros H. f_equal. by apply IH.
Qed.

Lemma isWord_noNewline (s : string) : isWord s = true → noNewline s = true.
Proof.
  induction s as [|c s IH]; simpl; [done|].
  destruct (Ascii.eqb c newline), (Ascii.eqb c space); simpl; try done.
Qed.

Lemma isWord_slices (n : nat) (s : string) :
  isWord s = true → isWord (sliceTo n s) = true ∧ isWord (sliceFrom n s) = true.
Proof.
  revert s. induction n as [|n IH]; intros [|c s]; simpl; try done.
  destruct (Ascii.eqb c newline), (Ascii.eqb c space); simpl; try done.
  apply IH.
Qed.

Lemma noNewline_app (a b : string) :
  noNewline (a +:+ b) = noNewline a && noNewline b.
Proof.
  induction a as [|c a IH]; string_app; [done|].
  destruct (Ascii.eqb c newline); simpl; [done|apply IH].
Qed.

Lemma noNewline_Split (s : string) : noNewline s = true → Split s newline = [s].
Proof.
  induction s as [|c s IH]; simpl; [done|].
  destruct (Ascii.eqb c newline); simpl; [done|]. intros H. by rewrite IH.
Qed.

(** The fields of a string that ends with a separator, followed by more. *)
Lemma Split_closed (a c : string) (sep : ascii) (fields : list string) :
  Split a sep = fields ++ [EmptyString] →
  Split (a +:+ c) sep = fields ++ Split c sep.
Proof.
  revert fields. induction a as [|x a IH]; intros fields; string_app.
  { destruct fields as [|f [|]]; [done|done|done]. }
  destruct (Ascii.eqb x sep).
  - destruct fields as [|f fields]; simpl.
    + intros [= H]. pose proof (Split_nonempty a sep) as Hne. rewrite H in Hne.
      unfold len in Hne. simpl in Hne. lia.
    + intros [= <- H]. by rewrite (IH fields).
  - destruct (Split a sep) as [|f fs] eqn:E.
    + destruct fields as [|? [|]]; done.
    + destruct fields as [|f' fields]; simpl; [done|].
      intros [= <- ->]. by rewrite (IH (f :: fields)).
Qed.

Lemma Split_sep_end (s : string) (sep : ascii) :
  Split (s +:+ String sep EmptyString) sep = Split s sep ++ [EmptyString].
Proof.
  induction s as [|x s IH]; string_app.
  { by rewrite Ascii.eqb_refl. }
  destruct (Ascii.eqb x sep); rewrite IH; [done|].
  pose proof (Split_nonempty s sep) as Hne.
  destruct (Split s sep); [unfold len in Hne; simpl in Hne; lia|done].
Qed.

Lemma Split_fit (s : string) (sep : ascii) :
  Forall (λ field, slen field ≤ slen s) (Split s sep).
Proof.
  induction s as [|x s IH]; simpl.
  { apply Forall_singleton. done. }
  assert (slen (String x s) = slen s + 1) as E.
  { unfold slen. simpl. lia. }
  assert (Forall (λ field, slen field ≤ slen (String x s)) (Split s sep)) as IH'.
  { eapply Forall_impl; [exact IH|]. simpl. intros field Hf. rewrite E. lia. }
  destruct (Ascii.eqb x sep).
  - apply Forall_cons. split; [|done]. pose proof (slen_nonneg (String x s)). done.
  - destruct (Split s sep) as [|f fs]; [apply Forall_singleton; unfold slen; simpl; lia|].
    apply Forall_cons in IH as [Hf Hfs]. apply Forall_cons in IH' as [_ Hfs'].
    apply Forall_cons. split; [|done]. rewrite E. unfold slen in *. simpl. lia.
Qed.

Lemma len_app {A} (l1 l2 : list A) : len (l1 ++ l2) = len l1 + len l2.
Proof. unfold len. rewrite length_app. lia. Qed.

Lemma writeLine_spec (s : string) (width maxHeight : Z) (b : builder)
    (lines : list string) :
  holds width maxHeight b lines → slen s ≤ width → noNewline s = true →
  maxHeight < 2 ^ 63 →
  match writeLine s maxHeight b with
  | inl output =>
      0 < maxHeight ∧
      output = (wrapped b +:+ s +:+ String newline EmptyString) +:+ "..." ∧
      Split output newline = (lines ++ [s]) ++ ["..."] ∧
      fits width (lines ++ [s]) ∧ len (lines ++ [s]) = maxHeight
  | inr b' =>
      holds width maxHeight b' (lines ++ [s]) ∧
      wrapped b' = wrapped b +:+ s +:+ String newline EmptyString
  end.
Proof.
  intros (Hsplit & Hfits & Hcount) Hs Hnl Hmax. unfold writeLine.
  assert (Split (wrapped b +:+ s +:+ String newline EmptyString) newline =
          (lines ++ [s]) ++ [EmptyString]) as Hsplit'.
  { rewrite (Split_closed _ _ _ _ Hsplit), Split_sep_end, noNewline_Split by done.
    by rewrite <- !app_assoc. }
  assert (fits width (lines ++ [s])) as Hfits'.
  { apply Forall_app. split; [done|]. by apply Forall_singleton. }
  assert (len (lines ++ [s]) = len lines + 1) as Hlen by by rewrite len_app.
  destruct (Z.ltb_spec 0 maxHeight) as [Hpos|Hnone]; simpl.
  - destruct (Hcount Hpos) as [Hc Hlt].
    pose proof (len_nonneg lines).
    rewrite Hc, int_add_small by lia.
    destruct (Z.leb_spec maxHeight (len lines + 1)) as [Hfull|Hroom].
    + split_and!; [done|done| |done|lia].
      by rewrite (Split_closed _ _ _ _ Hsplit').
    + split; [|done]. split_and!; [done|done|]. simpl. intros _. lia.
  - split; [|done]. split_and!; [done|done|]. intros ?. lia.
Qed.

Lemma breakWord_spec (width maxHeight : Z) (fuel : nat) (word : string)
    (b : builder) (lines : list string) (line : string) :
  0 < width → maxHeight < 2 ^ 63 →
  holds width maxHeight b lines → isWord word = true → 0 < slen word →
  (String.length word ≤ fuel)%nat →
  ∃ r, breakWord fuel word width maxHeight b line = Some r ∧
       match r with
       | inl output =>
           ∃ lines' body rest,
             0 < maxHeight ∧ output = body +:+ "..." ∧
             Split output newline = lines' ++ ["..."] ∧ fits width lines' ∧
             len lines' = maxHeight ∧
             strip (wrapped b) +:+ word = strip body +:+ rest
       | inr (b', line') =>
           ∃ lines', holds width maxHeight b' lines' ∧ slen line' ≤ width ∧
                     isWord line' = true ∧
                     strip (wrapped b') +:+ line' = strip (wrapped b) +:+ word
       end.
Proof.
  intros Hwidth Hmax. revert word b lines.
  induction fuel as [|fuel IH]; intros word b lines Hb Hword Hlen Hfuel.
  { unfold slen in Hlen. lia. }
  simpl. rewrite (proj2 (Z.ltb_lt 0 (slen word))) by done.
  destruct (Z.leb_spec (slen word) width) as [Hshort|Hlong].
  { eexists. split; [done|]. simpl. by exists lines. }
  set (chunk := sliceTo (Z.to_nat width) word).
  set (tail := sliceFrom (Z.to_nat width) word).
  destruct (isWord_slices (Z.to_nat width) word Hword) as [Hchunk Htail].
  fold chunk in Hchunk. fold tail in Htail.
  assert (slen chunk = width) as Hclen.
  { unfold slen, chunk in *. rewrite sliceTo_length; lia. }
  assert (slen tail = slen word - width) as Htlen.
  { unfold slen, tail in *. rewrite sliceFrom_length. lia. }
  assert (chunk +:+ tail = word) as Hparts by apply slice_app.
  assert (strip (wrapped b +:+ chunk +:+ String newline EmptyString) +:+ tail =
          strip (wrapped b) +:+ word) as Hcontent.
  { rewrite !strip_app, (isWord_strip chunk) by done. simpl.
    rewrite string_app_nil_r, string_app_assoc. by rewrite Hparts. }
  pose proof (writeLine_spec chunk width maxHeight b lines Hb
                ltac:(lia) (isWord_noNewline _ Hchunk) Hmax) as Hwrite.
  destruct (writeLine chunk maxHeight b) as [output|b'].
  - destruct Hwrite as (Hpos & -> & Hsplit & Hfits & Hcount).
    eexists. split; [done|]. simpl.
    exists (lines ++ [chunk]), (wrapped b +:+ chunk +:+ String newline EmptyString), tail.
    by split_and!.
  - destruct Hwrite as [Hb' Hwrapped].
    destruct (IH tail b' (lines ++ [chunk]) Hb' Htail) as (r & -> & Hr).
    { lia. }
    { unfold slen in *. lia. }
    exists r. split; [done|]. destruct r as [output|[b'' line']].
    + destruct Hr as (lines' & body & rest & Hpos & -> & Hsplit & Hfits & Hcount & Hr).
      exists lines', body, rest. split_and!; [done..|].
      by rewrite <- Hr, Hwrapped.
    + destruct Hr as (lines' & Hb'' & Hline' & Hword' & Hr).
      exists lines'. split_and!; [done..|]. by rewrite Hr, Hwrapped.
Qed.

Lemma wrapWords_spec (width maxHeight : Z) (words : list string) (b : builder)
    (lines : list string) (line : string) :
  0 < width < 2 ^ 62 → maxHeight < 2 ^ 63 →
  Forall (λ word, slen word < 2 ^ 62 ∧ isWord word = true) words →
  holds width maxHeight b lines → slen line ≤ width → noNewline line = true →
  ∃ output,
    wrapWords words width maxHeight b line = Some output ∧
    wrappedAs width maxHeight
      (strip (wrapped b) +:+ strip line +:+ joined words) output.
Proof.
  intros Hwidth Hmax. revert b lines line.
  induction words as [|word words IH]; intros b lines line Hwords Hb Hline Hnl.
  { destruct Hb as (Hsplit & Hfits & Hcount). simpl. eexists. split; [done|].
    left. destruct (String.eqb_spec line EmptyString) as [->|Hne].
    - rewrite Hsplit. split_and!.
      + apply Forall_app. split; [done|]. apply Forall_singleton. unfold slen. simpl. lia.
      + simpl. by rewrite !string_app_nil_r.
      + intros Hpos. destruct (Hcount Hpos). rewrite len_app. unfold len at 2. simpl. lia.
    - rewrite (Split_closed _ _ _ _ Hsplit), noNewline_Split by done. split_and!.
      + apply Forall_app. split; [done|]. by apply Forall_singleton.
      + rewrite strip_app. simpl. by rewrite string_app_nil_r.
      + intros Hpos. destruct (Hcount Hpos). rewrite len_app. unfold len at 2. simpl. lia. }
  apply Forall_cons in Hwords as [[Hsize Hword] Hwords].
  pose proof (slen_nonneg line). pose proof (slen_nonneg word).
  simpl. unfold int_add. rewrite !wrap64_small by (rewrite ?wrap64_small; lia).
  assert (strip word = word) as Hstrip by by apply isWord_strip.
  destruct (Z.leb_spec (slen line + slen word + 1) width) as [Hjoin|Hfull].
  - set (line' := (if String.eqb line EmptyString then line else line +:+ " ") +:+ word).
    assert (slen line' ≤ width ∧ noNewline line' = true ∧
            strip line' = strip line +:+ word) as (Hline' & Hnl' & Hstrip').
    { subst line'. destruct (String.eqb line EmptyString).
      - rewrite slen_app, noNewline_app, strip_app, Hnl, Hstrip.
        rewrite (isWord_noNewline word) by done. split_and!; [lia|done..].
      - rewrite !slen_app, !noNewline_app, !strip_app, Hnl, Hstrip.
        rewrite (isWord_noNewline word) by done. simpl.
        rewrite string_app_nil_r. split_and!; [unfold slen at 2; simpl; lia|done..]. }
    destruct (IH b lines line' Hwords Hb Hline' Hnl') as (output & -> & Hout).
    exists output. split; [done|].
    by rewrite Hstrip', !string_app_assoc in Hout.
  - assert (∃ r, (if String.eqb line EmptyString then inr b
                  else writeLine line maxHeight b) = r ∧
                 match r with
                 | inl output =>
                     wrappedAs width maxHeight
                       (strip (wrapped b) +:+ strip line +:+ word +:+ joined words)
                       output
                 | inr b' =>
                     ∃ lines', holds width maxHeight b' lines' ∧
                               strip (wrapped b') = strip (wrapped b) +:+ strip line
                 end) as (r & -> & Hr).
    { eexists. split; [done|].
      destruct (String.eqb_spec line EmptyString) as [->|Hne].
      - exists lines. split; [done|]. simpl. by rewrite string_app_nil_r.
      - pose proof (writeLine_spec line width maxHeight b lines Hb Hline Hnl Hmax)
          as Hwrite.
        destruct (writeLine line maxHeight b) as [output|b'].
        + destruct Hwrite as (Hpos & -> & Hsplit & Hfits & Hcount). right.
          exists (lines ++ [line]), (wrapped b +:+ line +:+ String newline EmptyString),
            (word +:+ joined words).
          split_and!; [done..|].
          rewrite !strip_app. simpl. by rewrite string_app_nil_r, !string_app_assoc.
        + destruct Hwrite as [Hb' Hwrapped]. exists (lines ++ [line]).
          split; [done|]. rewrite Hwrapped, !strip_app. simpl.
          by rewrite string_app_nil_r. }
    destruct r as [output|b']; [by exists output|].
    destruct Hr as (lines' & Hb' & Hwrapped).
    destruct (Z.ltb_spec width (slen word)) as [Hlong|Hshort].
    + destruct (breakWord_spec width maxHeight (String.length word) word b' lines'
                  line) as (r & -> & Hr); [lia|done|done|done|lia|lia|].
      destruct r as [output|[b'' line'']].
      * destruct Hr as (lines'' & body & rest & Hpos & -> & Hsplit & Hfits & Hcount & Hr).
        eexists. split; [done|]. right.
        exists lines'', body, (rest +:+ joined words). split_and!; [done..|].
        rewrite <- (string_app_assoc (strip body) rest), <- Hr, Hwrapped.
        by rewrite !string_app_assoc.
      * destruct Hr as (lines'' & Hb'' & Hline'' & Hword'' & Hr).
        destruct (IH b'' lines'' line'' Hwords Hb'' Hline'')
          as (output & -> & Hout); [by apply isWord_noNewline|].
        exists output. split; [done|].
        rewrite (isWord_strip line'') in Hout by done.
        rewrite <- string_app_assoc, Hr, Hwrapped in Hout.
        by rewrite !string_app_assoc in Hout.
    + destruct (IH b' lines' word Hwords Hb' Hshort) as (output & -> & Hout);
        [by apply isWord_noNewline|].
      exists output. split; [done|].
      rewrite Hstrip, Hwrapped in Hout. by rewrite !string_app_assoc in Hout.
Qed.

Lemma wrapText_spec (Fields : string → list string) (text : string)
    (width maxHeight : Z) :
  slen text < 2 ^ 62 → maxHeight < 2 ^ 63 →
  Forall (λ word, slen word < 2 ^ 62 ∧ isWord word = true) (Fields text) →
  ∃ output,
    wrapText Fields text width maxHeight = Some output ∧
    (width ≤ 0 ∨ slen text ≤ width → output = text) ∧
    (0 < width < slen text →
     wrappedAs width maxHeight (joined (Fields text)) output).
Proof.
  intros Htext Hmax Hwords. unfold wrapText.
  destruct (Z.leb_spec width 0) as [Hzero|Hpos]; simpl.
  { exists text. split_and!; [done..|lia]. }
  destruct (Z.leb_spec (slen text) width) as [Hshort|Hlong].
  { exists text. split_and!; [done..|lia]. }
  destruct (wrapWords_spec width maxHeight (Fields text) (Builder EmptyString 0) []
              EmptyString) as (output & -> & Hout);
    [lia|done|done| |unfold slen; simpl; lia|done|].
  { refine (conj _ (conj _ _)).
    - done.
    - by apply Forall_nil.
    - intros ?. simpl. unfold len. simpl. lia. }
  exists output. split_and!; [done|lia|]. intros _. exact Hout.
Qed.

(** X12: [wrapText] returns the text itself when [width] is not positive or
    the text is no longer than [width] bytes.  Otherwise it always returns, and
    every line of what it returns is at most [width] bytes long (a word longer
    than [width] is cut into pieces of [width] bytes), with at most [maxHeight]
    lines when [maxHeight] is positive; except that a text that needs more
    lines is cut after [maxHeight] lines, which are then followed by one more
    line, "...". *)
Theorem wrapText_lines_fit (Fields : string → list string) (text : string)
    (width maxHeight : Z) :
  slen text < 2 ^ 62 → maxHeight < 2 ^ 63 →
  Forall (λ word, slen word < 2 ^ 62 ∧ isWord word = true) (Fields text) →
  ∃ output,
    wrapText Fields text width maxHeight = Some output ∧
    (width ≤ 0 ∨ slen text ≤ width → output = text) ∧
    (0 < width < slen text →
     (Forall (λ line, slen line ≤ width) (Split output newline) ∧
      (0 < maxHeight → len (Split output newline) ≤ maxHeight)) ∨
     (0 < maxHeight ∧
      ∃ lines, Split output newline = lines ++ ["..."] ∧
               Forall (λ line, slen line ≤ width) lines ∧
               len lines = maxHeight)).
Proof.
  intros Htext Hmax Hwords.
  destruct (wrapText_spec Fields text width maxHeight Htext Hmax Hwords)
    as (output & Hrun & Hsame & Hwrapped).
  exists output. split_and!; [done..|]. intros Hwidth.
  destruct (Hwrapped Hwidth)
    as [(Hfits & _ & Hcount)
       |(lines & body & rest & Hpos & _ & Hsplit & Hfits & Hcount & _)].
  - by left.
  - right. split; [done|]. by exists lines.
Qed.

(** X13: what [wrapText] returns for a text longer than a positive [width]
    holds the bytes of the words of the text, in their order, and besides them
    only spaces and newlines; or, when the result is cut at [maxHeight] lines,
    the bytes of a prefix of the words followed by "...". *)
Theorem wrapText_keeps_words (Fields : string → list string) (text : string)
    (width maxHeight : Z) :
  slen text < 2 ^ 62 → maxHeight < 2 ^ 63 →
  Forall (λ word, slen word < 2 ^ 62 ∧ isWord word = true) (Fields text) →
  0 < width < slen text →
  ∃ output,
    wrapText Fields text width maxHeight = Some output ∧
    (strip output = joined (Fields text) ∨
     (0 < maxHeight ∧
      ∃ body rest, output = body +:+ "..." ∧
                   joined (Fields text) = strip body +:+ rest)).
Proof.
  intros Htext Hmax Hwords Hwidth.
  destruct (wrapText_spec Fields text width maxHeight Htext Hmax Hwords)
    as (output & Hrun & _ & Hwrapped).
  exists output. split; [done|].
  destruct (Hwrapped Hwidth)
    as [(_ & Hstrip & _)
       |(lines & body & rest & Hpos & Hout & _ & _ & _ & Hcontent)].
  - by left.
  - right. split; [done|]. by exists body, rest.
Qed.

Lemma wrapText_lines_fit_witness :
  slen "alpha beta gamma delta" < 2 ^ 62 ∧
  Forall (λ word, slen word < 2 ^ 62 ∧ isWord word = true)
    (asciiFields "alpha beta gamma delta") ∧
  wrapText asciiFields "alpha beta gamma delta" 11 3
    = Some ("alpha beta" +:+ String newline "gamma delta") ∧
  wrapText asciiFields "alpha beta gamma delta" 5 3
    = Some ("alpha" +:+ String newline ("beta" +:+ String newline
              ("gamma" +:+ String newline "..."))) ∧
  ∃ output, wrapText asciiFields "alpha beta gamma delta" 11 3 = Some output ∧
            Forall (λ line, slen line ≤ 11) (Split output newline).
Proof.
  assert (slen "alpha beta gamma delta" < 2 ^ 62) as Htext by (vm_compute; reflexivity).
  assert (Forall (λ word, slen word < 2 ^ 62 ∧ isWord word = true)
            (asciiFields "alpha beta gamma delta")) as Hwords by by_computation.
  split_and!; [exact Htext|exact Hwords|vm_compute; reflexivity..|].
  destruct (wrapText_lines_fit asciiFields "alpha beta gamma delta" 11 3
              Htext ltac:(vm_compute; reflexivity) Hwords)
    as (output & Hrun & _ & Hfits).
  exists output. split; [exact Hrun|].
  destruct Hfits as [[Hfits _]|(_ & lines & Hsplit & _ & Hcount)];
    [vm_compute; split; reflexivity|exact Hfits|].
  exfalso. clear - Hrun Hsplit.
  assert (wrapText asciiFields "alpha beta gamma delta" 11 3
          = Some ("alpha beta" +:+ String newline "gamma delta")) as E
    by (vm_compute; reflexivity).
  rewrite E in Hrun. injection Hrun as <-.
  assert (Split ("alpha beta" +:+ String newline "gamma delta") newline
          = ["alpha beta"; "gamma delta"]) as E' by (vm_compute; reflexivity).
  rewrite E' in Hsplit. by destruct lines as [|? [|? [|]]].
Defined.

Lemma wrapText_keeps_words_witness :
  slen "alpha beta gamma delta" < 2 ^ 62 ∧
  Forall (λ word, slen word < 2 ^ 62 ∧ isWord word = true)
    (asciiFields "alpha beta gamma delta") ∧
  joined (asciiFields "alpha beta gamma delta") = "alphabetagammadelta" ∧
  ∃ output,
    wrapText asciiFields "alpha beta gamma delta" 5 3 = Some output ∧
    (strip output = "alphabetagammadelta" ∨
     ∃ body rest, output = body +:+ "..." ∧
                  "alphabetagammadelta" = strip body +:+ rest).
Proof.
  assert (slen "alpha beta gamma delta" < 2 ^ 62) as Htext by (vm_compute; reflexivity).
  assert (Forall (λ word, slen word < 2 ^ 62 ∧ isWord word = true)
            (asciiFields "alpha beta gamma delta")) as Hwords by by_computation.
  assert (joined (asciiFields "alpha beta gamma delta") = "alphabetagammadelta")
    as Hjoined by (vm_compute; reflexivity).
  split_and!; [exact Htext|exact Hwords|exact Hjoined|].
  destruct (wrapText_keeps_words asciiFields "alpha beta gamma delta" 5 3
              Htext ltac:(vm_compute; reflexivity) Hwords
              ltac:(vm_compute; split; reflexivity))
    as (output & Hrun & Hkept).
  exists output. split; [exact Hrun|]. rewrite Hjoined in Hkept.
  destruct Hkept as [Hstrip|(_ & body & rest & Hout & Hcontent)].
  - by left.
  - right. by exists body, rest.
Defined.


(** ** The window of [View] *)

Lemma view_window_bounds (contentLines : list string)
    (winHeight staticHeight scrollOffset : Z) :
  - 2 ^ 62 ≤ winHeight < 2 ^ 62 → - 2 ^ 62 ≤ staticHeight < 2 ^ 62 →
  len contentLines < 2 ^ 62 → scrollOffset < 2 ^ 62 → 0 ≤ scrollOffset →
  let availableHeight := Z.max 1 (winHeight - staticHeight) in
  let first := Z.min scrollOffset (Z.max 0 (len contentLines - availableHeight)) in
  ∃ shown,
    visibleLines contentLines winHeight staticHeight scrollOffset = Some shown ∧
    shown = take (Z.to_nat availableHeight) (drop (Z.to_nat first) contentLines) ∧
    len shown = Z.min availableHeight (len contentLines).
Proof.
  intros Hwin Hstatic Hlen Hscroll Hpos availableHeight first.
  pose proof (len_nonneg contentLines) as Hnonneg.
  unfold visibleLines, min, int_sub, int_add.
  rewrite (wrap64_small (winHeight - staticHeight)) by lia.
  assert ((if winHeight - staticHeight <? 1 then 1 else winHeight - staticHeight)
          = availableHeight) as ->.
  { subst availableHeight. destruct (Z.ltb_spec (winHeight - staticHeight) 1); lia. }
  assert (1 ≤ availableHeight < 2 ^ 63) as Havail by (subst availableHeight; lia).
  rewrite (wrap64_small (len contentLines - availableHeight)) by lia.
  set (maxScroll := if len contentLines - availableHeight <? 0 then 0
                    else len contentLines - availableHeight).
  assert (maxScroll = Z.max 0 (len contentLines - availableHeight)) as HmaxScroll.
  { subst maxScroll. destruct (Z.ltb_spec (len contentLines - availableHeight) 0); lia. }
  set (offset := if maxScroll <? scrollOffset then maxScroll else scrollOffset).
  assert (offset = Z.min scrollOffset maxScroll) as Hoffset.
  { subst offset. destruct (Z.ltb_spec maxScroll scrollOffset); lia. }
  rewrite (wrap64_small (offset + availableHeight)) by lia.
  set (high := if offset + availableHeight <? len contentLines
               then offset + availableHeight else len contentLines).
  assert (high = Z.min (offset + availableHeight) (len contentLines)) as Hhigh.
  { subst high. destruct (Z.ltb_spec (offset + availableHeight) (len contentLines)); lia. }
  rewrite (proj2 (Z.leb_le 0 offset)), (proj2 (Z.leb_le offset high)) by lia.
  simpl. eexists. split; [done|].
  assert (offset = first) as Hfirst by (subst first; lia).
  assert (high - offset = Z.min availableHeight (len contentLines)) as Hshown by lia.
  rewrite Hfirst in *. split.
  + rewrite Hshown. destruct (Z.le_gt_cases availableHeight (len contentLines)).
    * by rewrite Z.min_l.
    * rewrite Z.min_r by lia. rewrite !take_ge; [done|..];
        rewrite length_drop; unfold len in *; lia.
  + unfold len in *. rewrite length_take, length_drop. lia.
Qed.

(** X14: for a scroll offset that is not negative, [View] never slices the
    content out of range; it shows the lines from the offset on, the offset
    first clamped so that the window stays full: as many lines as the window
    has below the header (at least one), or all lines of a shorter content.
    A negative scroll offset makes the slice expression panic. *)
Theorem view_window (contentLines : list string)
    (winHeight staticHeight scrollOffset : Z) :
  - 2 ^ 62 ≤ winHeight < 2 ^ 62 → - 2 ^ 62 ≤ staticHeight < 2 ^ 62 →
  len contentLines < 2 ^ 62 → scrollOffset < 2 ^ 62 →
  let availableHeight := Z.max 1 (winHeight - staticHeight) in
  let first := Z.min scrollOffset (Z.max 0 (len contentLines - availableHeight)) in
  (0 ≤ scrollOffset →
   ∃ shown,
     visibleLines contentLines winHeight staticHeight scrollOffset = Some shown ∧
     shown = take (Z.to_nat availableHeight) (drop (Z.to_nat first) contentLines) ∧
     len shown = Z.min availableHeight (len contentLines)) ∧
  (scrollOffset < 0 →
   visibleLines contentLines winHeight staticHeight scrollOffset = None).
Proof.
  intros Hwin Hstatic Hlen Hscroll availableHeight first. split.
  - intros Hpos. by apply view_window_bounds.
  - intros Hneg. pose proof (len_nonneg contentLines) as Hnonneg.
    unfold visibleLines, int_sub.
    rewrite (wrap64_small (winHeight - staticHeight)) by lia.
    set (available := if winHeight - staticHeight <? 1 then 1
                      else winHeight - staticHeight).
    assert (1 ≤ available < 2 ^ 63) as Havail
      by (subst available; destruct (Z.ltb_spec (winHeight - staticHeight) 1); lia).
    rewrite (wrap64_small (len contentLines - available)) by lia.
    set (maxScroll := if len contentLines - available <? 0 then 0
                      else len contentLines - available).
    assert (0 ≤ maxScroll) as HmaxScroll
      by (subst maxScroll; destruct (Z.ltb_spec (len contentLines - available) 0); lia).
    rewrite (proj2 (Z.ltb_ge maxScroll scrollOffset)) by lia.
    by rewrite (proj2 (Z.leb_gt 0 scrollOffset)) by lia.
Qed.

Lemma view_window_witness :
  ∃ shown,
    visibleLines ["a"; "b"; "c"; "d"; "e"] 7 4 10 = Some shown ∧
    shown = ["c"; "d"; "e"] ∧ len shown = 3.
Proof.
  destruct (view_window ["a"; "b"; "c"; "d"; "e"] 7 4 10) as [Hshown _];
    [vm_compute; split; (discriminate || reflexivity)..|vm_compute; reflexivity| |].
  - vm_compute; reflexivity.
  - destruct Hshown as (shown & Hrun & Hlines & Hlen); [vm_compute; discriminate|].
    exists shown. split_and!; [exact Hrun|exact Hlines|exact Hlen].
Defined.

(** ** The scroll offset *)

Lemma resetActiveFacet_scrollOffset (it : iteration) (m : model) :
  scrollOffset (resetActiveFacet it m) = scrollOffset m.
Proof. unfold resetActiveFacet. by repeat case_match. Qed.

Lemma processLine_scrollOffset (TrimSpace : string → string)
    (ParseFloat : string → option float) (line : string) (m m' : model) :
  processLine TrimSpace ParseFloat line m = Some m' →
  scrollOffset m' = scrollOffset m.
Proof.
  unfold processLine.
  destruct (unfiltered_frame TrimSpace ParseFloat line
              (set_storedLines (storedLines m ++ [line]) m)) as (m1 & -> & Hframe1).
  assert (scrollOffset m1 = scrollOffset m) as <- by by rewrite Hframe1.
  simpl. case_match; [|by intros [= <-]].
  intros Hrun. apply processLineWithFilter_frame in Hrun. by rewrite Hrun.
Qed.

Lemma Update_scrollOffset (TrimSpace : string → string)
    (ParseFloat : string → option float) (it : iteration) (message : msg)
    (m m' : model) (n : Z) :
  Update TrimSpace ParseFloat it message m = Some m' →
  facetPositions m = ∅ → 0 ≤ scrollOffset m ≤ n → n < 2 ^ 63 - 1 →
  0 ≤ scrollOffset m' ≤ n + 1.
Proof.
  intros Hrun Hpos Hscroll Hn.
  assert (∀ f, scrollOffset (resetActiveFacet it (set_scrollOffset 0 (set_facet f m)))
               = 0) as Hreset by (intros f; by rewrite resetActiveFacet_scrollOffset).
  assert (∀ dx dy, scrollOffset (navigateGrid it dx dy m) = scrollOffset m) as Hmove
    by (intros dx dy; by apply navigateGrid_unknown).
  destruct message as [available|width height|k]; simpl in Hrun.
  - assert (scrollOffset m' = scrollOffset m) as ->; [|lia].
    clear Hpos Hscroll Hreset Hmove. revert m Hrun.
    induction available as [|line available IH]; intros m Hrun; simpl in Hrun.
    { by injection Hrun as <-. }
    destruct (processLine _ _ line m) as [m1|] eqn:E; simpl in Hrun; [|done].
    apply processLine_scrollOffset in E. rewrite <- E. by apply IH.
  - injection Hrun as <-. simpl. lia.
  - destruct k; try (injection Hrun as <-; rewrite ?Hmove, ?Hreset; simpl; lia).
    + destruct (0 <? facet m); injection Hrun as <-; rewrite ?Hreset; lia.
    + repeat case_match; injection Hrun as <-; rewrite ?Hreset; lia.
    + injection Hrun as <-. simpl. unfold int_sub. rewrite wrap64_small by lia.
      destruct (Z.ltb_spec (scrollOffset m - 1) 0); lia.
    + injection Hrun as <-. simpl. unfold int_add. rewrite wrap64_small by lia. lia.
    + apply togglePin_cases in Hrun as [->|(pins & cols & [[-> ->]|[_ Hrun]])];
        [lia|simpl; lia|].
      apply regenerateFilteredData_frame in Hrun. rewrite Hrun. simpl. lia.
Qed.

(** X15: in the state reached by fewer than 2^63 messages the scroll offset
    is not negative and at most the number of messages, so the slice
    expression of [View] does not panic on it. *)
Theorem scroll_offset_in_range (TrimSpace : string → string)
    (ParseFloat : string → option float) (steps : list (iteration * msg)) (f : Z) :
  len steps < 2 ^ 63 →
  ∃ m, runUpdates TrimSpace ParseFloat steps (initialModel f) = Some m ∧
       0 ≤ scrollOffset m ≤ len steps ∧
       ∀ contentLines staticHeight,
         - 2 ^ 62 ≤ winHeight m < 2 ^ 62 → - 2 ^ 62 ≤ staticHeight < 2 ^ 62 →
         len contentLines < 2 ^ 62 → len steps < 2 ^ 62 →
         is_Some (visibleLines contentLines (winHeight m) staticHeight
                    (scrollOffset m)).
Proof.
  intros Hsteps.
  destruct (runUpdates_valid TrimSpace ParseFloat steps (initialModel f)
              (initialModel_valid f)) as (m & Hrun & _).
  exists m. split; [done|].
  assert (∀ steps m0 n m,
            runUpdates TrimSpace ParseFloat steps m0 = Some m →
            facetPositions m0 = ∅ → 0 ≤ scrollOffset m0 ≤ n →
            n + len steps < 2 ^ 63 → 0 ≤ scrollOffset m ≤ n + len steps) as Hgen.
  { clear. induction steps as [|[it message] steps IH];
      intros m0 n m Hrun Hpos Hn Hbound; simpl in Hrun.
    { injection Hrun as <-. unfold len. simpl. lia. }
    destruct (Update _ _ it message m0) as [m1|] eqn:E; simpl in Hrun; [|done].
    pose proof (len_nonneg steps).
    assert (len ((it, message) :: steps) = 1 + len steps) as Hlen
      by (unfold len; simpl; lia).
    rewrite Hlen in *.
    destruct (Update_keeps_layout _ _ _ _ _ _ E) as [Hpos1 _].
    pose proof (Update_scrollOffset _ _ _ _ _ _ n E Hpos Hn ltac:(lia)) as Hn1.
    assert (facetPositions m1 = ∅) as Hpos1' by congruence.
    specialize (IH m1 (n + 1) m Hrun Hpos1' Hn1 ltac:(lia)). lia. }
  assert (0 ≤ scrollOffset m ≤ len steps) as Hscroll.
  { specialize (Hgen steps (initialModel f) 0 m Hrun eq_refl). simpl in Hgen.
    apply Hgen; lia. }
  split; [done|].
  intros contentLines staticHeight Hwin Hstatic Hlen Hsmall.
  destruct (view_window_bounds contentLines (winHeight m) staticHeight (scrollOffset m))
    as (shown & -> & _); [done|done|done|lia|lia|]. done.
Qed.

Lemma scroll_offset_in_range_witness :
  ∃ m, runUpdates asciiTrimSpace exampleParseFloat
         [(exampleIteration, KeyMsg KeyJ); (exampleIteration, KeyMsg KeyJ);
          (exampleIteration, KeyMsg KeyK)] (initialModel 0) = Some m ∧
       0 ≤ scrollOffset m ≤ 3.
Proof.
  destruct (scroll_offset_in_range asciiTrimSpace exampleParseFloat
              [(exampleIteration, KeyMsg KeyJ); (exampleIteration, KeyMsg KeyJ);
               (exampleIteration, KeyMsg KeyK)] 0) as (m & Hrun & Hscroll & _);
    [vm_compute; reflexivity|].
  exists m. split; [exact Hrun|exact Hscroll].
Defined.


(** ** The string histogram *)

Lemma countLess_spec (a b : string * Z) : countLess a b = true ↔ countBefore a b.
Proof.
  unfold countLess, countBefore. destruct (Z.eqb_spec a.2 b.2) as [E|N]; simpl.
  - split; [by right|]. intros [?|[_ ?]]; [lia|done].
  - rewrite Z.ltb_lt. split; [by left|]. intros [?|[? _]]; [done|lia].
Qed.

Lemma countLess_irrefl (a : string * Z) : countLess a a = false.
Proof.
  apply not_true_is_false. rewrite countLess_spec. unfold countBefore.
  rewrite string_ltb_irrefl. intros [?|[_ ?]]; [lia|done].
Qed.

Lemma countLess_trans (a b c : string * Z) :
  countLess a b = true → countLess b c = true → countLess a c = true.
Proof.
  rewrite !countLess_spec. unfold countBefore.
  intros [?|[? ?]] [?|[? ?]]; [left; lia..|].
  right. split; [lia|]. by apply (string_ltb_trans a.1 b.1 c.1).
Qed.

Lemma countLess_total (a b : string * Z) :
  a ≠ b → countLess a b = true ∨ countLess b a = true.
Proof.
  rewrite !countLess_spec. unfold countBefore. intros Hne.
  destruct (Z.lt_trichotomy a.2 b.2) as [?|[E|?]]; [right; by left| |left; by left].
  assert (a.1 ≠ b.1) as Hvalue.
  { intros E'. apply Hne. destruct a, b; simpl in *; congruence. }
  destruct (string_ltb_total a.1 b.1 Hvalue); [left|right]; right; done.
Qed.

Lemma StronglySorted_weaken {A} (R R' : A → A → Prop) (l : list A) :
  (∀ a b, R a b → R' a b) → StronglySorted R l → StronglySorted R' l.
Proof.
  intros HR. induction 1 as [|a l Hl IH Ha]; constructor; [done|].
  eapply Forall_impl; [exact Ha|]. apply HR.
Qed.

(** X16: the string histogram is drawn exactly when a string was counted.
    Its lines are the counted strings, each once with its count, the greater
    count first and of equal counts the string that is smaller in byte order;
    the first line holds the greatest count, against which every bar is scaled;
    no bar is shorter than 3; and the lines do not depend on the order in which
    the map is iterated. *)
Theorem string_histogram_ranking (indefinite : Z) (order : list (string * Z))
    (m : model) :
  order ≡ₚ map_to_list (stringValues m) →
  (stringValues m = ∅ → renderStringHistogram indefinite order m = None) ∧
  (stringValues m ≠ ∅ →
   ∃ rows,
     renderStringHistogram indefinite order m = Some rows ∧
     rows.*1 ≡ₚ map_to_list (stringValues m) ∧
     StronglySorted countBefore rows.*1 ∧
     (∃ value maxCount bar rest,
        rows = (value, maxCount, bar) :: rest ∧
        ∀ s count, stringValues m !! s = Some count → count ≤ maxCount) ∧
     (∀ row, row ∈ rows → 3 ≤ row.2) ∧
     (∀ order', order' ≡ₚ map_to_list (stringValues m) →
        renderStringHistogram indefinite order' m = Some rows)).
Proof.
  intros Horder. unfold renderStringHistogram. split.
  { intros ->. by rewrite map_size_empty. }
  intros Hne.
  assert (size (stringValues m) ≠ 0%nat) as Hsize.
  { intros E. by apply map_size_empty_inv in E. }
  rewrite (proj2 (Z.eqb_neq _ 0)) by lia.
  assert (NoDup order) as Hnodup.
  { rewrite Horder. apply NoDup_map_to_list. }
  assert (∀ l : list (string * Z), Forall (λ _, True) l) as Hall
    by (intros l; by apply Forall_forall).
  pose proof (sort_Slice_perm countLess order) as Hperm.
  pose proof (sort_Slice_sorted countLess (λ _, True)
                (λ a _, countLess_irrefl a)
                (λ a b c _ _ _, countLess_trans a b c)
                (λ a b _ _, countLess_total a b) order (Hall _) Hnodup) as Hsorted.
  set (counts := sort_Slice countLess order) in *.
  set (maxCount := (default (EmptyString, 0) (counts !! 0%nat)).2).
  set (barWidth := Z.quot (winWidth m) 2).
  set (row := λ item : string * Z,
                (item, barLength indefinite item.2 maxCount barWidth)).
  assert ((row <$> counts).*1 = counts) as Hfst.
  { generalize counts. intros l.
    induction l as [|item l IH]; simpl; [done|by f_equal]. }
  eexists. split; [done|]. rewrite Hfst. split_and!.
  - by rewrite Hperm.
  - eapply StronglySorted_weaken; [|exact Hsorted].
    intros a b Hab. by apply countLess_spec.
  - destruct counts as [|[value count] rest] eqn:E.
    { apply Permutation_nil_l in Hperm. rewrite <- Hperm in Horder.
      symmetry in Horder. apply Permutation_nil_r in Horder.
      apply map_to_list_empty_iff in Horder. done. }
    exists value, count, (barLength indefinite count maxCount barWidth),
      (row <$> rest).
    split; [done|]. intros s c Hs.
    assert ((s, c) ∈ (value, count) :: rest) as Hin.
    { rewrite Hperm, Horder. by apply elem_of_map_to_list. }
    apply elem_of_cons in Hin as [[= -> ->]|Hin]; [lia|].
    apply StronglySorted_inv in Hsorted as [_ Hfirst].
    rewrite Forall_forall in Hfirst. specialize (Hfirst _ Hin).
    apply countLess_spec in Hfirst. unfold countBefore in Hfirst. simpl in Hfirst. lia.
  - intros r Hr. apply list_elem_of_fmap in Hr as (item & -> & _).
    simpl. unfold barLength. case_match; [lia|]. lia.
  - intros order' Horder'.
    assert (sort_Slice countLess order' = counts) as ->; [|done].
    symmetry. apply (sort_Slice_unique countLess (λ _, True)
                (λ a _, countLess_irrefl a)
                (λ a b c _ _ _, countLess_trans a b c)
                (λ a b _ _, countLess_total a b)); [done..|].
    by rewrite Horder, Horder'.
Qed.

Lemma string_histogram_ranking_witness :
  [("warn", 1); ("err", 2)] ≡ₚ map_to_list (stringValues stringsModel) ∧
  [("err", 2); ("warn", 1)] ≡ₚ map_to_list (stringValues stringsModel) ∧
  renderStringHistogram amd64_indefinite [("warn", 1); ("err", 2)] stringsModel
    = Some [("err", 2, 40); ("warn", 1, 20)] ∧
  ∃ rows,
    renderStringHistogram amd64_indefinite [("warn", 1); ("err", 2)] stringsModel
      = Some rows ∧
    renderStringHistogram amd64_indefinite [("err", 2); ("warn", 1)] stringsModel
      = Some rows.
Proof.
  assert (map_to_list (stringValues stringsModel) = [("warn", 1); ("err", 2)])
    as Hlist by (vm_compute; reflexivity).
  assert ([("warn", 1); ("err", 2)] ≡ₚ map_to_list (stringValues stringsModel))
    as Horder by (rewrite Hlist; apply Permutation_refl).
  assert ([("err", 2); ("warn", 1)] ≡ₚ map_to_list (stringValues stringsModel))
    as Horder' by (rewrite Hlist; apply perm_swap).
  assert (stringValues stringsModel ≠ ∅) as Hne.
  { intros E. rewrite E in Hlist. vm_compute in Hlist. discriminate Hlist. }
  split_and!; [exact Horder|exact Horder'|vm_compute; reflexivity|].
  destruct (string_histogram_ranking amd64_indefinite _ stringsModel Horder)
    as [_ Hrows].
  destruct (Hrows Hne) as (rows & Hrun & _ & _ & _ & _ & Hindependent).
  exists rows. split; [exact Hrun|]. apply Hindependent. exact Horder'.
Defined.


(** ** Moves on the grid and down the list *)

Lemma gridWidth_positive (m : model) : 1 ≤ gridWidth m.
Proof.
  unfold gridWidth. destruct (Z.ltb_spec (gridColumns m) 1); [|lia].
  match goal with |- context [?f 1 (Z.quot _ _)] => unfold f end.
  destruct (Z.ltb_spec (Z.quot (winWidth m) 60) 1); lia.
Qed.

(** The index arithmetic of the single-facet branch, for an index and a
    grid width far below the range of [int]. *)
Lemma grid_target (i c dx dy : Z) :
  0 ≤ i < 2 ^ 31 → 1 ≤ c < 2 ^ 31 → -1 ≤ dx ≤ 1 → -1 ≤ dy ≤ 1 →
  int_add (int_mul (int_add (Z.quot i c) dy) c) (int_add (Z.rem i c) dx)
    = i + dy * c + dx ∧
  int_add (Z.quot i c) dy = Z.quot i c + dy ∧
  int_add (Z.rem i c) dx = Z.rem i c + dx ∧
  0 ≤ Z.quot i c ∧ 0 ≤ Z.rem i c < c ∧ (Z.quot i c = 0 ↔ i < c) ∧
  i + dy * c + dx = (Z.quot i c + dy) * c + (Z.rem i c + dx).
Proof.
  intros Hi Hc Hdx Hdy.
  pose proof (Z.quot_rem' i c) as Hqr.
  pose proof (Z.rem_bound_pos i c ltac:(lia) ltac:(lia)) as Hrem.
  pose proof (Z.quot_pos i c ltac:(lia) ltac:(lia)) as Hquot.
  generalize dependent (Z.quot i c). generalize dependent (Z.rem i c).
  intros r Hr q Hqr Hq.
  assert (q ≤ i) as Hqi by nia.
  assert (- 2 ^ 62 ≤ (q + dy) * c < 2 ^ 62) as Hprod.
  { assert (2 ^ 31 * 2 ^ 31 = 2 ^ 62) as <- by reflexivity. nia. }
  unfold int_add, int_mul.
  rewrite (wrap64_small (q + dy)) by lia.
  rewrite (wrap64_small (r + dx)) by lia.
  rewrite (wrap64_small ((q + dy) * c)) by lia.
  rewrite (wrap64_small ((q + dy) * c + (r + dx))) by lia.
  split_and!; try done; try lia; nia.
Qed.

(** One move of the single-facet view from the selected key at index [i]. *)
Lemma single_move (it : iteration) (dx dy : Z) (m : model) (facetData : facetMap)
    (keys : list string) (i c : Z) :
  0 < facet m → dataSource m !! facet m = Some facetData →
  keys = singleKeys it m → i = selected keys m → c = gridWidth m →
  i ≠ -1 → c < 2 ^ 31 → len keys < 2 ^ 31 → -1 ≤ dx ≤ 1 → -1 ≤ dy ≤ 1 →
  activeFacet (navigateGrid it dx dy m) =
    keyAt keys (if (0 <=? Z.quot i c + dy) && (0 <=? Z.rem i c + dx)
                  && (i + dy * c + dx <? len keys)
                then i + dy * c + dx else i).
Proof.
  intros Hfacet Hfd Hkeys Hi Hc Hfound Hcb Hlen Hdx Hdy.
  rewrite (navigateGrid_single it dx dy m facetData Hfacet Hfd). rewrite <- Hkeys.
  assert (activeFacet m ∈ keys) as Hin by (apply findIndex_found; by rewrite Hi in Hfound).
  assert (0 ≤ i < len keys) as Hrange by (rewrite Hi; by apply findIndex_bounds).
  assert (keyAt keys i = activeFacet m) as Hat by (rewrite Hi; by apply keyAt_findIndex).
  assert (keys ≠ []) as Hne by (intros E; rewrite E in Hin; by apply elem_of_nil in Hin).
  pose proof (gridWidth_positive m) as Hpos. rewrite <- Hc in Hpos.
  destruct (navigateSingle_spec keys dx dy m Hne) as (_ & _ & _ & Hspec).
  cbv zeta in Hspec. rewrite <- Hi, <- Hc in Hspec.
  destruct (Hspec Hfound) as [Hstay Hgo]. clear Hspec.
  destruct (grid_target i c dx dy) as (Htarget & Hrow & Hcol & _ & _ & _ & Hsum);
    [lia..|].
  rewrite Htarget, Hrow, Hcol in Hstay, Hgo.
  destruct (Z.leb_spec 0 (Z.quot i c + dy)) as [Hr|Hr]; simpl;
    [|rewrite Hstay by lia; by rewrite Hat].
  destruct (Z.leb_spec 0 (Z.rem i c + dx)) as [Hcl|Hcl]; simpl;
    [|rewrite Hstay by lia; by rewrite Hat].
  destruct (Z.ltb_spec (i + dy * c + dx) (len keys)) as [Hhigh|Hhigh];
    [|rewrite Hstay by lia; by rewrite Hat].
  apply Hgo; [done..|]. split; [|done].
  rewrite Hsum. apply Z.add_nonneg_nonneg; [|done].
  apply Z.mul_nonneg_nonneg; lia.
Qed.

(** X17: the four moves of the single-facet view, from the selected key at
    index [i] of the ranked keys of the column, on a grid [c] columns wide:
    "right" selects index [i + 1] whenever there is one, also from the last
    column of a row to the first of the next; "left" selects [i - 1] unless
    [i] is in the first column; "down" selects [i + c] when there is such an
    index and "up" selects [i - c] unless [i] is in the first row; a move that
    is not possible leaves the selection where it is. *)
Theorem single_view_moves (it : iteration) (m : model) (facetData : facetMap) :
  0 < facet m → dataSource m !! facet m = Some facetData →
  let keys := singleKeys it m in
  let i := selected keys m in
  let c := gridWidth m in
  i ≠ -1 → c < 2 ^ 31 → len keys < 2 ^ 31 →
  activeFacet (navigateGrid it 1 0 m)
    = keyAt keys (if i + 1 <? len keys then i + 1 else i) ∧
  activeFacet (navigateGrid it (-1) 0 m)
    = keyAt keys (if 0 <? Z.rem i c then i - 1 else i) ∧
  activeFacet (navigateGrid it 0 1 m)
    = keyAt keys (if i + c <? len keys then i + c else i) ∧
  activeFacet (navigateGrid it 0 (-1) m)
    = keyAt keys (if c <=? i then i - c else i).
Proof.
  intros Hfacet Hfd keys i c Hi Hc Hlen.
  assert (0 ≤ i < len keys) as Hrange.
  { apply findIndex_bounds. by apply findIndex_found. }
  pose proof (gridWidth_positive m) as Hpos.
  destruct (grid_target i c 0 0) as (_ & _ & _ & Hq & Hrem & Hzero & _);
    [lia..|].
  assert (∀ dx dy, -1 ≤ dx ≤ 1 → -1 ≤ dy ≤ 1 →
            activeFacet (navigateGrid it dx dy m) =
              keyAt keys (if (0 <=? Z.quot i c + dy) && (0 <=? Z.rem i c + dx)
                            && (i + dy * c + dx <? len keys)
                          then i + dy * c + dx else i)) as Hmove.
  { intros dx dy Hdx Hdy.
    by apply (single_move it dx dy m facetData keys i c). }
  split_and!.
  - rewrite (Hmove 1 0) by lia. f_equal.
    destruct (Z.leb_spec 0 (Z.quot i c + 0)), (Z.leb_spec 0 (Z.rem i c + 1)),
      (Z.ltb_spec (i + 0 * c + 1) (len keys)), (Z.ltb_spec (i + 1) (len keys));
      simpl; lia.
  - rewrite (Hmove (-1) 0) by lia. f_equal.
    destruct (Z.leb_spec 0 (Z.quot i c + 0)), (Z.leb_spec 0 (Z.rem i c + -1)),
      (Z.ltb_spec (i + 0 * c + -1) (len keys)), (Z.ltb_spec 0 (Z.rem i c));
      simpl; lia.
  - rewrite (Hmove 0 1) by lia. f_equal.
    destruct (Z.leb_spec 0 (Z.quot i c + 1)), (Z.leb_spec 0 (Z.rem i c + 0)),
      (Z.ltb_spec (i + 1 * c + 0) (len keys)), (Z.ltb_spec (i + c) (len keys));
      simpl; lia.
  - rewrite (Hmove 0 (-1)) by lia. f_equal.
    destruct (Z.leb_spec 0 (Z.quot i c + -1)), (Z.leb_spec 0 (Z.rem i c + 0)),
      (Z.ltb_spec (i + -1 * c + 0) (len keys)), (Z.leb_spec c i);
      simpl; lia.
Qed.

Lemma single_view_moves_witness :
  0 < facet column1Model ∧
  singleKeys exampleIteration column1Model = ["red"; "blue"] ∧
  selected (singleKeys exampleIteration column1Model) column1Model = 0 ∧
  gridWidth column1Model = 1 ∧
  activeFacet (navigateGrid exampleIteration 1 0 column1Model) = "blue" ∧
  activeFacet (navigateGrid exampleIteration (-1) 0 column1Model) = "red".
Proof.
  destruct (single_view_moves exampleIteration column1Model
              (columnOf (dataSource column1Model) 1))
    as (Hright & Hleft & _);
    [vm_compute; reflexivity|vm_compute; reflexivity|vm_compute; discriminate
    |vm_compute; reflexivity|vm_compute; reflexivity|].
  split_and!; [vm_compute; reflexivity..| |].
  - rewrite Hright. vm_compute. reflexivity.
  - rewrite Hleft. vm_compute. reflexivity.
Defined.




